(** * Dead-letter relocation in the Service Bus explorer

    A shallow embedding of [ServiceBusService] (the message
    location-and-relocation engine of the extension) together with the
    value normaliser [convertToPlainObject] it relies on, and the
    properties of the design document that can be stated over them.

    Layout: JavaScript values and the built-ins the code calls; the value
    normaliser; the service state with its client caches; the broker as an
    interface with a trace of the calls made against it; [resubmitMessage];
    the REST peek-lock; a small simulated broker used to run the code on
    concrete queues; then the theorems. *)

From stdpp Require Import gmap strings list fin_maps pretty.
From Stdlib Require Strings.Byte.

Set Warnings "-register-all".
Set Default Proof Using "Type".
Local Open Scope Z_scope.

(** ** Completions

    A JavaScript computation either completes normally or throws.  The
    third case marks the inputs whose behaviour depends on coercions the
    embedding does not model (for instance arithmetic on a field that the
    source casts with [as number] but that holds no number); [Unmodelled]
    cannot be caught and every theorem below is about runs that avoid it. *)

Record Error := mkError { err_name : string; err_message : string }.

Inductive Outcome (A : Type) : Type :=
| Val (a : A)
| Exn (e : Error)
| Unmodelled.
Arguments Val {A} a.
Arguments Exn {A} e.
Arguments Unmodelled {A}.

#[global] Instance outcome_ret : MRet Outcome := λ A a, Val a.
#[global] Instance outcome_bind : MBind Outcome := λ A B f m,
  match m with
  | Val a => f a
  | Exn e => Exn e
  | Unmodelled => Unmodelled
  end.
#[global] Instance outcome_fmap : FMap Outcome := λ A B f m,
  match m with
  | Val a => Val (f a)
  | Exn e => Exn e
  | Unmodelled => Unmodelled
  end.

(** [try { body } catch { handler }] on a pure computation. *)
Definition try_catch {A} (body : Outcome A) (handler : Error → Outcome A) : Outcome A :=
  match body with
  | Val a => Val a
  | Exn e => handler e
  | Unmodelled => Unmodelled
  end.

(** What the environment gives back when the program awaits one of its
    calls: a value, or a rejection. *)
Inductive Answer (A : Type) : Type :=
| Returned (a : A)
| Threw (e : Error).
Arguments Returned {A} a.
Arguments Threw {A} e.

(** [await] *)
Definition settle {A} (answer : Answer A) : Outcome A :=
  match answer with
  | Returned a => Val a
  | Threw e => Exn e
  end.

Definition error_toString (e : Error) : string :=
  err_name e +:+ ": " +:+ err_message e.

Definition RangeError (msg : string) : Error := mkError "RangeError" msg.
Definition TypeError (msg : string) : Error := mkError "TypeError" msg.
Definition SyntaxError (msg : string) : Error := mkError "SyntaxError" msg.
Definition PlainError (msg : string) : Error := mkError "Error" msg.

(** ** Values

    Numbers are the integer-valued doubles, carried as [Z]; the result of
    an addition or a multiplication is rounded the way IEEE-754 binary64
    does it ([to_double]).  Objects are finite maps from property names to
    values: the code only ever reads them by name or copies them key by
    key.  A [VMap] is an object with a [forEach] method whose constructor
    name contains "Map"; its entries are kept in iteration order, each key
    already passed through [String(key)].  A [VJsonable] is an object with
    a [toJSON] method, carried with the value that method returns. *)

Inductive Value : Type :=
| VUndefined
| VNull
| VBool (b : bool)
| VNum (n : Z)
| VStr (s : string)
| VDate (t : option Z)
| VBuffer (bytes : list Byte.byte)
| VArray (items : list Value)
| VObject (props : gmap string Value)
| VMap (entries : list (string * Value))
| VJsonable (props : gmap string Value) (json : Value).

Definition truthy (v : Value) : bool :=
  match v with
  | VUndefined | VNull | VBool false | VNum 0 | VStr "" => false
  | _ => true
  end.

(** [typeof v === 'object'] *)
Definition typeof_object (v : Value) : bool :=
  match v with
  | VUndefined | VBool _ | VNum _ | VStr _ => false
  | _ => true
  end.

Definition isBuffer (v : Value) : bool :=
  match v with VBuffer _ => true | _ => false end.

Definition own_props (v : Value) : gmap string Value :=
  match v with
  | VObject props | VJsonable props _ => props
  | _ => ∅
  end.

(** [v.k] for a value that is not null or undefined. *)
Definition get_prop (v : Value) (k : string) : Value :=
  default VUndefined (own_props v !! k).

(** [k in v] *)
Definition has_prop (k : string) (v : Value) : bool :=
  bool_decide (is_Some (own_props v !! k)).

(** [v?.k] *)
Definition get_prop_opt (v : Value) (k : string) : Value :=
  match v with
  | VUndefined | VNull => VUndefined
  | _ => get_prop v k
  end.

(** [v[i]] for a numeric index. *)
Definition get_index (v : Value) (i : nat) : Value :=
  match v with
  | VObject props | VJsonable props _ => default VUndefined (props !! pretty i)
  | VArray items => default VUndefined (items !! i)
  | VBuffer bytes =>
      from_option (λ b, VNum (Z.of_N (Byte.to_N b))) VUndefined (bytes !! i)
  | VStr s =>
      from_option (λ c, VStr (String c EmptyString)) VUndefined (String.get i s)
  | _ => VUndefined
  end.

(** [v === s] for a string literal [s]. *)
Definition is_string (v : Value) (s : string) : bool :=
  match v with
  | VStr s' => bool_decide (s' = s)
  | _ => false
  end.

(** [a || b] *)
Definition js_or (a b : Value) : Value := if truthy a then a else b.

(** [result[k] = v] on an object created by [{}]: the name [__proto__]
    reaches the accessor of [Object.prototype] and creates no property. *)
Definition assignProp (k : string) (v : Value) (o : gmap string Value) : gmap string Value :=
  if decide (k = "__proto__") then o else <[k := v]> o.

(** ** Numbers *)

(** Round an integer to the nearest binary64 value, ties to even; [None]
    when the result is an infinity. *)
Definition to_double (z : Z) : option Z :=
  let a := Z.abs z in
  if a <? 2 ^ 53 then Some z
  else if 2 ^ 1024 - 2 ^ 970 <=? a then None
  else
    let e := Z.log2 a - 52 in
    let q := a / 2 ^ e in
    let r := a mod 2 ^ e in
    let half := 2 ^ (e - 1) in
    let q' := if r <? half then q
              else if half <? r then q + 1
              else if Z.even q then q else q + 1 in
    Some (Z.sgn z * (q' * 2 ^ e)).

Definition js_number (z : Z) : Outcome Z :=
  match to_double z with
  | Some d => Val d
  | None => Unmodelled
  end.

Definition js_mul (a b : Z) : Outcome Z := js_number (a * b).
Definition js_add (a b : Z) : Outcome Z := js_number (a + b).

(** [BigInt(v)] *)
Definition toBigInt (v : Value) : Outcome Z :=
  match v with
  | VNum n => Val n
  | VBool b => Val (if b then 1 else 0)
  | VUndefined => Exn (TypeError "Cannot convert undefined to a BigInt")
  | VNull => Exn (TypeError "Cannot convert null to a BigInt")
  | _ => Unmodelled
  end.

(** ** Dates *)

Definition msPerDay : Z := 86400000.
Definition maxTimeValue : Z := 8640000000000000.

(** [new Date(n)]: the time value, or [None] for an invalid date. *)
Definition new_Date (n : Z) : option Z :=
  if Z.abs n <=? maxTimeValue then Some n else None.

(** Year, month and day of the proleptic Gregorian calendar for a day
    number counted from 1970-01-01. *)
Definition civil_from_days (day : Z) : Z * Z * Z :=
  let z := day + 719468 in
  let era := z / 146097 in
  let doe := z - era * 146097 in
  let yoe := (doe - doe / 1460 + doe / 36524 - doe / 146096) / 365 in
  let doy := doe - (365 * yoe + yoe / 4 - yoe / 100) in
  let mp := (5 * doy + 2) / 153 in
  let d := doy - (153 * mp + 2) / 5 + 1 in
  let m := if mp <? 10 then mp + 3 else mp - 9 in
  let y := yoe + era * 400 in
  (if m <=? 2 then y + 1 else y, m, d).

Fixpoint zeros (k : nat) : string :=
  match k with
  | O => ""
  | S k' => "0" +:+ zeros k'
  end.

Definition pad (width : nat) (n : Z) : string :=
  let digits := pretty (Z.abs n) in
  zeros (width - String.length digits)%nat +:+ digits.

Definition format_iso (t : Z) : string :=
  let '(y, m, d) := civil_from_days (t / msPerDay) in
  let ms := t mod msPerDay in
  let year := if (0 <=? y) && (y <=? 9999) then pad 4 y
              else (if y <? 0 then "-" else "+") +:+ pad 6 y in
  year +:+ "-" +:+ pad 2 m +:+ "-" +:+ pad 2 d +:+ "T"
    +:+ pad 2 (ms / 3600000) +:+ ":" +:+ pad 2 (ms / 60000 mod 60) +:+ ":"
    +:+ pad 2 (ms / 1000 mod 60) +:+ "." +:+ pad 3 (ms mod 1000) +:+ "Z".

(** [d.toISOString()] *)
Definition toISOString (t : option Z) : Outcome string :=
  match t with
  | Some t =>
      if Z.abs t <=? maxTimeValue then Val (format_iso t)
      else Exn (RangeError "Invalid time value")
  | None => Exn (RangeError "Invalid time value")
  end.

(** ** The value normaliser: [convertToPlainObject] *)

(** The eight big-endian bytes of a tick count:
    [ticks = (ticks << 8n) | BigInt(bytes[i] || 0)] for [i] from 0 to 7. *)
Definition read_ticks (bytes : Value) : Outcome Z :=
  foldl (λ acc i,
           ticks ← acc;
           b ← toBigInt (js_or (get_index bytes i) (VNum 0));
           Val (Z.lor (Z.shiftl ticks 8) b))
        (Val 0) (seq 0 8).

Definition ticksToUnixEpoch : Z := 621355968000000000.
Definition ticksPerMillisecond : Z := 10000.

(** [descriptor?.value === 'com.microsoft:datetime-offset' && objAsAny.value] *)
Definition isDatetimeOffset (obj : Value) : bool :=
  let descriptor := get_prop obj "descriptor" in
  is_string (get_prop_opt descriptor "value") "com.microsoft:datetime-offset"
  && truthy (get_prop obj "value").

(** The datetime-offset test and its [try] block.  [Val (Some v)]: the
    block returned [v]; [Val None]: the test failed, or the block threw and
    the [catch] clause let control fall through. *)
Definition decodeDatetimeOffset (obj : Value) : Outcome (option Value) :=
  if isDatetimeOffset obj
  then
    try_catch
      (ticks ← read_ticks (get_prop obj "value");
       unixMillis ← js_number (Z.quot (ticks - ticksToUnixEpoch) ticksPerMillisecond);
       iso ← toISOString (new_Date unixMillis);
       Val (Some (VStr iso)))
      (λ _, Val None)
  else Val None.

(** ['low' in objAsAny && 'high' in objAsAny && !('type' in objAsAny)] *)
Definition isLong (obj : Value) : bool :=
  has_prop "low" obj && has_prop "high" obj && negb (has_prop "type" obj).

(** The [Long] test and its [try] block, with the same convention.  The
    source casts both fields with [as number]; a field holding anything
    else is outside the embedding. *)
Definition decodeLong (obj : Value) : Outcome (option Value) :=
  if isLong obj
  then
    match get_prop obj "low", get_prop obj "high" with
    | VNum low, VNum high =>
        try_catch
          (hi ← js_mul high 4294967296;
           num ← js_add low hi;
           if (1000000000000 <? num) && (num <? 2000000000000)
           then iso ← toISOString (new_Date num); Val (Some (VStr iso))
           else Val (Some (VNum num)))
          (λ _, Val None)
    | _, _ => Unmodelled
    end
  else Val None.

(** One iteration of a key-by-key copy into a fresh object. *)
Definition collectProp (k : string) (v : Outcome Value)
    (acc : Outcome (gmap string Value)) : Outcome (gmap string Value) :=
  match acc, v with
  | Unmodelled, _ | _, Unmodelled => Unmodelled
  | Exn e, _ => Exn e
  | Val _, Exn e => Exn e
  | Val o, Val v' => Val (assignProp k v' o)
  end.

Fixpoint convertToPlainObject (obj : Value) : Outcome Value :=
  match obj with
  | VUndefined | VNull => Val obj
  | VDate t => VStr <$> toISOString t
  | VBuffer _ => Val obj
  | VArray items =>
      VArray <$> foldr (λ item rest,
                          match convertToPlainObject item with
                          | Val v => cons v <$> rest
                          | Exn e => Exn e
                          | Unmodelled => Unmodelled
                          end) (Val []) items
  | VObject _ | VMap _ | VJsonable _ _ =>
      match decodeDatetimeOffset obj with
      | Val (Some v) => Val v
      | Val None =>
          match decodeLong obj with
          | Val (Some v) => Val v
          | Val None =>
              match obj with
              | VMap entries =>
                  VObject <$> foldl (λ acc kv,
                                       match kv with
                                       | (k, v) => collectProp k (convertToPlainObject v) acc
                                       end) (Val ∅) entries
              | VJsonable _ json => convertToPlainObject json
              | VObject props =>
                  VObject <$> map_fold (λ k v, collectProp k (convertToPlainObject v))
                                       (Val ∅) props
              | _ => Val obj
              end
          | Exn e => Exn e
          | Unmodelled => Unmodelled
          end
      | Exn e => Exn e
      | Unmodelled => Unmodelled
      end
  | VBool _ | VNum _ | VStr _ => Val obj
  end.

(** ** Strings *)

(** The rest of [s] after the prefix [p], when [s] starts with [p]. *)
Fixpoint strip_prefix (p s : string) : option string :=
  match p, s with
  | EmptyString, _ => Some s
  | String a p', String b s' => if Ascii.eqb a b then strip_prefix p' s' else None
  | String _ _, EmptyString => None
  end.

Definition starts_with (p s : string) : bool :=
  match strip_prefix p s with Some _ => true | None => false end.

(** [hay.includes(needle)] *)
Fixpoint includes (needle hay : string) : bool :=
  if starts_with needle hay then true
  else match hay with
       | EmptyString => false
       | String _ rest => includes needle rest
       end.

Definition dot : Ascii.ascii := Ascii.Ascii false true true true false true false false.

(** The longest prefix without a dot, and what follows it: the greedy
    match of [[^.]*]. *)
Fixpoint span_label (s : string) : string * string :=
  match s with
  | EmptyString => (EmptyString, EmptyString)
  | String c rest =>
      if Ascii.eqb c dot then (EmptyString, s)
      else let '(name, tail) := span_label rest in (String c name, tail)
  end.

Definition endpoint_prefix : string := "Endpoint=sb://".
Definition namespace_suffix : string := ".servicebus.windows.net".

(** An attempt to match [Endpoint=sb://([^.]+)\.servicebus\.windows\.net]
    at the start of [s]; the result is the captured group. *)
Definition match_endpoint_here (s : string) : option string :=
  match strip_prefix endpoint_prefix s with
  | Some rest =>
      let '(name, tail) := span_label rest in
      if negb (String.eqb name "") && starts_with namespace_suffix tail
      then Some name else None
  | None => None
  end.

(** [s.match(/Endpoint=sb:\/\/([^.]+)\.servicebus\.windows\.net/)]: the
    first group of the leftmost match. *)
Fixpoint match_endpoint (s : string) : option string :=
  match match_endpoint_here s with
  | Some name => Some name
  | None => match s with
            | EmptyString => None
            | String _ rest => match_endpoint rest
            end
  end.

Definition getNamespaceFromConnectionString (connectionString : string) : string :=
  match match_endpoint connectionString with
  | Some name => name +:+ namespace_suffix
  | None => ""
  end.

Definition isConnectionString (input : string) : bool :=
  includes "Endpoint=sb://" input && includes "SharedAccessKey" input.

(** ** The service and its client caches

    A client object is identified by the order in which it was allocated;
    [constructed] counts the [new] expressions evaluated so far, so two
    clients are the same object exactly when their identities agree. *)

Inductive ClientSpec :=
| FromConnectionString (connectionString : string)
| FromCredential (fullyQualifiedNamespace : string).

Record ServiceBusClient := mkClient {
  client_id : nat;
  client_spec : ClientSpec
}.

Record ServiceBusAdministrationClient := mkAdminClient {
  admin_id : nat;
  admin_spec : ClientSpec
}.

Record ServiceBusService := mkService {
  clients : gmap string ServiceBusClient;
  adminClients : gmap string ServiceBusAdministrationClient;
  connectionStrings : gmap string string;
  constructed : nat
}.

Definition new_service : ServiceBusService :=
  mkService ∅ ∅ ∅ 0.

(** [if (s)] for an optional string: present and not empty. *)
Definition nonempty (o : option string) : option string :=
  match o with
  | Some EmptyString => None
  | _ => o
  end.

Definition registerConnectionString (connectionString : string)
    (this : ServiceBusService) : string * ServiceBusService :=
  let namespace := getNamespaceFromConnectionString connectionString in
  if negb (String.eqb namespace "") then
    (namespace,
     mkService (delete namespace (clients this))
               (delete namespace (adminClients this))
               (<[namespace := connectionString]> (connectionStrings this))
               (constructed this))
  else (namespace, this).

Definition hasConnectionString (namespace : string) (this : ServiceBusService) : bool :=
  bool_decide (is_Some (connectionStrings this !! namespace)).

Definition fullyQualified (namespace : string) : string :=
  if includes namespace_suffix namespace then namespace
  else namespace +:+ namespace_suffix.

(** The object that [new ServiceBusClient(...)] or
    [new ServiceBusAdministrationClient(...)] yields when the constructor
    returns: the next client object. *)
Definition nextClient (spec : ClientSpec) (this : ServiceBusService)
    : ServiceBusClient * ServiceBusService :=
  (mkClient (constructed this) spec,
   mkService (clients this) (adminClients this) (connectionStrings this)
             (S (constructed this))).

Definition nextAdminClient (spec : ClientSpec) (this : ServiceBusService)
    : ServiceBusAdministrationClient * ServiceBusService :=
  (mkAdminClient (constructed this) spec,
   mkService (clients this) (adminClients this) (connectionStrings this)
             (S (constructed this))).

(** [this.clients.set(namespace, client)] *)
Definition setClient (namespace : string) (client : ServiceBusClient)
    (this : ServiceBusService) : unit * ServiceBusService :=
  (tt, mkService (<[namespace := client]> (clients this)) (adminClients this)
                 (connectionStrings this) (constructed this)).

(** [this.adminClients.set(namespace, client)] *)
Definition setAdminClient (namespace : string) (client : ServiceBusAdministrationClient)
    (this : ServiceBusService) : unit * ServiceBusService :=
  (tt, mkService (clients this) (<[namespace := client]> (adminClients this))
                 (connectionStrings this) (constructed this)).

(** [ServiceBusTreeProvider.addNamespace] of extension.ts: the spelling
    under which the tree stores a namespace and hands it to the service. *)
Definition addNamespace (namespace : string) (namespaces : gset string) : gset string :=
  {[ fullyQualified namespace ]} ∪ namespaces.

(** ** Messages, senders and receivers *)

Record ServiceBusReceivedMessage := mkReceived {
  body : Value;
  contentType : option string;
  correlationId : option string;
  subject : option string;
  sessionId : option string;
  messageId : option string;
  sequenceNumber : option Z;
  deadLetterReason : option string;
  applicationProperties : Value
}.

(** The argument of [sender.sendMessages]. *)
Record ServiceBusMessage := mkMessage {
  msg_body : Value;
  msg_contentType : option string;
  msg_correlationId : option string;
  msg_subject : option string;
  msg_sessionId : option string;
  msg_messageId : option string;
  msg_applicationProperties : gmap string Value
}.

Inductive ReceiveMode := peekLock | receiveAndDelete.

Inductive Entity :=
| QueueEntity (queueName : string)
| SubscriptionEntity (topicName subscriptionName : string).

(** Every receiver of this service reads the dead-letter sub-queue. *)
Record Receiver := mkReceiver {
  receiver_client : ServiceBusClient;
  receiver_entity : Entity;
  receiver_mode : ReceiveMode
}.

Record Sender := mkSender {
  sender_client : ServiceBusClient;
  sender_entity : string
}.

(** [m.sequenceNumber?.toString()] *)
Definition sequenceString (m : ServiceBusReceivedMessage) : option string :=
  pretty <$> sequenceNumber m.

(** An optional string inside a template literal. *)
Definition show (o : option string) : string := default "undefined" o.

(** An optional string stored as a property value. *)
Definition optional (o : option string) : Value := from_option VStr VUndefined o.

Definition indexed {A} (f : A → Value) (l : list A) : gmap string Value :=
  list_to_map (imap (λ i x, (pretty i, f x)) l).

(** The own enumerable properties that [{...v}] copies. *)
Definition spread (v : Value) : gmap string Value :=
  match v with
  | VObject props | VJsonable props _ => props
  | VArray items => indexed id items
  | VBuffer bytes => indexed (λ b, VNum (Z.of_N (Byte.to_N b))) bytes
  | VStr s => indexed (λ c, VStr (String c EmptyString)) (String.list_ascii_of_string s)
  | _ => ∅
  end.

(** ** The broker

    The broker and the library that talks to it are outside the program:
    every call on a sender or a receiver is answered by the environment,
    which may also make it throw.  So are the two constructors of the
    library: they open no connection, but they throw on an argument they
    cannot use (a connection string without a key, for one).  [W] is
    whatever the environment keeps between calls. *)

Class Broker (W : Type) := {
  newServiceBusClient : ClientSpec → W → Answer unit * W;
  newServiceBusAdministrationClient : ClientSpec → W → Answer unit * W;
  peekMessages : Receiver → nat → Z → W → Answer (list ServiceBusReceivedMessage) * W;
  receiveMessages : Receiver → nat → Z → W → Answer (list ServiceBusReceivedMessage) * W;
  abandonMessage : Receiver → ServiceBusReceivedMessage → W → Answer unit * W;
  completeMessage : Receiver → ServiceBusReceivedMessage → W → Answer unit * W;
  sendMessages : Sender → ServiceBusMessage → W → Answer unit * W;
  closeSender : Sender → W → Answer unit * W;
  closeReceiver : Receiver → W → Answer unit * W
}.

(** What a run leaves behind: each broker call with its answer, and each
    line written with [console.log], oldest first. *)
Inductive Event :=
| Peeked (r : Receiver) (maxCount : nat) (fromSequenceNumber : Z)
         (answer : Answer (list ServiceBusReceivedMessage))
| Received (r : Receiver) (maxCount : nat) (maxWaitTimeInMs : Z)
           (answer : Answer (list ServiceBusReceivedMessage))
| Abandoned (r : Receiver) (m : ServiceBusReceivedMessage) (answer : Answer unit)
| Completed (r : Receiver) (m : ServiceBusReceivedMessage) (answer : Answer unit)
| Sent (s : Sender) (m : ServiceBusMessage) (answer : Answer unit)
| SenderClosed (s : Sender) (answer : Answer unit)
| ReceiverClosed (r : Receiver) (answer : Answer unit)
| Logged (line : string).

Record Run (W : Type) := mkRun {
  run_service : ServiceBusService;
  run_world : W;
  run_trace : list Event
}.
Arguments mkRun {W} _ _ _.
Arguments run_service {W} _.
Arguments run_world {W} _.
Arguments run_trace {W} _.

(** An asynchronous method of the service: state in, completion and state
    out. *)
Definition M (W A : Type) : Type := Run W → Outcome A * Run W.

Definition ret {W A} (a : A) : M W A := λ s, (Val a, s).

Definition bind {W A B} (m : M W A) (f : A → M W B) : M W B :=
  λ s, match m s with
       | (Val a, s') => f a s'
       | (Exn e, s') => (Exn e, s')
       | (Unmodelled, s') => (Unmodelled, s')
       end.

Declare Scope js_scope.
Delimit Scope js_scope with js.
Notation "x <- m ;; k" := (bind m (λ x, k))
  (at level 100, m at next level, right associativity) : js_scope.
Notation "m ;; k" := (bind m (λ _, k))
  (at level 100, right associativity) : js_scope.
Local Open Scope js_scope.

Definition throw {W A} (e : Error) : M W A := λ s, (Exn e, s).

Definition lift {W A} (o : Outcome A) : M W A := λ s, (o, s).

Definition emit {W} (e : Event) : M W unit :=
  λ s, (Val tt, mkRun (run_service s) (run_world s) (run_trace s ++ [e])).

Definition console_log {W} (line : string) : M W unit := emit (Logged line).

(** A broker call: the environment answers, and the answer is recorded. *)
Definition call {W A} (op : W → Answer A * W) (ev : Answer A → Event) : M W A :=
  λ s, let '(answer, w) := op (run_world s) in
       (settle answer, mkRun (run_service s) w (run_trace s ++ [ev answer])).

(** A call into the library that is not a call on a sender or a receiver:
    the environment answers, and nothing is recorded. *)
Definition invoke {W A} (op : W → Answer A * W) : M W A :=
  λ s, let '(answer, w) := op (run_world s) in
       (settle answer, mkRun (run_service s) w (run_trace s)).

(** [try { body } finally { cleanup }]: the cleanup runs whatever the body
    did, and if the cleanup throws, its exception replaces the completion
    of the body. *)
Definition try_finally {W A} (body : M W A) (cleanup : M W unit) : M W A :=
  λ s, match body s with
       | (Unmodelled, s') => (Unmodelled, s')
       | (completion, s') =>
           match cleanup s' with
           | (Val _, s'') => (completion, s'')
           | (Exn e, s'') => (Exn e, s'')
           | (Unmodelled, s'') => (Unmodelled, s'')
           end
       end.

Definition withService {W A} (f : ServiceBusService → A * ServiceBusService) : M W A :=
  λ s, let '(a, svc) := f (run_service s) in
       (Val a, mkRun svc (run_world s) (run_trace s)).

(** ** The client caches *)

Section Clients.
Context {W : Type} `{!Broker W}.

(** [new ServiceBusClient(...)] and [new ServiceBusAdministrationClient(...)]:
    the constructor throws, or returns and the result is the next client
    object. *)
Definition newClient (spec : ClientSpec) : M W ServiceBusClient :=
  invoke (newServiceBusClient spec);;
  withService (nextClient spec).

Definition newAdminClient (spec : ClientSpec) : M W ServiceBusAdministrationClient :=
  invoke (newServiceBusAdministrationClient spec);;
  withService (nextAdminClient spec).

Definition getClient (namespace : string) : M W ServiceBusClient :=
  this <- withService (λ this, (this, this));;
  match clients this !! namespace with
  | Some client => ret client
  | None =>
      client <-
        match nonempty (connectionStrings this !! namespace) with
        | Some connectionString =>
            console_log ("[ServiceBus] Creating client for " +:+ namespace
                           +:+ " using connection string");;
            newClient (FromConnectionString connectionString)
        | None =>
            let fullyQualifiedNamespace := fullyQualified namespace in
            console_log ("[ServiceBus] Creating client for " +:+ fullyQualifiedNamespace
                           +:+ " using Azure AD");;
            newClient (FromCredential fullyQualifiedNamespace)
        end;;
      withService (setClient namespace client);;
      ret client
  end.

Definition getAdminClient (namespace : string) : M W ServiceBusAdministrationClient :=
  this <- withService (λ this, (this, this));;
  match adminClients this !! namespace with
  | Some client => ret client
  | None =>
      client <-
        match nonempty (connectionStrings this !! namespace) with
        | Some connectionString =>
            console_log ("[ServiceBus] Creating admin client for " +:+ namespace
                           +:+ " using connection string");;
            newAdminClient (FromConnectionString connectionString)
        | None =>
            let fullyQualifiedNamespace := fullyQualified namespace in
            console_log ("[ServiceBus] Creating admin client for " +:+ fullyQualifiedNamespace
                           +:+ " using Azure AD");;
            newAdminClient (FromCredential fullyQualifiedNamespace)
        end;;
      withService (setAdminClient namespace client);;
      ret client
  end.

End Clients.

(** ** [resubmitMessage] *)

(** The test of [deletedMessages.some] on the peek path (lines 697-700). *)
Definition matchesDeleted (targetSequenceNumber targetMessageId : option string)
    (m : ServiceBusReceivedMessage) : bool :=
  bool_decide (messageId m = targetMessageId)
  || bool_decide (sequenceString m = targetSequenceNumber).

Section Resubmit.
Context {W : Type} `{!Broker W}.

Definition is_nullish (v : Value) : bool :=
  match v with VUndefined | VNull => true | _ => false end.

(** The block that prepares the body, the same on both paths
    (lines 642-652 and 723-737). *)
Definition convertBody (messageBody : Value) : M W Value :=
  if negb (is_nullish messageBody) && typeof_object messageBody && negb (isBuffer messageBody)
  then
    match convertToPlainObject messageBody with
    | Val converted =>
        console_log "[ServiceBus] Converted message body to JSON";;
        ret converted
    | Exn e =>
        console_log ("[ServiceBus] Could not convert body to JSON, using as-is: "
                       +:+ error_toString e);;
        ret messageBody
    | Unmodelled => lift Unmodelled
    end
  else ret messageBody.

(** The loop over the received batch (lines 624-633); [targetMessage] is
    the variable of that name. *)
Fixpoint scanReceived (receiver : Receiver) (targetSequenceNumber : option string)
    (messages : list ServiceBusReceivedMessage)
    (targetMessage : option ServiceBusReceivedMessage)
    : M W (option ServiceBusReceivedMessage) :=
  match messages with
  | [] => ret targetMessage
  | msg :: rest =>
      if bool_decide (sequenceString msg = targetSequenceNumber) then
        console_log "[ServiceBus] Found target message with peekLock!";;
        scanReceived receiver targetSequenceNumber rest (Some msg)
      else
        call (abandonMessage receiver msg) (Abandoned receiver msg);;
        scanReceived receiver targetSequenceNumber rest targetMessage
  end.

(** The argument of [sendMessages] on the peek path (lines 658-671). *)
Definition peekedCopy (peekedTarget : ServiceBusReceivedMessage)
    (messageBody convertedAppProps : Value) : ServiceBusMessage :=
  {| msg_body := messageBody;
     msg_contentType := contentType peekedTarget;
     msg_correlationId := correlationId peekedTarget;
     msg_subject := subject peekedTarget;
     msg_sessionId := sessionId peekedTarget;
     msg_messageId := Some ("resubmit-" +:+ show (messageId peekedTarget));
     msg_applicationProperties :=
       <["x-original-message-id" := optional (messageId peekedTarget)]>
         (<["x-original-dead-letter-reason" := optional (deadLetterReason peekedTarget)]>
            (<["x-resubmitted" := VBool true]> (spread convertedAppProps))) |}.

(** The argument of [sendMessages] on the lock path (lines 743-755). *)
Definition lockedCopy (targetMessage : ServiceBusReceivedMessage)
    (messageBody convertedAppProps : Value) : ServiceBusMessage :=
  {| msg_body := messageBody;
     msg_contentType := contentType targetMessage;
     msg_correlationId := correlationId targetMessage;
     msg_subject := subject targetMessage;
     msg_sessionId := sessionId targetMessage;
     msg_messageId := messageId targetMessage;
     msg_applicationProperties :=
       <["x-original-dead-letter-reason" := optional (deadLetterReason targetMessage)]>
         (<["x-resubmitted" := VBool true]> (spread convertedAppProps)) |}.

(** [createReceiver] for the second pass of the peek path. *)
Definition deleteReceiverFor (client : ServiceBusClient)
    (queueName topicName subscriptionName : option string) : Receiver :=
  match nonempty queueName with
  | Some q => mkReceiver client (QueueEntity q) receiveAndDelete
  | None => mkReceiver client
              (SubscriptionEntity (default "" topicName) (default "" subscriptionName))
              receiveAndDelete
  end.

(** The branch taken when no received message was bound
    (lines 638-718): resend from the peeked copy, then try to remove the
    source with a [receiveAndDelete] receiver. *)
Definition relocateFromPeek (client : ServiceBusClient) (sender : Sender) (receiver : Receiver)
    (queueName topicName subscriptionName : option string)
    (targetSequenceNumber : option string)
    (peekedTarget : ServiceBusReceivedMessage) : M W unit :=
  console_log "[ServiceBus] peekLock receive returned 0 messages, using peeked message data directly";;
  messageBody <- convertBody (body peekedTarget);;
  convertedAppProps <- lift (convertToPlainObject (applicationProperties peekedTarget));;
  console_log "[ServiceBus] Sending message to main queue/topic";;
  let outgoing := peekedCopy peekedTarget messageBody convertedAppProps in
  call (sendMessages sender outgoing) (Sent sender outgoing);;
  console_log "[ServiceBus] Message sent to main queue/topic";;
  call (closeReceiver receiver) (ReceiverClosed receiver);;
  let deleteReceiver := deleteReceiverFor client queueName topicName subscriptionName in
  try_finally
    (console_log "[ServiceBus] Attempting to delete message from DLQ using receiveAndDelete...";;
     deletedMessages <- call (receiveMessages deleteReceiver 100 10000)
                             (Received deleteReceiver 100 10000);;
     console_log ("[ServiceBus] receiveAndDelete got "
                    +:+ pretty (length deletedMessages) +:+ " messages");;
     let targetMessageId := messageId peekedTarget in
     let wasDeleted :=
       existsb (matchesDeleted targetSequenceNumber targetMessageId) deletedMessages in
     if wasDeleted then
       console_log "[ServiceBus] Target message was deleted from DLQ"
     else if (0 <? length deletedMessages)%nat then
       console_log ("[ServiceBus] Deleted messages had IDs: "
                      +:+ String.concat ", " (map (λ m, default "" (messageId m)) deletedMessages));;
       console_log ("[ServiceBus] Target messageId was: " +:+ show targetMessageId
                      +:+ ", sequenceNumber: " +:+ show targetSequenceNumber);;
       console_log ("[ServiceBus] WARNING: Deleted " +:+ pretty (length deletedMessages)
                      +:+ " message(s) - assuming target was among them")
     else
       console_log "[ServiceBus] WARNING: Could not delete message from DLQ (receiveAndDelete returned 0 messages)";;
       console_log "[ServiceBus] Message was resubmitted but may still exist in DLQ - please delete manually")
    (call (closeReceiver deleteReceiver) (ReceiverClosed deleteReceiver)).

(** The rest of the [try] block when a received message was bound
    (lines 720-760): resend it, then complete it. *)
Definition relocateLocked (sender : Sender) (receiver : Receiver)
    (targetMessage : ServiceBusReceivedMessage) : M W unit :=
  messageBody <- convertBody (body targetMessage);;
  convertedAppProps <- lift (convertToPlainObject (applicationProperties targetMessage));;
  console_log "[ServiceBus] Sending message to main queue/topic";;
  let outgoing := lockedCopy targetMessage messageBody convertedAppProps in
  call (sendMessages sender outgoing) (Sent sender outgoing);;
  console_log "[ServiceBus] Completing message in DLQ";;
  call (completeMessage receiver targetMessage) (Completed receiver targetMessage);;
  console_log "[ServiceBus] Resubmit completed successfully".

Definition senderFor (client : ServiceBusClient) (queueName topicName : option string)
    : M W Sender :=
  match nonempty queueName, nonempty topicName with
  | Some q, _ => ret (mkSender client q)
  | None, Some t => ret (mkSender client t)
  | None, None => throw (PlainError "Either queueName or topicName must be provided")
  end.

Definition receiverFor (client : ServiceBusClient)
    (queueName topicName subscriptionName : option string) : M W Receiver :=
  match nonempty queueName, nonempty topicName, nonempty subscriptionName with
  | Some q, _, _ => ret (mkReceiver client (QueueEntity q) peekLock)
  | None, Some t, Some sub => ret (mkReceiver client (SubscriptionEntity t sub) peekLock)
  | _, _, _ =>
      throw (PlainError "Either queueName or both topicName and subscriptionName must be provided")
  end.

Definition matchesTarget (targetSequenceNumber : option string)
    (m : ServiceBusReceivedMessage) : bool :=
  bool_decide (sequenceString m = targetSequenceNumber).

Definition resubmitMessage (namespace : string) (message : ServiceBusReceivedMessage)
    (queueName topicName subscriptionName : option string) : M W unit :=
  client <- getClient namespace;;
  sender <- senderFor client queueName topicName;;
  receiver <- receiverFor client queueName topicName subscriptionName;;
  try_finally
    (let targetSequenceNumber := sequenceString message in
     console_log ("[ServiceBus] Looking for message with sequenceNumber: "
                    +:+ show targetSequenceNumber);;
     peekedMessages <- call (peekMessages receiver 100 1) (Peeked receiver 100 1);;
     console_log ("[ServiceBus] Peeked " +:+ pretty (length peekedMessages)
                    +:+ " messages in DLQ");;
     if (length peekedMessages =? 0)%nat then
       throw (PlainError "No messages found in dead-letter queue.")
     else
       match find (matchesTarget targetSequenceNumber) peekedMessages with
       | None =>
           console_log ("[ServiceBus] Target message not found in first "
                          +:+ pretty (length peekedMessages) +:+ " peeked messages");;
           throw (PlainError "Target message not found in dead-letter queue.")
       | Some peekedTarget =>
           console_log "[ServiceBus] Target message found in peeked messages";;
           console_log "[ServiceBus] Attempting to receive messages with peekLock mode...";;
           messages <- call (receiveMessages receiver 100 10000) (Received receiver 100 10000);;
           console_log ("[ServiceBus] Received " +:+ pretty (length messages)
                          +:+ " messages with peekLock");;
           targetMessage <- (if (0 <? length messages)%nat
                             then scanReceived receiver targetSequenceNumber messages None
                             else ret None);;
           match targetMessage with
           | None =>
               relocateFromPeek client sender receiver queueName topicName subscriptionName
                                targetSequenceNumber peekedTarget
           | Some targetMessage => relocateLocked sender receiver targetMessage
           end
       end)
    (call (closeSender sender) (SenderClosed sender);;
     call (closeReceiver receiver) (ReceiverClosed receiver)).

End Resubmit.

(** [azureServiceBus.resubmitMessage] of the command layer: what the user
    is shown once [resubmitMessage] has settled. *)
Inductive Notification :=
| InformationMessage (text : string)
| ErrorMessage (text : string).

Definition resubmitNotification (completion : Outcome unit) : option Notification :=
  match completion with
  | Val _ => Some (InformationMessage "Message resubmitted successfully")
  | Exn e => Some (ErrorMessage ("Failed to resubmit message: " +:+ err_message e))
  | Unmodelled => None
  end.

(** ** The REST peek-lock

    The HTTP exchange is the environment's: [getAuthHeader] (which signs
    with the clock and a key, or asks the identity provider) and [fetch]
    are answered from outside, and [JSON.parse] is a parameter.  What is
    modelled of the response is what the code reads from it; the two
    console lines of the method are not recorded. *)

Record Request := mkRequest {
  req_url : string;
  req_method : string;
  req_headers : list (string * string)
}.

(** Header names are kept the way a [Headers] object iterates them,
    lower-cased and unique; [text] is what [await response.text()] settles
    to. *)
Record Response := mkResponse {
  status : Z;
  statusText : string;
  headers : list (string * string);
  text : Answer string
}.

Record RestLockReceipt := mkReceipt {
  rest_body : string;
  rest_brokerProperties : Value;
  rest_userProperties : gmap string Value;
  rest_location : string
}.

Class Rest (W : Type) := {
  getAuthHeader : string → W → Answer string * W;
  fetch : Request → W → Answer Response * W
}.

Definition lower_ascii (c : Ascii.ascii) : Ascii.ascii :=
  let n := Ascii.N_of_ascii c in
  if ((65 <=? n) && (n <=? 90))%N then Ascii.ascii_of_N (n + 32) else c.

Fixpoint toLowerCase (s : string) : string :=
  match s with
  | EmptyString => EmptyString
  | String c rest => String (lower_ascii c) (toLowerCase rest)
  end.

(** [response.ok] *)
Definition response_ok (r : Response) : bool :=
  (200 <=? status r) && (status r <=? 299).

(** [response.headers.get(name)] *)
Definition headers_get (name : string) (r : Response) : option string :=
  snd <$> find (λ kv, String.eqb (fst kv) (toLowerCase name)) (headers r).

(** The conversion of a value to a string inside a template literal, of
    which only the completion is kept (the line written is not recorded).
    An object with an own [toString] property has no string: the property
    is no function (no value here is one), and [valueOf] gives back the
    object itself or is an own property that is no function either, so
    the conversion throws.  An array joins the strings of its elements,
    null and undefined counting as the empty string.  What a map-like
    object or an object with a [toJSON] method prints depends on its
    class. *)
Fixpoint interpolate (v : Value) : Outcome unit :=
  match v with
  | VArray items =>
      (fix join (items : list Value) : Outcome unit :=
         match items with
         | [] => Val tt
         | item :: rest =>
             match item with
             | VUndefined | VNull => join rest
             | _ => written ← interpolate item; join rest
             end
         end) items
  | VObject props =>
      if bool_decide (is_Some (props !! "toString"))
      then Exn (TypeError "Cannot convert object to primitive value")
      else Val tt
  | VMap _ | VJsonable _ _ => Unmodelled
  | _ => Val tt
  end.

Definition standardHeaders : list string :=
  ["brokerproperties"; "location"; "content-type"; "date"; "server";
   "transfer-encoding"; "strict-transport-security"].

Section RestCalls.
Context {W : Type} `{!Rest W}.
(** [JSON.parse]; [None] when it throws a [SyntaxError]. *)
Variable JSON_parse : string → option Value.

Definition St (A : Type) : Type := W → Outcome A * W.

Definition st_bind {A B} (m : St A) (f : A → St B) : St B :=
  λ w, match m w with
       | (Val a, w') => f a w'
       | (Exn e, w') => (Exn e, w')
       | (Unmodelled, w') => (Unmodelled, w')
       end.

Definition st_lift {A} (o : Outcome A) : St A := λ w, (o, w).

Definition st_await {A} (op : W → Answer A * W) : St A :=
  λ w, let '(answer, w') := op w in (settle answer, w').

(** The custom headers, each decoded as JSON when it parses and kept as
    a string when it does not (lines 491-501). *)
Definition userPropertiesOf (r : Response) : gmap string Value :=
  foldl (λ userProperties kv,
           let '(key, value) := kv in
           if bool_decide (toLowerCase key ∈ standardHeaders) then userProperties
           else
             match JSON_parse value with
             | Some parsed => assignProp key parsed userProperties
             | None => assignProp key (VStr value) userProperties
             end)
        ∅ (headers r).

(** What [peekLockMessageRest] does with the response (lines 476-509). *)
Definition peekLockReceipt (response : Response) : Outcome (option RestLockReceipt) :=
  if status response =? 204 then Val None
  else if negb (response_ok response) then
    errorText ← settle (text response);
    Exn (PlainError ("REST API peek-lock failed: " +:+ pretty (status response) +:+ " "
                       +:+ statusText response +:+ " - " +:+ errorText))
  else
    brokerProperties ←
      match nonempty (headers_get "BrokerProperties" response) with
      | Some brokerPropertiesHeader =>
          match JSON_parse brokerPropertiesHeader with
          | Some parsed => Val parsed
          | None => Exn (SyntaxError "Unexpected token in JSON")
          end
      | None => Val (VObject ∅)
      end;
    let location := default "" (headers_get "Location" response) in
    let userProperties := userPropertiesOf response in
    body ← settle (text response);
    (* the log line reads brokerProperties.SequenceNumber and
       brokerProperties.LockToken and writes both into a template literal *)
    if is_nullish brokerProperties then
      Exn (TypeError "Cannot read properties of null (reading 'SequenceNumber')")
    else
      sequenceNumberText ← interpolate (get_prop brokerProperties "SequenceNumber");
      lockTokenText ← interpolate (get_prop brokerProperties "LockToken");
      Val (Some (mkReceipt body brokerProperties userProperties location)).

Definition peekLockMessageRest (namespace dlqPath : string) : St (option RestLockReceipt) :=
  st_bind (st_await (getAuthHeader namespace)) (λ authHeader,
  let url := "https://" +:+ namespace +:+ "/" +:+ dlqPath +:+ "/messages/head" in
  st_bind (st_await (fetch (mkRequest url "POST"
                              [("Authorization", authHeader);
                               ("Content-Type", "application/json")])))
          (λ response, st_lift (peekLockReceipt response))).

End RestCalls.

(** ** A simulated broker

    One dead-letter sub-queue with per-message locks and the origin entity
    behind it, enough to run the service on concrete queues.  [sim_plan]
    scripts the next calls: answered normally, made to throw, or (for a
    receive or a peek) answered with nothing, which is how a
    session-affinitised entity behaves.  The constructors of the library
    accept every connection and are not part of the script. *)

Inductive Behaviour :=
| Normal
| Fail (e : Error)
| Nothing.

Record SimWorld := mkSim {
  sim_deadLetter : list (ServiceBusReceivedMessage * bool);
  sim_origin : list ServiceBusMessage;
  sim_plan : list Behaviour
}.

Definition sim_next (w : SimWorld) : Behaviour * SimWorld :=
  match sim_plan w with
  | [] => (Normal, w)
  | b :: plan => (b, mkSim (sim_deadLetter w) (sim_origin w) plan)
  end.

Definition same_sequence (m m' : ServiceBusReceivedMessage) : bool :=
  bool_decide (sequenceNumber m = sequenceNumber m').

(** Lock the first [n] unlocked messages and hand them out. *)
Fixpoint lock_first (n : nat) (q : list (ServiceBusReceivedMessage * bool))
    : list ServiceBusReceivedMessage * list (ServiceBusReceivedMessage * bool) :=
  match q with
  | [] => ([], [])
  | (m, locked) :: rest =>
      if locked then
        let '(got, q') := lock_first n rest in (got, (m, true) :: q')
      else
        match n with
        | O => ([], q)
        | S n' => let '(got, q') := lock_first n' rest in (m :: got, (m, true) :: q')
        end
  end.

(** Remove the first [n] unlocked messages and hand them out. *)
Fixpoint take_first (n : nat) (q : list (ServiceBusReceivedMessage * bool))
    : list ServiceBusReceivedMessage * list (ServiceBusReceivedMessage * bool) :=
  match q with
  | [] => ([], [])
  | (m, locked) :: rest =>
      if locked then
        let '(got, q') := take_first n rest in (got, (m, true) :: q')
      else
        match n with
        | O => ([], q)
        | S n' => let '(got, q') := take_first n' rest in (m :: got, q')
        end
  end.

Definition holds_lock (m : ServiceBusReceivedMessage)
    (q : list (ServiceBusReceivedMessage * bool)) : bool :=
  existsb (λ e, same_sequence m e.1 && e.2) q.

Definition lockLost : Error := mkError "ServiceBusError" "MessageLockLost".

Definition sim_answer {A} (normal : SimWorld → Answer A * SimWorld)
    (nothing : SimWorld → Answer A * SimWorld) (w : SimWorld) : Answer A * SimWorld :=
  match sim_next w with
  | (Normal, w') => normal w'
  | (Fail e, w') => (Threw e, w')
  | (Nothing, w') => nothing w'
  end.

Definition sim_settle (keep : ServiceBusReceivedMessage * bool → option (ServiceBusReceivedMessage * bool))
    (m : ServiceBusReceivedMessage) (w : SimWorld) : Answer unit * SimWorld :=
  if holds_lock m (sim_deadLetter w) then
    (Returned tt,
     mkSim (omap (λ e, if same_sequence m e.1 && e.2 then keep e else Some e) (sim_deadLetter w))
           (sim_origin w) (sim_plan w))
  else (Threw lockLost, w).

#[global] Instance sim_broker : Broker SimWorld := {
  newServiceBusClient _ w := (Returned tt, w);
  newServiceBusAdministrationClient _ w := (Returned tt, w);
  peekMessages _ n _ :=
    sim_answer (λ w, (Returned (take n (sim_deadLetter w).*1), w)) (λ w, (Returned [], w));
  receiveMessages r n _ :=
    sim_answer
      (λ w, let '(got, q) := match receiver_mode r with
                             | peekLock => lock_first n (sim_deadLetter w)
                             | receiveAndDelete => take_first n (sim_deadLetter w)
                             end in
            (Returned got, mkSim q (sim_origin w) (sim_plan w)))
      (λ w, (Returned [], w));
  abandonMessage _ m :=
    let unlock := sim_settle (λ e, Some (e.1, false)) m in sim_answer unlock unlock;
  completeMessage _ m :=
    let remove := sim_settle (λ _, None) m in sim_answer remove remove;
  sendMessages _ m :=
    let append w := (Returned tt, mkSim (sim_deadLetter w) (sim_origin w ++ [m]) (sim_plan w)) in
    sim_answer append append;
  closeSender _ := sim_answer (λ w, (Returned tt, w)) (λ w, (Returned tt, w));
  closeReceiver _ := sim_answer (λ w, (Returned tt, w)) (λ w, (Returned tt, w))
}.

(** A dead-lettered message with a sequence number, an id and a body. *)
Definition deadLettered (seq : Z) (id : string) (payload : Value) : ServiceBusReceivedMessage :=
  {| body := payload;
     contentType := Some "application/json";
     correlationId := None;
     subject := None;
     sessionId := None;
     messageId := Some id;
     sequenceNumber := Some seq;
     deadLetterReason := Some "MaxDeliveryCountExceeded";
     applicationProperties := VObject {[ "tenant" := VStr "acme" ]} |}.

Definition simulate (w : SimWorld) (message : ServiceBusReceivedMessage)
    : Outcome unit * Run SimWorld :=
  resubmitMessage "ns.servicebus.windows.net" message (Some "orders") None None
                  (mkRun new_service w []).


(** * Vocabulary of the properties *)



(** How a namespace that has no cached client is connected: with its
    registered connection string, or else to its fully-qualified host with
    the credential. *)
Definition connection_of (namespace : string) (this : ServiceBusService) : ClientSpec :=
  match nonempty (connectionStrings this !! namespace) with
  | Some connectionString => FromConnectionString connectionString
  | None => FromCredential (fullyQualified namespace)
  end.

(** What constructing a client for [spec] gives in the world [w]: the next
    client object, or the error of the constructor. *)
Definition construction {W} `{!Broker W} (spec : ClientSpec) (this : ServiceBusService)
    (w : W) : Outcome ServiceBusClient :=
  match (newServiceBusClient spec w).1 with
  | Returned _ => Val (mkClient (constructed this) spec)
  | Threw e => Exn e
  end.

Definition adminConstruction {W} `{!Broker W} (spec : ClientSpec) (this : ServiceBusService)
    (w : W) : Outcome ServiceBusAdministrationClient :=
  match (newServiceBusAdministrationClient spec w).1 with
  | Returned _ => Val (mkAdminClient (constructed this) spec)
  | Threw e => Exn e
  end.

(** The plain data of the design document: strings, numbers, booleans,
    null, binary buffers, arrays of plain data and string-keyed records of
    plain data. *)
Inductive plain : Value → Prop :=
| plain_null : plain VNull
| plain_bool b : plain (VBool b)
| plain_num n : plain (VNum n)
| plain_str s : plain (VStr s)
| plain_buffer bytes : plain (VBuffer bytes)
| plain_array items : Forall plain items → plain (VArray items)
| plain_record props : map_Forall (λ _, plain) props → plain (VObject props).

(** A record that passes neither shape test of the normaliser and has no
    [__proto__] key. *)
Definition ordinary (props : gmap string Value) : Prop :=
  isDatetimeOffset (VObject props) = false
  ∧ isLong (VObject props) = false
  ∧ props !! "__proto__" = None.

(** Plain data in which every record, at any depth, is ordinary. *)
Inductive settled : Value → Prop :=
| settled_null : settled VNull
| settled_bool b : settled (VBool b)
| settled_num n : settled (VNum n)
| settled_str s : settled (VStr s)
| settled_buffer bytes : settled (VBuffer bytes)
| settled_array items : Forall settled items → settled (VArray items)
| settled_record props :
    map_Forall (λ _, settled) props → ordinary props → settled (VObject props).

(** An HTTP endpoint that answers every request with the same response,
    and a [JSON.parse] that knows four documents: the empty object, the
    number 7, null, and an object whose [SequenceNumber] is an object
    with a [toString] member. *)
#[global] Instance canned_rest : Rest Response := {
  getAuthHeader _ w := (Returned "Bearer token", w);
  fetch _ w := (Returned w, w)
}.




(** ** Reading runs

    [emits m Ψ]: whatever the state it starts from, [m] appends some events
    [evs] to the trace and settles with a completion [r] such that
    [Ψ r evs]. *)
Definition emits {W A} (m : M W A) (Ψ : Outcome A → list Event → Prop) : Prop :=
  ∀ s, ∃ evs, run_trace (m s).2 = run_trace s ++ evs ∧ Ψ (m s).1 evs.

(** [m] appends only events of the class [C]. *)
Definition emits_only {W A} (C : Event → Prop) (m : M W A) : Prop :=
  emits m (λ _ evs, Forall C evs).

(** What [try_finally] settles with, from the completions of its body and
    of its cleanup. *)
Definition after_cleanup {A} (body : Outcome A) (cleanup : Outcome unit) : Outcome A :=
  match body, cleanup with
  | Unmodelled, _ => Unmodelled
  | _, Val _ => body
  | _, Exn e => Exn e
  | _, Unmodelled => Unmodelled
  end.

Definition is_completion (e : Event) : Prop :=
  match e with Completed _ _ _ => True | _ => False end.

Definition is_abandon (e : Event) : Prop :=
  match e with Abandoned _ _ _ => True | _ => False end.

Definition is_send (e : Event) : Prop :=
  match e with Sent _ _ _ => True | _ => False end.

Definition is_peek (e : Event) : Prop :=
  match e with Peeked _ _ _ _ => True | _ => False end.

(** A receive on a receiver in the given mode. *)
Definition is_receive (mode : ReceiveMode) (e : Event) : Prop :=
  match e with Received r _ _ _ => receiver_mode r = mode | _ => False end.

(** The closing of a sender or a receiver, and the error it threw. *)
Definition is_close (e : Event) : Prop :=
  match e with SenderClosed _ _ | ReceiverClosed _ _ => True | _ => False end.

Definition close_threw (err : Error) (e : Event) : Prop :=
  match e with
  | SenderClosed _ (Threw err') | ReceiverClosed _ (Threw err') => err' = err
  | _ => False
  end.

(** Every completion in the trace comes after a successful send of the
    copy of the very message that is completed, and is the only
    completion. *)
Definition send_before_complete (tr : list Event) : Prop :=
  ∀ before r m answer after,
    tr = before ++ Completed r m answer :: after →
    (∃ s messageBody convertedAppProps,
        Sent s (lockedCopy m messageBody convertedAppProps) (Returned tt) ∈ before)
    ∧ Forall (λ e, ¬ is_completion e) before
    ∧ Forall (λ e, ¬ is_completion e) after.

(** A property of the appended events that events of the class [C] on
    either side do not disturb. *)
Record neutral (C : Event → Prop) (Ψ : list Event → Prop) : Prop := {
  neutral_only : ∀ evs, Forall C evs → Ψ evs;
  neutral_l : ∀ evs1 evs2, Forall C evs1 → Ψ evs2 → Ψ (evs1 ++ evs2);
  neutral_r : ∀ evs1 evs2, Ψ evs1 → Forall C evs2 → Ψ (evs1 ++ evs2)
}.

(** The two errors with which [resubmitMessage] reports that the target
    is not in the dead-letter queue. *)
Definition noMessagesFound : Error :=
  PlainError "No messages found in dead-letter queue.".
Definition targetNotFound : Error :=
  PlainError "Target message not found in dead-letter queue.".

(** A confirmation peek that returned a batch without the target. *)
Definition peek_without (target : option string) (e : Event) : Prop :=
  match e with
  | Peeked _ _ _ (Returned peeked) => find (matchesTarget target) peeked = None
  | _ => False
  end.

(** The events of a run that stops after the confirmation peek: log
    lines, the peek, and the closing of the sender and the receiver. *)
Definition is_quiet (e : Event) : Prop :=
  match e with
  | Logged _ | Peeked _ _ _ _ | SenderClosed _ _ | ReceiverClosed _ _ => True
  | _ => False
  end.

(** How a run relates to its confirmation peek: either no peek came
    back without the target, or the run stayed quiet and failed, with one
    of the two not-found errors or with the error of a closing. *)
Definition not_found_outcome (target : option string) (r : Outcome unit) (evs : list Event) : Prop :=
  Forall (λ e, ¬ peek_without target e) evs
  ∨ (Forall is_quiet evs
     ∧ ∃ e, r = Exn e ∧ (e = noMessagesFound ∨ e = targetNotFound ∨ Exists (close_threw e) evs)).

(** Three dead-lettered messages and the receiver and sender that
    [simulate] creates. *)
Definition dl41 : ServiceBusReceivedMessage := deadLettered 41 "m0" (VStr "first").
Definition dl42 : ServiceBusReceivedMessage := deadLettered 42 "m1" (VStr "{a:1}").
Definition dl43 : ServiceBusReceivedMessage := deadLettered 43 "m2" (VArray [VNum 1; VNum 2]).

Definition sim_client : ServiceBusClient :=
  mkClient 0 (FromCredential "ns.servicebus.windows.net").
Definition sim_receiver : Receiver := mkReceiver sim_client (QueueEntity "orders") peekLock.
Definition sim_deleteReceiver : Receiver :=
  mkReceiver sim_client (QueueEntity "orders") receiveAndDelete.
Definition sim_sender : Sender := mkSender sim_client "orders".

Definition injected : Error := PlainError "injected fault".

(** The queue of the end-to-end scenario, with a fault injected into the
    sixth broker call of a lock-path run: the [completeMessage] that
    follows the send. *)
Definition faulty_world : SimWorld :=
  mkSim [(dl41, false); (dl42, false); (dl43, false)] []
        [Normal; Normal; Normal; Normal; Normal; Fail injected].

(** The events of a run hold at most one event marked by [P], and when
    they hold one, [Φ] relates the completion, the events before it, the
    event and the events after it. *)
Definition around {A} (P : Event → Prop)
    (Φ : Outcome A → list Event → Event → list Event → Prop)
    (r : Outcome A) (evs : list Event) : Prop :=
  Forall (λ e, ¬ P e) evs
  ∨ ∃ pre x post, evs = pre ++ x :: post ∧ P x
                  ∧ Forall (λ e, ¬ P e) pre ∧ Forall (λ e, ¬ P e) post
                  ∧ Φ r pre x post.

(** A receive that handed back a batch, on a receiver in the given mode. *)
Definition received_batch (mode : ReceiveMode) (e : Event) : Prop :=
  match e with
  | Received r _ _ (Returned _) => receiver_mode r = mode
  | _ => False
  end.

Definition is_warning (e : Event) : Prop :=
  match e with
  | Logged line => starts_with "[ServiceBus] WARNING: " line = true
  | _ => False
  end.

(** What follows the second pass of the peek path: the operation settles
    normally unless a closing throws, whether or not the target was among
    the messages that the pass removed; only the log lines differ. *)
Definition delete_pass_outcome (target : option string)
    (peekedTarget : ServiceBusReceivedMessage)
    (r : Outcome unit) (pre : list Event) (x : Event) (post : list Event) : Prop :=
  (∃ s out, Sent s out (Returned tt) ∈ pre)
  ∧ (r = Val tt ∨ ∃ e, r = Exn e ∧ Exists (close_threw e) post)
  ∧ ∀ r n w deletedMessages, x = Received r n w (Returned deletedMessages) →
      if existsb (matchesDeleted target (messageId peekedTarget)) deletedMessages
      then Logged "[ServiceBus] Target message was deleted from DLQ" ∈ post
           ∧ Forall (λ e, ¬ is_warning e) post
      else Exists is_warning post.

(** The same, for the whole operation: the target of the second pass is
    the first message of the confirmation peek that carries the target's
    sequence number. *)
Definition peek_path_outcome (target : option string)
    (r : Outcome unit) (pre : list Event) (x : Event) (post : list Event) : Prop :=
  ∃ peekedTarget,
    (∃ rp np fp peeked, Peeked rp np fp (Returned peeked) ∈ pre
                        ∧ find (matchesTarget target) peeked = Some peekedTarget)
    ∧ delete_pass_outcome target peekedTarget r pre x post.

(** Two peek-path runs on the queue of the end-to-end scenario.  In both
    the lock-based receive hands back nothing; in the second the
    receive-and-delete pass hands back nothing either. *)
Definition confirmed_world : SimWorld :=
  mkSim [(dl41, false); (dl42, false); (dl43, false)] [] [Normal; Nothing].

Definition unconfirmed_world : SimWorld :=
  mkSim [(dl41, false); (dl42, false); (dl43, false)] []
        [Normal; Nothing; Normal; Normal; Nothing].

(** The message that the loop over a received batch leaves bound: the
    last one with the target's sequence number. *)
Definition lastMatch (target : option string) (messages : list ServiceBusReceivedMessage)
    (bound : option ServiceBusReceivedMessage) : option ServiceBusReceivedMessage :=
  foldl (λ acc m, if matchesTarget target m then Some m else acc) bound messages.

(** What may follow a lock-based receive that handed back [messages]:
    an abandon only on that receiver and only for a message of the batch
    that does not match; a complete only on that receiver and only for the
    message left bound; no further lock-based receive and no peek. *)
Definition after_batch (receiver : Receiver) (target : option string)
    (messages : list ServiceBusReceivedMessage) (e : Event) : Prop :=
  match e with
  | Abandoned r m _ => r = receiver ∧ m ∈ messages ∧ matchesTarget target m = false
  | Completed r m _ => r = receiver ∧ lastMatch target messages None = Some m
  | Received r _ _ _ => receiver_mode r = receiveAndDelete
  | Peeked _ _ _ _ => False
  | _ => True
  end.

Definition nothing_settled (e : Event) : Prop :=
  match e with
  | Abandoned _ _ _ | Completed _ _ _ | Sent _ _ _ => False
  | _ => True
  end.

(** The run around the lock-based receive.  Before it nothing was
    abandoned, sent or completed.  After it every message of the batch
    that does not match has been abandoned, unless an abandon threw, in
    which case the operation fails and neither sends nor completes. *)
Definition batch_outcome (target : option string) (r : Outcome unit)
    (pre : list Event) (x : Event) (post : list Event) : Prop :=
  ∀ receiver n wait messages, x = Received receiver n wait (Returned messages) →
    Forall nothing_settled pre
    ∧ Forall (after_batch receiver target messages) post
    ∧ ((∀ m, m ∈ messages → matchesTarget target m = false →
             Abandoned receiver m (Returned tt) ∈ post)
       ∨ ((∃ m e, Abandoned receiver m (Threw e) ∈ post)
          ∧ (∃ e, r = Exn e)
          ∧ Forall (λ e, ¬ is_send e ∧ ¬ is_completion e) post)).

(** The queue of the end-to-end scenario with a broker that answers every
    call normally. *)
Definition healthy_world : SimWorld :=
  mkSim [(dl41, false); (dl42, false); (dl43, false)] [] [].

(** The lock path: a lock-based receive handed back a batch in which
    [source] was left bound. *)
Definition bound_from_batch (target : option string) (source : ServiceBusReceivedMessage)
    (pre : list Event) : Prop :=
  ∃ receiver n wait batch,
    Received receiver n wait (Returned batch) ∈ pre
    ∧ receiver_mode receiver = peekLock
    ∧ lastMatch target batch None = Some source.

(** The peek path: no receive bound a message, and [source] is the first
    message of the confirmation peek with the target's sequence number. *)
Definition taken_from_peek (target : option string) (source : ServiceBusReceivedMessage)
    (pre : list Event) : Prop :=
  (∀ receiver n wait batch,
      Received receiver n wait (Returned batch) ∈ pre → lastMatch target batch None = None)
  ∧ ∃ receiver n from peeked,
      Peeked receiver n from (Returned peeked) ∈ pre
      ∧ find (matchesTarget target) peeked = Some source.

(** The message of the one send of a run: the copy of the bound message on
    the lock path, of the peeked message on the peek path, with the
    normalised application properties of that source. *)
Definition copy_outcome (target : option string) (r : Outcome unit)
    (pre : list Event) (x : Event) (post : list Event) : Prop :=
  ∀ sender out answer, x = Sent sender out answer →
    ∃ source messageBody convertedAppProps,
      convertToPlainObject (applicationProperties source) = Val convertedAppProps
      ∧ ((bound_from_batch target source pre
          ∧ out = lockedCopy source messageBody convertedAppProps)
         ∨ (taken_from_peek target source pre
            ∧ out = peekedCopy source messageBody convertedAppProps)).

Definition is_log (e : Event) : Prop :=
  match e with Logged _ => True | _ => False end.

(** The abandon calls of a trace with their answers, oldest first. *)
Fixpoint abandons (evs : list Event) : list (ServiceBusReceivedMessage * Answer unit) :=
  match evs with
  | [] => []
  | Abandoned _ m answer :: rest => (m, answer) :: abandons rest
  | _ :: rest => abandons rest
  end.

(** What the loop over a received batch does, from an empty binding:
    it logs, and abandons messages of the batch that do not match, on its
    receiver.  When it returns, the abandon calls are those for the
    messages that do not match, one each, in the order of the batch, all
    accepted, and the message left bound is the last one that matches (one
    is bound as soon as one matches).  When it throws, an abandon threw
    that error: the calls are those for the messages that do not match up
    to the one that was refused, and none for the messages after it. *)
Definition batch_scan (receiver : Receiver) (target : option string)
    (messages : list ServiceBusReceivedMessage)
    (r : Outcome (option ServiceBusReceivedMessage)) (evs : list Event) : Prop :=
  let others := filter (λ m, matchesTarget target m = false) messages in
  Forall (λ e, match e with
               | Logged _ => True
               | Abandoned r' m _ =>
                   r' = receiver ∧ m ∈ messages ∧ matchesTarget target m = false
               | _ => False
               end) evs
  ∧ match r with
    | Val bound =>
        bound = lastMatch target messages None
        ∧ abandons evs = map (λ m, (m, Returned tt)) others
        ∧ (∀ m, bound = Some m → m ∈ messages ∧ matchesTarget target m = true)
        ∧ ((∃ m, m ∈ messages ∧ matchesTarget target m = true) → is_Some bound)
    | Exn e =>
        ∃ done m rest,
          others = done ++ m :: rest
          ∧ abandons evs = map (λ m, (m, Returned tt)) done ++ [(m, Threw e)]
    | Unmodelled => False
    end.

(** The queue of the end-to-end scenario, with a fault injected into the
    third broker call of a run: the first [abandonMessage]. *)
Definition abandon_fails_world : SimWorld :=
  mkSim [(dl41, false); (dl42, false); (dl43, false)] []
        [Normal; Normal; Fail injected].

(** * The other methods of the service *)

(** ** [deleteMessage] *)

Section Delete.
Context {W : Type} `{!Broker W}.

(** The [while] loop of [deleteMessage] (lines 799-823).  [remaining] is
    [maxMessages - processedCount], the number of iterations the loop
    condition still allows; the result is [targetMessage]. *)
Fixpoint deleteScan (receiver : Receiver) (targetSequenceNumber : option string)
    (remaining processedCount : nat) : M W (option ServiceBusReceivedMessage) :=
  match remaining with
  | O => ret None
  | S remaining' =>
      console_log ("[ServiceBus] Receiving messages from DLQ (attempt "
                     +:+ pretty (processedCount + 1)%nat +:+ ")");;
      messages <- call (receiveMessages receiver 1 5000) (Received receiver 1 5000);;
      console_log ("[ServiceBus] Received " +:+ pretty (length messages) +:+ " messages");;
      match messages with
      | [] => ret None
      | msg :: _ =>
          console_log ("[ServiceBus] Checking message with sequenceNumber: "
                         +:+ show (sequenceString msg));;
          if bool_decide (sequenceString msg = targetSequenceNumber) then
            console_log "[ServiceBus] Found target message!";;
            ret (Some msg)
          else
            console_log "[ServiceBus] Not a match, abandoning message";;
            call (abandonMessage receiver msg) (Abandoned receiver msg);;
            deleteScan receiver targetSequenceNumber remaining' (S processedCount)
      end
  end.

Definition deleteMessage (namespace : string) (message : ServiceBusReceivedMessage)
    (queueName topicName subscriptionName : option string) : M W unit :=
  client <- getClient namespace;;
  receiver <- receiverFor client queueName topicName subscriptionName;;
  try_finally
    (let maxMessages := 1000%nat in
     let targetSequenceNumber := sequenceString message in
     console_log ("[ServiceBus] Looking for message to delete with sequenceNumber: "
                    +:+ show targetSequenceNumber);;
     targetMessage <- deleteScan receiver targetSequenceNumber maxMessages 0;;
     match targetMessage with
     | None =>
         throw (PlainError
                  "Message not found in dead-letter queue. It may have already been deleted.")
     | Some targetMessage =>
         console_log "[ServiceBus] Completing (deleting) message from DLQ";;
         call (completeMessage receiver targetMessage) (Completed receiver targetMessage);;
         console_log "[ServiceBus] Delete completed successfully"
     end)
    (call (closeReceiver receiver) (ReceiverClosed receiver)).

End Delete.

(** ** [purgeDeadLetterQueue] and [receiveDeadLetterMessages] *)

Section Purge.
Context {W : Type} `{!Broker W}.

(** The [for] loop over one batch (lines 866-869). *)
Fixpoint completeAll (receiver : Receiver) (messages : list ServiceBusReceivedMessage)
    (totalDeleted : nat) : M W nat :=
  match messages with
  | [] => ret totalDeleted
  | message :: rest =>
      call (completeMessage receiver message) (Completed receiver message);;
      completeAll receiver rest (S totalDeleted)
  end.

(** The [do ... while] loop (lines 864-870).  It goes on for as long as
    the broker hands back messages, so the embedding counts its iterations
    down: when [fuel] runs out the run is cut off, which is [Unmodelled]. *)
Fixpoint purgeLoop (fuel : nat) (receiver : Receiver) (totalDeleted : nat) : M W nat :=
  match fuel with
  | O => lift Unmodelled
  | S fuel' =>
      messages <- call (receiveMessages receiver 100 5000) (Received receiver 100 5000);;
      totalDeleted <- completeAll receiver messages totalDeleted;;
      if (0 <? length messages)%nat then purgeLoop fuel' receiver totalDeleted
      else ret totalDeleted
  end.

Definition purgeDeadLetterQueue (fuel : nat) (namespace : string)
    (queueName topicName subscriptionName : option string) : M W nat :=
  client <- getClient namespace;;
  receiver <- receiverFor client queueName topicName subscriptionName;;
  try_finally
    (purgeLoop fuel receiver 0)
    (call (closeReceiver receiver) (ReceiverClosed receiver)).


End Purge.

(** ** The namespaces of the tree *)

(** [ServiceBusTreeProvider.removeNamespace]: the name is deleted as it
    is given. *)
Definition removeNamespace (namespace : string) (namespaces : gset string) : gset string :=
  namespaces ∖ {[ namespace ]}.

(** ** [dispose] *)

(** Closing a client is the environment's, like every call on the broker. *)
Class ClientCloser (W : Type) := {
  closeClient : ServiceBusClient → W → Answer unit * W
}.

Section Dispose.
Context {W : Type} `{!ClientCloser W}.

(** The [for] loop of [dispose] (lines 879-881), with the [close] calls it
    made and their answers, oldest first. *)
Fixpoint closeClients (values : list ServiceBusClient) (w : W)
    : Outcome unit * W * list (ServiceBusClient * Answer unit) :=
  match values with
  | [] => (Val tt, w, [])
  | client :: rest =>
      match closeClient client w with
      | (Returned _, w') =>
          let '(r, w'', closed) := closeClients rest w' in
          (r, w'', (client, Returned tt) :: closed)
      | (Threw e, w') => (Exn e, w', [(client, Threw e)])
      end
  end.

(** [values] is [this.clients.values()]: the cached clients in the order
    in which they were inserted, which the cache as a finite map does not
    record.  The admin clients are dropped without a call. *)
Definition dispose (values : list ServiceBusClient) (this : ServiceBusService) (w : W)
    : Outcome unit * ServiceBusService * W * list (ServiceBusClient * Answer unit) :=
  match closeClients values w with
  | (Val _, w', closed) =>
      (Val tt, mkService ∅ ∅ (connectionStrings this) (constructed this), w', closed)
  | (r, w', closed) => (r, this, w', closed)
  end.

End Dispose.

(** Clients whose [close] always returns, for examples. *)
Definition closesAll {W : Type} : ClientCloser W :=
  {| closeClient _ w := (Returned tt, w) |}.

(** ** [restoreConnectionStrings] *)

(** The secret storage of the editor is the environment's. *)
Class SecretStorage (W : Type) := {
  secrets_get : string → W → Answer (option string) * W
}.

(** [await] on a call that leaves no event in the trace. *)
Definition await {W A} (op : W → Answer A * W) : M W A :=
  λ s, let '(answer, w) := op (run_world s) in
       (settle answer, mkRun (run_service s) w (run_trace s)).

Definition secretKey (namespace : string) : string :=
  "azureServiceBus.connectionString." +:+ namespace.

Section Restore.
Context {W : Type} `{!SecretStorage W}.

Fixpoint restoreConnectionStrings (namespaces : list string) : M W unit :=
  match namespaces with
  | [] => ret tt
  | namespace :: rest =>
      connectionString <- await (secrets_get (secretKey namespace));;
      match nonempty connectionString with
      | Some connectionString =>
          withService (registerConnectionString connectionString);;
          console_log ("[ServiceBus] Restored connection string for " +:+ namespace)
      | None => ret tt
      end;;
      restoreConnectionStrings rest
  end.

End Restore.

(** A secret storage that answers from a fixed table, for examples. *)
Definition storedSecrets (stored : gmap string string) : SecretStorage unit :=
  {| secrets_get key w := (Returned (stored !! key), w) |}.

(** ** The message panel: [_escapeHtml]

    [text.replace(/c/g, by)] for a one-character pattern. *)

Section Html.
Import Stdlib.Strings.Ascii.

Fixpoint replaceAll (c : Ascii.ascii) (replacement : string) (text : string) : string :=
  match text with
  | EmptyString => EmptyString
  | String a rest =>
      (if Ascii.eqb a c then replacement else String a EmptyString)
        +:+ replaceAll c replacement rest
  end.

Definition escapeHtml (text : string) : string :=
  replaceAll "'"%char "&#039;"
    (replaceAll "034"%char "&quot;"
       (replaceAll ">"%char "&gt;"
          (replaceAll "<"%char "&lt;"
             (replaceAll "&"%char "&amp;" text)))).

End Html.

(** ** Vocabulary for the other methods *)

(** The number of events of a trace that pass a test. *)
Fixpoint count (f : Event → bool) (evs : list Event) : nat :=
  match evs with
  | [] => 0
  | e :: rest => (if f e then 1 else 0) + count f rest
  end.

Definition is_received (e : Event) : bool :=
  match e with Received _ _ _ _ => true | _ => false end.

Definition is_completed (e : Event) : bool :=
  match e with Completed _ _ _ => true | _ => false end.

(** A receive that handed back at least one message. *)
Definition is_fruitful (e : Event) : bool :=
  match e with Received _ _ _ (Returned (_ :: _)) => true | _ => false end.

(** The events of the search loop of [deleteMessage]: log lines, receives
    of one message with a wait of five seconds, and abandons of messages
    that do not carry the target's sequence number. *)
Definition delete_scan_event (receiver : Receiver) (target : option string) (e : Event) : Prop :=
  match e with
  | Logged _ => True
  | Received r n wait _ => r = receiver ∧ n = 1%nat ∧ wait = 5000
  | Abandoned r m _ => r = receiver ∧ matchesTarget target m = false
  | _ => False
  end.

Definition deleteNotFound : Error :=
  PlainError "Message not found in dead-letter queue. It may have already been deleted.".

(** A broker call that threw [err]. *)
Definition call_threw (err : Error) (e : Event) : Prop :=
  match e with
  | Peeked _ _ _ (Threw err') | Received _ _ _ (Threw err')
  | Abandoned _ _ (Threw err') | Completed _ _ (Threw err') | Sent _ _ (Threw err')
  | SenderClosed _ (Threw err') | ReceiverClosed _ (Threw err') => err' = err
  | _ => False
  end.

(** What the search loop of [deleteMessage] leaves behind. *)
Definition delete_scan_outcome (receiver : Receiver) (target : option string) (remaining : nat)
    (r : Outcome (option ServiceBusReceivedMessage)) (evs : list Event) : Prop :=
  Forall (delete_scan_event receiver target) evs
  ∧ (count is_received evs ≤ remaining)%nat
  ∧ (∀ r' n wait m rest, Received r' n wait (Returned (m :: rest)) ∈ evs →
       matchesTarget target m = false → ∃ answer, Abandoned receiver m answer ∈ evs)
  ∧ (∀ r' m answer, Abandoned r' m answer ∈ evs →
       ∃ rest, Received receiver 1 5000 (Returned (m :: rest)) ∈ evs)
  ∧ (∀ r' n wait, Received r' n wait (Returned []) ∈ evs → r = Val None)
  ∧ match r with
    | Val (Some m) =>
        matchesTarget target m = true
        ∧ ∃ rest, Received receiver 1 5000 (Returned (m :: rest)) ∈ evs
    | Val None =>
        Received receiver 1 5000 (Returned []) ∈ evs
        ∨ (count is_received evs = remaining
           ∧ Forall (λ e, ∀ err, ¬ call_threw err e) evs)
    | Exn e => Exists (call_threw e) evs
    | Unmodelled => False
    end.

(** What follows the search in a run of [deleteMessage]: the completion of
    the message it bound, or nothing; with the completion of the [try]
    block. *)
Definition delete_tail (receiver : Receiver)
    (found : Outcome (option ServiceBusReceivedMessage))
    (tail : list Event) (body : Outcome unit) : Prop :=
  match found with
  | Val (Some m) =>
      ∃ answer,
        tail = Logged "[ServiceBus] Completing (deleting) message from DLQ"
               :: Completed receiver m answer
               :: match answer with
                  | Returned _ => [Logged "[ServiceBus] Delete completed successfully"]
                  | Threw _ => []
                  end
        ∧ body = settle answer
  | Val None => tail = [] ∧ body = Exn deleteNotFound
  | Exn e => tail = [] ∧ body = Exn e
  | Unmodelled => False
  end.

(** The shape of a run of [deleteMessage]: either no receiver could be
    made and the run failed having logged at most, or the run is the
    search, what follows it, and the closing of the receiver. *)
Definition delete_outcome (target : option string) (r : Outcome unit) (evs : list Event) : Prop :=
  (Forall is_log evs ∧ ∃ e, r = Exn e)
  ∨ ∃ receiver logs scan found tail body closed,
      evs = logs ++ scan ++ tail ++ [ReceiverClosed receiver closed]
      ∧ Forall is_log logs
      ∧ receiver_mode receiver = peekLock
      ∧ delete_scan_outcome receiver target 1000 found scan
      ∧ delete_tail receiver found tail body
      ∧ r = after_cleanup body (settle closed).

(** A receive or an abandon. *)
Definition is_search (e : Event) : Prop :=
  match e with Received _ _ _ _ | Abandoned _ _ _ => True | _ => False end.

(** The batches that the receives of a trace handed back, oldest first. *)
Fixpoint batches (evs : list Event) : list (list ServiceBusReceivedMessage) :=
  match evs with
  | [] => []
  | Received _ _ _ (Returned messages) :: rest => messages :: batches rest
  | _ :: rest => batches rest
  end.

(** The messages whose completion the broker accepted, oldest first. *)
Fixpoint completions (evs : list Event) : list ServiceBusReceivedMessage :=
  match evs with
  | [] => []
  | Completed _ m (Returned _) :: rest => m :: completions rest
  | _ :: rest => completions rest
  end.

(** A broker call that threw. *)
Definition threw (e : Event) : Prop := ∃ err, call_threw err e.

(** The events of the loop of [purgeDeadLetterQueue]: receives of up to
    100 messages with a wait of five seconds, and completions. *)
Definition purge_event (receiver : Receiver) (e : Event) : Prop :=
  match e with
  | Received r n wait _ => r = receiver ∧ n = 100%nat ∧ wait = 5000
  | Completed r _ _ => r = receiver
  | _ => False
  end.

(** What the loop over one batch leaves behind. *)
Definition complete_all_outcome (receiver : Receiver)
    (messages : list ServiceBusReceivedMessage) (total : nat)
    (r : Outcome nat) (evs : list Event) : Prop :=
  Forall (purge_event receiver) evs
  ∧ batches evs = []
  ∧ count is_fruitful evs = 0%nat
  ∧ completions evs `prefix_of` messages
  ∧ match r with
    | Val n => completions evs = messages ∧ n = (total + length messages)%nat
               ∧ Forall (λ e, ¬ threw e) evs
    | Exn e => Exists (call_threw e) evs
    | Unmodelled => False
    end.

(** What the loop of [purgeDeadLetterQueue] leaves behind: it completes
    the messages it received, in the order it received them; it returns
    after the first empty batch with the number of messages completed; it
    stops at the first call that throws; and it is cut off only after
    [fuel] receives that each handed back messages. *)
Definition purge_loop_outcome (receiver : Receiver) (fuel total : nat)
    (r : Outcome nat) (evs : list Event) : Prop :=
  Forall (purge_event receiver) evs
  ∧ (count is_fruitful evs ≤ fuel)%nat
  ∧ completions evs `prefix_of` concat (batches evs)
  ∧ match r with
    | Val n => n = (total + length (completions evs))%nat
               ∧ completions evs = concat (batches evs)
               ∧ last (batches evs) = Some []
               ∧ Forall (λ e, ¬ threw e) evs
    | Exn e => Exists (call_threw e) evs
    | Unmodelled => count is_fruitful evs = fuel
                    ∧ completions evs = concat (batches evs)
    end.

(** The shape of a run of [purgeDeadLetterQueue]. *)
Definition purge_outcome (fuel : nat) (r : Outcome nat) (evs : list Event) : Prop :=
  (Forall is_log evs ∧ ∃ e, r = Exn e)
  ∨ ∃ receiver logs loop body,
      receiver_mode receiver = peekLock
      ∧ Forall is_log logs
      ∧ purge_loop_outcome receiver fuel 0 body loop
      ∧ ((body = Unmodelled ∧ r = Unmodelled ∧ evs = logs ++ loop)
         ∨ (body ≠ Unmodelled
            ∧ ∃ closed, evs = logs ++ loop ++ [ReceiverClosed receiver closed]
                        ∧ r = after_cleanup body (settle closed))).




(** How the body that is sent relates to the body of its source: it is
    the normalised body when normalising returns, and the body as it was,
    with a line in the log, when normalising throws. *)
Definition body_outcome (source : ServiceBusReceivedMessage) (messageBody : Value)
    (pre : list Event) : Prop :=
  (∀ b, convertToPlainObject (body source) = Val b → messageBody = b)
  ∧ (∀ e, convertToPlainObject (body source) = Exn e →
       messageBody = body source
       ∧ Logged ("[ServiceBus] Could not convert body to JSON, using as-is: "
                   +:+ error_toString e) ∈ pre).

(** The message of the one send of a run, with its body. *)
Definition copy_body_outcome (target : option string) (r : Outcome unit)
    (pre : list Event) (x : Event) (post : list Event) : Prop :=
  ∀ sender out answer, x = Sent sender out answer →
    ∃ source messageBody convertedAppProps,
      body_outcome source messageBody pre
      ∧ ((bound_from_batch target source pre
          ∧ out = lockedCopy source messageBody convertedAppProps)
         ∨ (taken_from_peek target source pre
            ∧ out = peekedCopy source messageBody convertedAppProps)).

(** The depth of nesting of a value. *)
Fixpoint height (v : Value) : nat :=
  match v with
  | VArray items => S (foldr (λ x n, Nat.max (height x) n) 0%nat items)
  | VObject props => S (map_fold (λ _ x n, Nat.max (height x) n) 0%nat props)
  | VMap entries =>
      S (foldr (λ kv n, match kv with (_, x) => Nat.max (height x) n end) 0%nat entries)
  | VJsonable _ json => S (height json)
  | _ => 0%nat
  end.

(** Values the broker client can serialise: no [Date], no map-like object
    and no object with a [toJSON] method at any depth, and no record with
    a [__proto__] key. *)
Inductive normal : Value → Prop :=
| normal_undefined : normal VUndefined
| normal_null : normal VNull
| normal_bool b : normal (VBool b)
| normal_num n : normal (VNum n)
| normal_str s : normal (VStr s)
| normal_buffer bytes : normal (VBuffer bytes)
| normal_array items : Forall normal items → normal (VArray items)
| normal_record props :
    map_Forall (λ _, normal) props → props !! "__proto__" = None → normal (VObject props).

(** The number that a sequence of bytes spells, most significant byte
    first. *)
Definition big_endian (bytes : list Byte.byte) : Z :=
  foldl (λ acc b, acc * 256 + Z.of_N (Byte.to_N b)) 0 bytes.

Section HtmlVocabulary.
Import Stdlib.Strings.Ascii.

(** What a character of the text becomes in the page. *)
Definition entity (c : Ascii.ascii) : string :=
  if Ascii.eqb c "&"%char then "&amp;"
  else if Ascii.eqb c "<"%char then "&lt;"
  else if Ascii.eqb c ">"%char then "&gt;"
  else if Ascii.eqb c "034"%char then "&quot;"
  else if Ascii.eqb c "'"%char then "&#039;"
  else String c EmptyString.

(** The characters with which text could leave its place in the page. *)
Definition markup : list Ascii.ascii := ["<"; ">"; "034"; "'"]%char.

End HtmlVocabulary.

(** * Properties *)

(** ** Strings and the endpoint pattern *)

Lemma app_nil_l (s : string) : "" +:+ s = s.
Proof. reflexivity. Qed.

Lemma app_cons c (a b : string) : String c a +:+ b = String c (a +:+ b).
Proof. reflexivity. Qed.

Lemma strip_prefix_app p s : strip_prefix p (p +:+ s) = Some s.
Proof.
  induction p as [|a p IH]; [done|].
  rewrite ?app_cons; simpl. by rewrite Ascii.eqb_refl.
Qed.


Lemma starts_with_app p s : starts_with p (p +:+ s) = true.
Proof. unfold starts_with. by rewrite strip_prefix_app. Qed.


Lemma includes_unfold needle hay :
  includes needle hay =
    if starts_with needle hay then true
    else match hay with
         | EmptyString => false
         | String _ rest => includes needle rest
         end.
Proof. by destruct hay. Qed.

Lemma includes_app_r needle pre post : includes needle (pre +:+ needle +:+ post) = true.
Proof.
  induction pre as [|c pre IH].
  - by rewrite app_nil_l, includes_unfold, starts_with_app.
  - rewrite app_cons, includes_unfold. by destruct (starts_with needle _).
Qed.










(** ** Registering a connection string *)


(** ** The client cache *)

Lemma fullyQualified_suffixed name :
  fullyQualified (name +:+ namespace_suffix) = name +:+ namespace_suffix.
Proof.
  unfold fullyQualified.
  replace (name +:+ namespace_suffix) with (name +:+ namespace_suffix +:+ "") at 1.
  - by rewrite includes_app_r.
  - f_equal.
Qed.

Lemma fullyQualified_bare name :
  includes namespace_suffix name = false →
  fullyQualified name = fullyQualified (name +:+ namespace_suffix).
Proof.
  intros Hbare. rewrite fullyQualified_suffixed. unfold fullyQualified. by rewrite Hbare.
Qed.

Lemma getClient_cached {W} `{!Broker W} namespace (s : Run W) client :
  clients (run_service s) !! namespace = Some client →
  getClient namespace s = (Val client, s).
Proof.
  destruct s as [this w tr]. cbn [run_service]. intros Hc.
  unfold getClient, bind, withService. cbn [run_service run_world run_trace].
  by rewrite Hc.
Qed.

(** A namespace without a cached client: one line is logged and the
    constructor is called; the client is cached when it returns, and
    nothing is cached when it throws. *)
Lemma getClient_fresh {W} `{!Broker W} namespace (s : Run W) :
  clients (run_service s) !! namespace = None →
  let this := run_service s in
  let spec := connection_of namespace this in
  let client := mkClient (constructed this) spec in
  ∃ line,
    getClient namespace s
    = match newServiceBusClient spec (run_world s) with
      | (Returned _, w) =>
          (Val client,
           mkRun (mkService (<[namespace := client]> (clients this)) (adminClients this)
                            (connectionStrings this) (S (constructed this)))
                 w (run_trace s ++ [Logged line]))
      | (Threw e, w) => (Exn e, mkRun this w (run_trace s ++ [Logged line]))
      end.
Proof.
  destruct s as [this w tr]. cbn [run_service run_world run_trace]. intros Hc.
  unfold getClient, newClient, bind, withService, invoke, console_log, emit, connection_of.
  cbn [run_service run_world run_trace]. rewrite Hc.
  destruct (nonempty (connectionStrings this !! namespace)) as [connectionString|];
    eexists; cbn [run_service run_world run_trace];
    by destruct (newServiceBusClient _ w) as [[[]|e] w'].
Qed.

Lemma getClient_fresh_result {W} `{!Broker W} namespace (s : Run W) :
  clients (run_service s) !! namespace = None →
  (getClient namespace s).1
  = construction (connection_of namespace (run_service s)) (run_service s) (run_world s).
Proof.
  intros Hc. destruct (getClient_fresh namespace s Hc) as [line ->]. unfold construction.
  by destruct (newServiceBusClient _ _) as [[[]|e] w'].
Qed.

(** C8, as the design document states it, fails: asking for the bare name
    and then for the suffixed name builds two clients for the same host and
    leaves two cache entries. *)
Lemma getClient_spellings_distinct :
  let first := getClient "contoso" (mkRun new_service healthy_world []) in
  let second := getClient "contoso.servicebus.windows.net" first.2 in
  ∃ c1 c2, first.1 = Val c1 ∧ second.1 = Val c2
           ∧ c1 ≠ c2
           ∧ client_spec c1 = client_spec c2
           ∧ constructed (run_service second.2) = 2%nat
           ∧ size (clients (run_service second.2)) = 2%nat.
Proof.
  exists (mkClient 0 (FromCredential "contoso.servicebus.windows.net")),
         (mkClient 1 (FromCredential "contoso.servicebus.windows.net")).
  split_and!; by vm_compute.
Qed.

(** C8, amended.  The cache is keyed by the namespace string as it is
    passed.  A request either returns a client, which is then the entry of
    that spelling, or throws the error of the constructor and leaves the
    service as it was.  After a request that returned, a second request
    under the same spelling returns the cached client, constructs nothing
    and leaves the service as it is, while a request under any other
    spelling that has no entry of its own calls the constructor again: it
    returns a fresh client and keeps the first entry, or throws the
    constructor's error and caches nothing.  The bare and the suffixed
    spelling become one key only through the normalisation that the tree
    provider applies before it stores a namespace, and without a
    connection string both are connected to the same fully-qualified
    host. *)
Theorem getClient_keyed_by_spelling {W : Type} `{!Broker W} (namespace : string) (s : Run W) :
  let first := getClient namespace s in
  ((∃ c1, first.1 = Val c1
      ∧ getClient namespace first.2 = (Val c1, first.2)
      ∧ clients (run_service first.2) !! namespace = Some c1
      ∧ (constructed (run_service first.2) ≤ S (constructed (run_service s)))%nat
      ∧ (∀ other, other ≠ namespace → clients (run_service first.2) !! other = None →
           let second := getClient other first.2 in
           second.1 = construction (connection_of other (run_service first.2))
                                   (run_service first.2) (run_world first.2)
           ∧ ((∃ c2, second.1 = Val c2
                 ∧ client_id c2 = constructed (run_service first.2)
                 ∧ client_spec c2 = connection_of other (run_service first.2)
                 ∧ constructed (run_service second.2) = S (constructed (run_service first.2))
                 ∧ clients (run_service second.2) !! namespace = Some c1
                 ∧ clients (run_service second.2) !! other = Some c2)
              ∨ (∃ e, second.1 = Exn e
                   ∧ run_service second.2 = run_service first.2))))
   ∨ (∃ e, first.1 = Exn e
        ∧ clients (run_service s) !! namespace = None
        ∧ construction (connection_of namespace (run_service s)) (run_service s) (run_world s)
          = Exn e
        ∧ run_service first.2 = run_service s))
  ∧ (includes namespace_suffix namespace = false →
       addNamespace namespace ∅ = addNamespace (namespace +:+ namespace_suffix) ∅
       ∧ ∀ this, connectionStrings this !! namespace = None →
                 connectionStrings this !! (namespace +:+ namespace_suffix) = None →
                 connection_of namespace this
                 = connection_of (namespace +:+ namespace_suffix) this).
Proof.
  assert (∀ (s1 : Run W) c, clients (run_service s1) !! namespace = Some c →
            ∀ other, other ≠ namespace → clients (run_service s1) !! other = None →
              let second := getClient other s1 in
              second.1 = construction (connection_of other (run_service s1))
                                      (run_service s1) (run_world s1)
              ∧ ((∃ c2, second.1 = Val c2
                    ∧ client_id c2 = constructed (run_service s1)
                    ∧ client_spec c2 = connection_of other (run_service s1)
                    ∧ constructed (run_service second.2) = S (constructed (run_service s1))
                    ∧ clients (run_service second.2) !! namespace = Some c
                    ∧ clients (run_service second.2) !! other = Some c2)
                 ∨ (∃ e, second.1 = Exn e ∧ run_service second.2 = run_service s1))) as Hother.
  { intros s1 c Hc other Hne Hnone second.
    split; [by apply getClient_fresh_result|]. unfold second.
    destruct (getClient_fresh other s1 Hnone) as [line ->].
    destruct (newServiceBusClient _ _) as [[[]|e] w']; cbn [fst snd run_service].
    - left. eexists. split; [done|]. split_and!; [done..| |]; cbn [clients].
      + by rewrite lookup_insert_ne.
      + by rewrite lookup_insert_eq.
    - right. by exists e. }
  split; [|intros Hbare; split].
  - destruct (clients (run_service s) !! namespace) as [c|] eqn:Hc.
    + left. rewrite (getClient_cached _ _ _ Hc). cbn [fst snd].
      exists c. split_and!; [done|by apply getClient_cached|done|lia|by apply Hother].
    + destruct (getClient_fresh namespace s Hc) as [line Heq].
      destruct (newServiceBusClient (connection_of namespace (run_service s)) (run_world s))
        as [[[]|e] w'] eqn:Hnew; rewrite Heq; cbn [fst snd].
      * left. eexists. split; [done|]. split_and!.
        -- apply getClient_cached. cbn. by rewrite lookup_insert_eq.
        -- cbn. by rewrite lookup_insert_eq.
        -- cbn. lia.
        -- apply Hother. cbn. by rewrite lookup_insert_eq.
      * right. exists e. split_and!; [done..| |done].
        unfold construction. by rewrite Hnew.
  - unfold addNamespace. by rewrite (fullyQualified_bare _ Hbare).
  - intros this H1 H2. unfold connection_of. rewrite H1, H2. cbn.
    by rewrite (fullyQualified_bare _ Hbare).
Qed.

(** ** Numbers *)

Lemma to_double_small z : Z.abs z < 2 ^ 53 → to_double z = Some z.
Proof.
  intros H. unfold to_double. simpl.
  destruct (Z.abs z <? 2 ^ 53) eqn:E; [done|]. apply Z.ltb_ge in E. lia.
Qed.

Lemma js_number_small z : Z.abs z < 2 ^ 53 → js_number z = Val z.
Proof. intros H. unfold js_number. by rewrite to_double_small. Qed.

(** Beyond 53 bits the rounded value keeps the sign and stays beyond 53
    bits. *)
Lemma to_double_large z d :
  2 ^ 53 ≤ Z.abs z → to_double z = Some d →
  (0 < z → 2 ^ 53 ≤ d) ∧ (z < 0 → d ≤ - 2 ^ 53).
Proof.
  intros Hz. unfold to_double. simpl.
  destruct (Z.abs z <? 2 ^ 53) eqn:E; [apply Z.ltb_lt in E; lia|].
  destruct (2 ^ 1024 - 2 ^ 970 <=? Z.abs z); [done|].
  intros [= <-].
  set (a := Z.abs z) in *. set (e := Z.log2 a - 52).
  assert (0 < a) as Ha by lia.
  assert (53 ≤ Z.log2 a) as Hlog by (apply Z.log2_le_pow2; lia).
  assert (1 ≤ e) as He by (unfold e; lia).
  assert (0 < 2 ^ e) as Hpe by (apply Z.pow_pos_nonneg; lia).
  assert (2 ≤ 2 ^ e) as Hpe2.
  { change 2 with (2 ^ 1) at 1. apply Z.pow_le_mono_r; lia. }
  assert (2 ^ 52 ≤ a / 2 ^ e) as Hq.
  { apply Z.div_le_lower_bound; [done|].
    rewrite <- Z.pow_add_r by lia. replace (e + 52) with (Z.log2 a) by (unfold e; lia).
    by apply Z.log2_spec. }
  set (q := a / 2 ^ e) in *.
  assert (∀ q', q ≤ q' → 2 ^ 53 ≤ q' * 2 ^ e) as Hbig.
  { intros q' Hq'. change (2 ^ 53) with (2 ^ 52 * 2). nia. }
  match goal with |- context [Z.sgn z * (?x * _)] => set (q' := x) end.
  assert (q ≤ q') as Hq'.
  { unfold q'. repeat case_match; lia. }
  specialize (Hbig q' Hq').
  split; intros Hs.
  - rewrite Z.sgn_pos by done. lia.
  - rewrite Z.sgn_neg by done. lia.
Qed.

(** A 53-bit integer scaled by 2^32 is a double. *)
Lemma to_double_scaled h : Z.abs h < 2 ^ 53 → to_double (h * 4294967296) = Some (h * 4294967296).
Proof.
  intros Hh. unfold to_double. simpl.
  destruct (Z.abs (h * 4294967296) <? 2 ^ 53) eqn:E; [done|]. apply Z.ltb_ge in E.
  assert (Z.abs (h * 4294967296) = Z.abs h * 2 ^ 32) as Habs by (rewrite Z.abs_mul; done).
  set (a := Z.abs (h * 4294967296)) in *.
  assert (a < 2 ^ 85) as Hlt.
  { rewrite Habs. change (2 ^ 85) with (2 ^ 53 * 2 ^ 32). lia. }
  destruct (2 ^ 1024 - 2 ^ 970 <=? a) eqn:Hover.
  { apply Z.leb_le in Hover. exfalso.
    assert (2 ^ 85 < 2 ^ 1024 - 2 ^ 970) by (by vm_compute). lia. }
  assert (0 < a) as Ha by lia.
  assert (53 ≤ Z.log2 a) as Hlog by (apply Z.log2_le_pow2; lia).
  assert (Z.log2 a < 85) as Hlog' by (apply Z.log2_lt_pow2; lia).
  set (e := Z.log2 a - 52).
  assert (1 ≤ e ≤ 32) as He by (unfold e; lia).
  assert (0 < 2 ^ e) as Hpe by (apply Z.pow_pos_nonneg; lia).
  assert (a = (Z.abs h * 2 ^ (32 - e)) * 2 ^ e) as Hfac.
  { rewrite Habs, <- Z.mul_assoc, <- Z.pow_add_r by lia. do 2 f_equal. lia. }
  assert (a mod 2 ^ e = 0) as Hr by (rewrite Hfac; apply Z.mod_mul; lia).
  assert (a / 2 ^ e * 2 ^ e = a) as Hq.
  { pose proof (Z.div_mod a (2 ^ e)). lia. }
  rewrite Hr.
  assert (0 < 2 ^ (e - 1)) as Hhalf by (apply Z.pow_pos_nonneg; lia).
  destruct (0 <? 2 ^ (e - 1)) eqn:Hlt0; [|apply Z.ltb_ge in Hlt0; lia].
  rewrite Hq. f_equal. unfold a. lia.
Qed.

Lemma js_mul_scaled h : Z.abs h < 2 ^ 53 → js_mul h 4294967296 = Val (h * 4294967296).
Proof. intros H. unfold js_mul, js_number. by rewrite to_double_scaled. Qed.

(** Rounding does not move a number across the bounds of the timestamp
    test, and inside them it changes nothing. *)
Lemma to_double_timestamp n d :
  to_double n = Some d →
  ((1000000000000 <? d) && (d <? 2000000000000))
  = ((1000000000000 <? n) && (n <? 2000000000000))
  ∧ (1000000000000 < n < 2000000000000 → d = n).
Proof.
  intros Hd. destruct (decide (Z.abs n < 2 ^ 53)) as [Hs|Hl].
  - rewrite to_double_small in Hd by done. by injection Hd as <-.
  - assert (2 ^ 53 ≤ Z.abs n) as Hbig by lia.
    destruct (to_double_large n d Hbig Hd) as [Hpos Hneg].
    assert (2000000000000 < 2 ^ 53) as Hc by (by vm_compute).
    split.
    + destruct (decide (0 < n)).
      * assert (2 ^ 53 ≤ d) by auto. assert (2 ^ 53 ≤ n) by lia.
        rewrite !(proj2 (Z.ltb_ge _ 2000000000000)) by lia.
        by rewrite !andb_false_r.
      * assert (n < 0) by lia. assert (d ≤ - 2 ^ 53) by auto.
        by rewrite !(proj2 (Z.ltb_ge 1000000000000 _)) by lia.
    + intros Hin. lia.
Qed.

(** ** Split-word integers *)

Lemma has_prop_lookup k props :
  has_prop k (VObject props) = bool_decide (is_Some (props !! k)).
Proof. done. Qed.

Lemma get_prop_lookup k props v :
  props !! k = Some v → get_prop (VObject props) k = v.
Proof. intros H. unfold get_prop. cbn [own_props]. by rewrite H. Qed.

Lemma toISOString_timestamp n :
  1000000000000 < n < 2000000000000 → toISOString (new_Date n) = Val (format_iso n).
Proof.
  intros Hn. unfold new_Date, toISOString, maxTimeValue.
  destruct (Z.abs n <=? 8640000000000000) eqn:E; [by rewrite E|].
  apply Z.leb_gt in E. lia.
Qed.

(** C3, as the design document states it, fails at the lower bound: the
    split word with value 1_000_000_000_000 lies in the half-open interval
    and comes back as a plain number. *)
Lemma long_at_lower_bound :
  let low := 3567587328 in
  let high := 232 in
  low + high * 2 ^ 32 = 1000000000000
  ∧ convertToPlainObject (VObject {[ "low" := VNum low; "high" := VNum high ]})
    = Val (VNum 1000000000000)
  ∧ convertToPlainObject (VObject {[ "low" := VNum (low + 1); "high" := VNum high ]})
    = Val (VStr "2001-09-09T01:46:40.001Z").
Proof. by vm_compute. Qed.

(** C3, amended.  For an object with numeric [low] and [high], no [type]
    key, that does not pass the datetime-offset test, and whose [high] is a
    53-bit integer, the normaliser forms [n = low + high * 2^32] and
    returns the ISO-8601 string of [n] exactly when [n] lies strictly
    between 1_000_000_000_000 and 2_000_000_000_000; for every other [n],
    both bounds included, it returns [n] as a number (the nearest double,
    which is [n] itself up to 53 bits). *)
Theorem long_conversion (props : gmap string Value) (low high : Z) :
  props !! "low" = Some (VNum low) →
  props !! "high" = Some (VNum high) →
  props !! "type" = None →
  isDatetimeOffset (VObject props) = false →
  Z.abs high < 2 ^ 53 →
  let n := low + high * 2 ^ 32 in
  convertToPlainObject (VObject props)
  = (if (1000000000000 <? n) && (n <? 2000000000000)
     then Val (VStr (format_iso n))
     else VNum <$> js_number n)
  ∧ (Z.abs n < 2 ^ 53 → js_number n = Val n).
Proof.
  intros Hlow Hhigh Htype Hdt Hh n.
  split; [|apply js_number_small].
  cbn [convertToPlainObject]. unfold decodeDatetimeOffset. rewrite Hdt.
  unfold decodeLong, isLong. rewrite !has_prop_lookup, Hlow, Hhigh, Htype.
  rewrite !bool_decide_true by eauto. rewrite bool_decide_false by (by intros [??]).
  cbn [andb negb]. rewrite (get_prop_lookup _ _ _ Hlow), (get_prop_lookup _ _ _ Hhigh).
  rewrite js_mul_scaled by done. cbn [mbind outcome_bind].
  unfold js_add, js_number. change (high * 4294967296) with (high * 2 ^ 32). fold n.
  destruct (to_double n) as [d|] eqn:Hd.
  - destruct (to_double_timestamp n d Hd) as [Htest Hin]. cbn [try_catch mbind outcome_bind].
    rewrite Htest.
    destruct ((1000000000000 <? n) && (n <? 2000000000000)) eqn:Hn; [|done].
    apply andb_prop in Hn as [H1 H2]. apply Z.ltb_lt in H1, H2.
    rewrite Hin by lia. by rewrite toISOString_timestamp by lia.
  - cbn [try_catch mbind outcome_bind fmap outcome_fmap].
    destruct (decide (Z.abs n < 2 ^ 53)) as [Hs|Hl].
    { by rewrite to_double_small in Hd. }
    assert (2000000000000 < 2 ^ 53) as Hc by (by vm_compute).
    destruct (decide (0 < n)).
    + rewrite (proj2 (Z.ltb_ge n 2000000000000)) by lia. by rewrite andb_false_r.
    + by rewrite (proj2 (Z.ltb_ge 1000000000000 n)) by lia.
Qed.

Lemma long_conversion_witness :
  let props : gmap string Value :=
    {[ "low" := VNum 3567587329; "high" := VNum 232; "unsigned" := VBool false ]} in
  let n := 3567587329 + 232 * 2 ^ 32 in
  convertToPlainObject (VObject props)
  = (if (1000000000000 <? n) && (n <? 2000000000000)
     then Val (VStr (format_iso n))
     else VNum <$> js_number n)
  ∧ (Z.abs n < 2 ^ 53 → js_number n = Val n).
Proof.
  intros props n.
  apply (long_conversion props 3567587329 232); [by vm_compute..|].
  by vm_compute.
Defined.

(** ** Idempotence on plain data *)

Lemma settled_ind' (P : Value → Prop) :
  P VNull → (∀ b, P (VBool b)) → (∀ n, P (VNum n)) → (∀ s, P (VStr s)) →
  (∀ bytes, P (VBuffer bytes)) →
  (∀ items, Forall settled items → Forall P items → P (VArray items)) →
  (∀ props, map_Forall (λ _, settled) props → map_Forall (λ _, P) props →
            ordinary props → P (VObject props)) →
  ∀ v, settled v → P v.
Proof.
  intros Hnull Hbool Hnum Hstr Hbuf Harr Hrec. fix IH 2.
  intros v [| | | | |items Hitems|props Hprops Hord]; try done.
  - apply Harr; [done|]. revert items Hitems. fix IHl 2.
    intros items [|x l Hx Hl]; constructor; [by apply IH | by apply IHl].
  - apply Hrec; [done| |done]. intros k x Hk. apply IH, (Hprops k x Hk).
Qed.

Lemma settled_plain v : settled v → plain v.
Proof.
  induction 1 using settled_ind'; try by constructor.
Qed.

Lemma copy_array_id items :
  Forall (λ v, convertToPlainObject v = Val v) items →
  foldr (λ item rest,
           match convertToPlainObject item with
           | Val v => cons v <$> rest
           | Exn e => Exn e
           | Unmodelled => Unmodelled
           end) (Val []) items = Val items.
Proof.
  induction 1 as [|x l Hx _ IH]; [done|].
  cbn [foldr]. by rewrite Hx, IH.
Qed.

Lemma copy_props_id (props : gmap string Value) :
  map_Forall (λ _ v, convertToPlainObject v = Val v) props →
  props !! "__proto__" = None →
  map_fold (λ k v, collectProp k (convertToPlainObject v)) (Val ∅) props = Val props.
Proof.
  apply (map_fold_weak_ind (λ r (m : gmap string Value),
    map_Forall (λ _ v, convertToPlainObject v = Val v) m →
    m !! "__proto__" = None → r = Val m)); [done|].
  intros i x m r Hi IH Hall Hproto.
  apply map_Forall_insert in Hall as [Hx Hm]; [|done].
  assert (i ≠ "__proto__") as Hne by (intros ->; by rewrite lookup_insert_eq in Hproto).
  rewrite lookup_insert_ne in Hproto by done.
  rewrite (IH Hm Hproto), Hx. unfold collectProp, assignProp.
  by rewrite decide_False.
Qed.

(** C7, as the design document states it, fails: a plain record with
    numeric fields [low] and [high] is taken for a split word and comes
    back as a number. *)
Lemma plain_low_high_record_changed :
  let record := VObject {[ "low" := VNum 1; "high" := VNum 2 ]} in
  plain record
  ∧ convertToPlainObject record = Val (VNum 8589934593)
  ∧ convertToPlainObject record ≠ Val record.
Proof.
  split_and!.
  - constructor. apply map_Forall_insert_2; [constructor|].
    apply map_Forall_singleton. constructor.
  - by vm_compute.
  - by vm_compute.
Qed.

(** C7, amended.  The normaliser returns its input unchanged on plain data
    in which no record, at any depth, has both a [low] and a [high] key
    without a [type] key, passes the datetime-offset test, or has a
    [__proto__] key. *)
Theorem convertToPlainObject_settled (v : Value) :
  settled v → convertToPlainObject v = Val v.
Proof.
  induction 1 as [| | | | |items _ IH|props _ IH (Hdt & Hlong & Hproto)] using settled_ind';
    try done.
  - cbn [convertToPlainObject]. by rewrite copy_array_id.
  - cbn [convertToPlainObject]. unfold decodeDatetimeOffset, decodeLong.
    rewrite Hdt, Hlong. by rewrite copy_props_id.
Qed.

Lemma convertToPlainObject_settled_witness :
  convertToPlainObject
    (VObject {[ "id" := VNum 7; "tags" := VArray [VStr "a"; VNull];
                "low" := VNum 1; "type" := VStr "range" ]})
  = Val (VObject {[ "id" := VNum 7; "tags" := VArray [VStr "a"; VNull];
                    "low" := VNum 1; "type" := VStr "range" ]}).
Proof.
  apply convertToPlainObject_settled.
  constructor; [|by vm_compute].
  repeat (apply map_Forall_insert_2; [repeat constructor|]).
  apply map_Forall_empty.
Defined.

(** ** The REST peek-lock *)

(** What the REST peek-lock does once the request has been answered: it
    returns null exactly when the status is 204; on any other status
    outside 200-299 it never returns and, the body text being readable,
    throws an error whose message ends with that text; on any other status
    inside 200-299 it returns the receipt made of the parsed
    [BrokerProperties] header (an empty record when the header is
    missing), the [Location] header and the body text as it was read,
    provided the line it logs can be written: it throws a [TypeError] when
    the header parses to null, and when [SequenceNumber] or [LockToken]
    has no string. *)
Lemma peekLockMessageRest_answers {W : Type} `{!Rest W}
    (JSON_parse : string → option Value) (namespace dlqPath : string)
    (w w1 w2 : W) (authHeader : string) (response : Response) :
  getAuthHeader namespace w = (Returned authHeader, w1) →
  fetch (mkRequest ("https://" +:+ namespace +:+ "/" +:+ dlqPath +:+ "/messages/head") "POST"
           [("Authorization", authHeader); ("Content-Type", "application/json")]) w1
  = (Returned response, w2) →
  let result := (peekLockMessageRest JSON_parse namespace dlqPath w).1 in
  (result = Val None ↔ status response = 204)
  ∧ (status response ≠ 204 → response_ok response = false →
       (∀ receipt, result ≠ Val receipt)
       ∧ ∀ errorText, text response = Returned errorText →
           result = Exn (PlainError ("REST API peek-lock failed: "
                                       +:+ pretty (status response) +:+ " "
                                       +:+ statusText response +:+ " - " +:+ errorText)))
  ∧ (status response ≠ 204 → response_ok response = true →
       ∀ header brokerProperties bodyText,
         headers_get "BrokerProperties" response = Some header → header ≠ "" →
         JSON_parse header = Some brokerProperties →
         text response = Returned bodyText →
         result
         = if is_nullish brokerProperties then
             Exn (TypeError "Cannot read properties of null (reading 'SequenceNumber')")
           else
             sequenceNumberText ← interpolate (get_prop brokerProperties "SequenceNumber");
             lockTokenText ← interpolate (get_prop brokerProperties "LockToken");
             Val (Some {| rest_body := bodyText;
                          rest_brokerProperties := brokerProperties;
                          rest_userProperties := userPropertiesOf JSON_parse response;
                          rest_location := default "" (headers_get "Location" response) |}))
  ∧ (status response ≠ 204 → response_ok response = true →
       ∀ bodyText,
         nonempty (headers_get "BrokerProperties" response) = None →
         text response = Returned bodyText →
         result = Val (Some {| rest_body := bodyText;
                               rest_brokerProperties := VObject ∅;
                               rest_userProperties := userPropertiesOf JSON_parse response;
                               rest_location := default "" (headers_get "Location" response) |})).
Proof.
  intros Hauth Hfetch result.
  assert (result = peekLockReceipt JSON_parse response) as ->.
  { unfold result, peekLockMessageRest, st_bind, st_lift, st_await.
    rewrite Hauth. cbn [settle]. by rewrite Hfetch. }
  unfold peekLockReceipt. split_and!.
  - destruct (status response =? 204) eqn:E.
    { apply Z.eqb_eq in E. done. }
    apply Z.eqb_neq in E. split; [|done].
    destruct (response_ok response); cbn [negb].
    + destruct (nonempty _) as [h|]; [destruct (JSON_parse h) as [parsed|]|];
        cbn [mbind outcome_bind]; destruct (text response); cbn [mbind outcome_bind];
        try done.
      destruct (is_nullish parsed); [done|].
      destruct (interpolate (get_prop parsed "SequenceNumber")) as [[]| |];
        cbn [mbind outcome_bind]; [|done..].
      by destruct (interpolate (get_prop parsed "LockToken")) as [[]| |].
    + by destruct (text response).
  - intros Hs Hok. rewrite (proj2 (Z.eqb_neq _ _) Hs), Hok. cbn [negb]. split.
    + intros receipt. by destruct (text response).
    + by intros errorText ->.
  - intros Hs Hok header brokerProperties bodyText Hh Hne Hparse Htext.
    rewrite (proj2 (Z.eqb_neq _ _) Hs), Hok, Hh. cbn [negb].
    destruct header; [done|]. cbn [nonempty]. by rewrite Hparse, Htext.
  - intros Hs Hok bodyText Hnone Htext.
    rewrite (proj2 (Z.eqb_neq _ _) Hs), Hok, Hnone, Htext. cbn [negb mbind outcome_bind].
    unfold get_prop. cbn [own_props is_nullish]. by rewrite !lookup_empty.
Qed.


(** ** Rules for runs *)

Section Rules.
Context {W : Type}.
Implicit Types (evs : list Event) (s : Run W).

Lemma emits_ret {A} (a : A) (Ψ : Outcome A → list Event → Prop) :
  Ψ (Val a) [] → emits (W:=W) (ret a) Ψ.
Proof. intros H s. exists []. by rewrite app_nil_r. Qed.

Lemma emits_throw {A} (e : Error) (Ψ : Outcome A → list Event → Prop) :
  Ψ (Exn e) [] → emits (W:=W) (throw e) Ψ.
Proof. intros H s. exists []. by rewrite app_nil_r. Qed.

Lemma emits_lift {A} (o : Outcome A) (Ψ : Outcome A → list Event → Prop) :
  Ψ o [] → emits (W:=W) (lift o) Ψ.
Proof. intros H s. exists []. by rewrite app_nil_r. Qed.

Lemma emits_emit (e : Event) (Ψ : Outcome unit → list Event → Prop) :
  Ψ (Val tt) [e] → emits (W:=W) (emit e) Ψ.
Proof. intros H s. by exists [e]. Qed.

Lemma emits_log (line : string) (Ψ : Outcome unit → list Event → Prop) :
  Ψ (Val tt) [Logged line] → emits (W:=W) (console_log line) Ψ.
Proof. apply emits_emit. Qed.

Lemma emits_call {A} (op : W → Answer A * W) (ev : Answer A → Event)
    (Ψ : Outcome A → list Event → Prop) :
  (∀ answer, Ψ (settle answer) [ev answer]) → emits (call op ev) Ψ.
Proof.
  intros H s. unfold call. destruct (op (run_world s)) as [answer w].
  exists [ev answer]. simpl. auto.
Qed.

Lemma emits_invoke {A} (op : W → Answer A * W) (Ψ : Outcome A → list Event → Prop) :
  (∀ answer, Ψ (settle answer) []) → emits (invoke op) Ψ.
Proof.
  intros H s. unfold invoke. destruct (op (run_world s)) as [answer w].
  exists []. simpl. by rewrite app_nil_r.
Qed.

Lemma emits_withService {A} (f : ServiceBusService → A * ServiceBusService)
    (Ψ : Outcome A → list Event → Prop) :
  (∀ a, Ψ (Val a) []) → emits (W:=W) (withService f) Ψ.
Proof.
  intros H s. unfold withService. destruct (f (run_service s)) as [a svc].
  exists []. simpl. by rewrite app_nil_r.
Qed.

Lemma emits_bind {A B} (m : M W A) (f : A → M W B)
    (Ψ1 : Outcome A → list Event → Prop) (Ψ : Outcome B → list Event → Prop) :
  emits m Ψ1 →
  (∀ a evs1, Ψ1 (Val a) evs1 → emits (f a) (λ r evs2, Ψ r (evs1 ++ evs2))) →
  (∀ e evs, Ψ1 (Exn e) evs → Ψ (Exn e) evs) →
  (∀ evs, Ψ1 Unmodelled evs → Ψ Unmodelled evs) →
  emits (bind m f) Ψ.
Proof.
  intros Hm Hf Hexn Hun s. unfold bind.
  destruct (Hm s) as (evs1 & Htr & H1).
  destruct (m s) as [[a|e|] s1]; simpl in *.
  - destruct (Hf a evs1 H1 s1) as (evs2 & Htr2 & H2).
    exists (evs1 ++ evs2). by rewrite Htr2, Htr, app_assoc.
  - exists evs1. auto.
  - exists evs1. auto.
Qed.

Lemma emits_try_finally {A} (body : M W A) (cleanup : M W unit)
    (Ψ1 : Outcome A → list Event → Prop) (Ψ : Outcome A → list Event → Prop) :
  emits body Ψ1 →
  (∀ r evs1, r ≠ Unmodelled → Ψ1 r evs1 →
     emits cleanup (λ rc evs2, Ψ (after_cleanup r rc) (evs1 ++ evs2))) →
  (∀ evs, Ψ1 Unmodelled evs → Ψ Unmodelled evs) →
  emits (try_finally body cleanup) Ψ.
Proof.
  intros Hb Hc Hun s. unfold try_finally.
  destruct (Hb s) as (evs1 & Htr & H1).
  destruct (body s) as [r s1]; simpl in *.
  destruct r as [a|e|].
  - destruct (Hc (Val a) evs1 ltac:(done) H1 s1) as (evs2 & Htr2 & H2).
    exists (evs1 ++ evs2). rewrite app_assoc, <- Htr.
    destruct (cleanup s1) as [[[]|e'|] s2]; simpl in *; by rewrite Htr2.
  - destruct (Hc (Exn e) evs1 ltac:(done) H1 s1) as (evs2 & Htr2 & H2).
    exists (evs1 ++ evs2). rewrite app_assoc, <- Htr.
    destruct (cleanup s1) as [[[]|e'|] s2]; simpl in *; by rewrite Htr2.
  - exists evs1. auto.
Qed.

Lemma emits_conseq {A} (m : M W A) (Ψ1 Ψ2 : Outcome A → list Event → Prop) :
  emits m Ψ1 → (∀ r evs, Ψ1 r evs → Ψ2 r evs) → emits m Ψ2.
Proof. intros Hm H s. destruct (Hm s) as (evs & ? & ?). exists evs. auto. Qed.

Lemma emits_and {A} (m : M W A) (Ψ1 Ψ2 : Outcome A → list Event → Prop) :
  emits m Ψ1 → emits m Ψ2 → emits m (λ r evs, Ψ1 r evs ∧ Ψ2 r evs).
Proof.
  intros H1 H2 s. destruct (H1 s) as (evs & Htr & ?), (H2 s) as (evs' & Htr' & ?).
  rewrite Htr in Htr'. apply app_inv_head in Htr' as <-. by exists evs.
Qed.

(** The events appended by a run that starts with an empty trace are its
    trace. *)
Lemma emits_run {A} (m : M W A) (Ψ : Outcome A → list Event → Prop) svc (w : W) :
  emits m Ψ → Ψ (m (mkRun svc w [])).1 (run_trace (m (mkRun svc w [])).2).
Proof. intros H. destruct (H (mkRun svc w [])) as (evs & -> & ?). done. Qed.

(** *** Runs that append only events of one class *)

Lemma only_ret {A} C (a : A) : emits_only (W:=W) C (ret a).
Proof. by apply emits_ret. Qed.

Lemma only_throw {A} C e : emits_only (W:=W) (A:=A) C (throw e).
Proof. by apply emits_throw. Qed.

Lemma only_lift {A} C (o : Outcome A) : emits_only (W:=W) C (lift o).
Proof. by apply emits_lift. Qed.

Lemma only_log C line : C (Logged line) → emits_only (W:=W) C (console_log line).
Proof. intros H. apply emits_log. by repeat constructor. Qed.

Lemma only_call {A} C (op : W → Answer A * W) ev :
  (∀ answer, C (ev answer)) → emits_only C (call op ev).
Proof. intros H. apply emits_call. intros answer. by repeat constructor. Qed.

Lemma only_invoke {A} C (op : W → Answer A * W) : emits_only C (invoke op).
Proof. by apply emits_invoke. Qed.

Lemma only_withService {A} C (f : ServiceBusService → A * ServiceBusService) :
  emits_only (W:=W) C (withService f).
Proof. by apply emits_withService. Qed.

Lemma only_bind {A B} C (m : M W A) (f : A → M W B) :
  emits_only C m → (∀ a, emits_only C (f a)) → emits_only C (bind m f).
Proof.
  intros Hm Hf. eapply emits_bind; [exact Hm| |done..].
  intros a evs1 H1. eapply emits_conseq; [apply Hf|].
  intros r evs2 H2. by apply Forall_app.
Qed.

Lemma only_try_finally {A} C (body : M W A) (cleanup : M W unit) :
  emits_only C body → emits_only C cleanup → emits_only C (try_finally body cleanup).
Proof.
  intros Hb Hc. eapply emits_try_finally; [exact Hb| |done].
  intros r evs1 _ H1. eapply emits_conseq; [apply Hc|].
  intros rc evs2 H2. by apply Forall_app.
Qed.

Lemma emits_of_only {A} (C : Event → Prop) (m : M W A)
    (Ψ : Outcome A → list Event → Prop) :
  emits_only C m → (∀ r evs, Forall C evs → Ψ r evs) → emits m Ψ.
Proof. intros Hm H. eapply emits_conseq; [exact Hm|]. done. Qed.

Lemma only_weaken {A} (C C' : Event → Prop) (m : M W A) :
  (∀ e, C e → C' e) → emits_only C m → emits_only C' m.
Proof.
  intros H Hm. eapply emits_conseq; [exact Hm|].
  intros r evs Hevs. simpl in *. by eapply Forall_impl.
Qed.

End Rules.

Ltac only_step :=
  lazymatch goal with
  | |- emits_only _ (bind _ _) => apply only_bind; [|intros ?]
  | |- emits_only _ (ret _) => apply only_ret
  | |- emits_only _ (throw _) => apply only_throw
  | |- emits_only _ (lift _) => apply only_lift
  | |- emits_only _ (console_log _) => apply only_log; simpl; try tauto
  | |- emits_only _ (call _ _) => apply only_call; intros ?; simpl; try tauto
  | |- emits_only _ (invoke _) => apply only_invoke
  | |- emits_only _ (withService _) => apply only_withService
  | |- emits_only _ (try_finally _ _) => apply only_try_finally
  | |- emits_only _ (if ?b then _ else _) => destruct b
  | |- emits_only _ (match ?x with _ => _ end) => destruct x
  | |- emits_only _ (let _ := _ in _) => cbv zeta
  end.

Ltac only_auto := repeat only_step.

Section Blocks.
Context {W : Type} `{!Broker W}.
Variable C : Event → Prop.

Lemma getClient_only namespace :
  (∀ line, C (Logged line)) → emits_only C (getClient (W:=W) namespace).
Proof. intros Hlog. unfold getClient, newClient. only_auto; auto. Qed.

Lemma convertBody_only messageBody :
  (∀ line, C (Logged line)) → emits_only C (convertBody (W:=W) messageBody).
Proof. intros Hlog. unfold convertBody. only_auto; auto. Qed.

Lemma scanReceived_only receiver target messages targetMessage :
  (∀ line, C (Logged line)) →
  (∀ m answer, C (Abandoned receiver m answer)) →
  emits_only C (scanReceived receiver target messages targetMessage).
Proof.
  intros Hlog Hab. revert targetMessage.
  induction messages as [|msg rest IH]; intros targetMessage; cbn [scanReceived].
  - apply only_ret.
  - only_auto; auto.
Qed.

Lemma senderFor_only client queueName topicName :
  emits_only C (senderFor (W:=W) client queueName topicName).
Proof. unfold senderFor. only_auto. Qed.

Lemma receiverFor_only client queueName topicName subscriptionName :
  emits_only C (receiverFor (W:=W) client queueName topicName subscriptionName).
Proof. unfold receiverFor. only_auto. Qed.

Lemma relocateFromPeek_only client sender receiver queueName topicName subscriptionName
    target peekedTarget :
  (∀ line, C (Logged line)) →
  (∀ m answer, C (Sent sender m answer)) →
  (∀ r answer, C (ReceiverClosed r answer)) →
  (∀ r n w answer, receiver_mode r = receiveAndDelete → C (Received r n w answer)) →
  emits_only C (relocateFromPeek client sender receiver queueName topicName subscriptionName
                                 target peekedTarget).
Proof.
  intros Hlog Hsent Hclosed Hreceived. unfold relocateFromPeek.
  only_auto; auto using convertBody_only.
  apply Hreceived. unfold deleteReceiverFor. by destruct (nonempty queueName).
Qed.

Lemma relocateLocked_only sender receiver targetMessage :
  (∀ line, C (Logged line)) →
  (∀ m answer, C (Sent sender m answer)) →
  (∀ answer, C (Completed receiver targetMessage answer)) →
  emits_only C (relocateLocked (W:=W) sender receiver targetMessage).
Proof.
  intros Hlog Hsent Hcompleted. unfold relocateLocked.
  only_auto; auto using convertBody_only.
Qed.

End Blocks.

Section Walk.
Context {W : Type}.

(** Derived rules for walking through a sequence with the events
    accumulated so far on the left. *)
Lemma emits_bind_only {A B} (C : Event → Prop) (m : M W A) (f : A → M W B)
    (Ψ : Outcome B → list Event → Prop) :
  emits_only C m →
  (∀ a evs1, Forall C evs1 → emits (f a) (λ r evs2, Ψ r (evs1 ++ evs2))) →
  (∀ e evs, Forall C evs → Ψ (Exn e) evs) →
  (∀ evs, Forall C evs → Ψ Unmodelled evs) →
  emits (bind m f) Ψ.
Proof. intros Hm Hf Hexn Hun. by eapply emits_bind. Qed.

Lemma emits_bind_log {B} line (k : M W B) (Ψ : Outcome B → list Event → Prop) :
  emits k (λ r evs, Ψ r (Logged line :: evs)) →
  emits (bind (console_log line) (λ _, k)) Ψ.
Proof.
  intros Hk. eapply emits_bind; [apply emits_log| | |].
  - instantiate (1 := λ r evs, r = Val tt ∧ evs = [Logged line]). done.
  - by intros [] evs1 [_ ->].
  - by intros e evs [? _].
  - by intros evs [? _].
Qed.

Lemma emits_bind_call {A B} (op : W → Answer A * W) (ev : Answer A → Event)
    (f : A → M W B) (Ψ : Outcome B → list Event → Prop) :
  (∀ a, emits (f a) (λ r evs, Ψ r (ev (Returned a) :: evs))) →
  (∀ e, Ψ (Exn e) [ev (Threw e)]) →
  emits (bind (call op ev) f) Ψ.
Proof.
  intros Hf Hexn. eapply emits_bind; [apply emits_call| | |].
  - instantiate (1 := λ r evs, ∃ answer, r = settle answer ∧ evs = [ev answer]).
    intros answer. by exists answer.
  - intros a evs1 ([a'|e] & [= <-] & ->). apply Hf.
  - intros e evs ([a'|e'] & [= <-] & ->). apply Hexn.
  - by intros evs ([a'|e'] & ? & _).
Qed.

Lemma emits_bind_lift {A B} (o : Outcome A) (f : A → M W B)
    (Ψ : Outcome B → list Event → Prop) :
  (∀ a, o = Val a → emits (f a) Ψ) →
  (∀ e, o = Exn e → Ψ (Exn e) []) →
  (o = Unmodelled → Ψ Unmodelled []) →
  emits (bind (lift o) f) Ψ.
Proof.
  intros Hf Hexn Hun. eapply emits_bind; [apply emits_lift| | |].
  - instantiate (1 := λ r evs, r = o ∧ evs = []). done.
  - intros a evs1 [<- ->]. by apply Hf.
  - intros e evs [<- ->]. by apply Hexn.
  - intros evs [<- ->]. by apply Hun.
Qed.

Lemma neutral_block {A} C Ψ (m : M W A) :
  neutral C Ψ → emits_only C m → emits m (λ _, Ψ).
Proof.
  intros HN Hm. eapply emits_conseq; [exact Hm|].
  intros r evs. apply (neutral_only _ _ HN).
Qed.

Lemma neutral_bind {A B} C Ψ (m : M W A) (f : A → M W B) :
  neutral C Ψ → emits_only C m → (∀ a, emits (f a) (λ _, Ψ)) →
  emits (bind m f) (λ _, Ψ).
Proof.
  intros HN Hm Hf. eapply emits_bind_only; [exact Hm| |intros ?..].
  - intros a evs1 H1. eapply emits_conseq; [apply Hf|].
    intros r evs2. by apply (neutral_l _ _ HN).
  - apply (neutral_only _ _ HN).
  - apply (neutral_only _ _ HN).
Qed.

Lemma neutral_try_finally {A} C Ψ (body : M W A) (cleanup : M W unit) :
  neutral C Ψ → emits body (λ _, Ψ) → emits_only C cleanup →
  emits (try_finally body cleanup) (λ _, Ψ).
Proof.
  intros HN Hb Hc. eapply emits_try_finally; [exact Hb| |done].
  intros r evs1 _ H1. eapply emits_conseq; [exact Hc|].
  intros rc evs2 H2. by apply (neutral_r _ _ HN).
Qed.

End Walk.

(** ** Send before complete *)

(** A list with one marked element splits around it in one way only. *)
Lemma split_unique {A} (P : A → Prop) (pre post before after : list A) (x y : A) :
  Forall (λ e, ¬ P e) pre → Forall (λ e, ¬ P e) post → P y →
  pre ++ x :: post = before ++ y :: after →
  before = pre ∧ y = x ∧ after = post.
Proof.
  revert before. induction pre as [|p pre IH]; intros before Hpre Hpost Hy Heq.
  - destruct before as [|b before]; simpl in Heq.
    + by injection Heq as -> ->.
    + injection Heq as -> ->. exfalso.
      apply Forall_app in Hpost as [_ Hpost].
      by apply Forall_cons in Hpost as [? _].
  - apply Forall_cons in Hpre as [Hp Hpre].
    destruct before as [|b before]; simpl in Heq.
    + injection Heq as -> _. done.
    + injection Heq as -> Heq.
      destruct (IH before Hpre Hpost Hy Heq) as (-> & -> & ->); done.
Qed.

Lemma sbc_intro tr pre post r m answer s messageBody convertedAppProps :
  tr = pre ++ Completed r m answer :: post →
  Forall (λ e, ¬ is_completion e) pre →
  Sent s (lockedCopy m messageBody convertedAppProps) (Returned tt) ∈ pre →
  Forall (λ e, ¬ is_completion e) post →
  send_before_complete tr.
Proof.
  intros -> Hpre Hsent Hpost before r' m' answer' after Heq.
  destruct (split_unique is_completion pre post before after (Completed r m answer)
              (Completed r' m' answer') Hpre Hpost I Heq) as (-> & [= -> -> ->] & ->).
  eauto 10.
Qed.

Lemma sbc_neutral : neutral (λ e, ¬ is_completion e) send_before_complete.
Proof.
  split.
  - intros evs Hevs before r m answer after ->.
    apply Forall_app in Hevs as [_ Hevs]. by apply Forall_cons in Hevs as [[] _].
  - intros evs1 evs2 H1 H2 before r m answer after Heq.
    apply app_eq_inv in Heq as [(k & -> & Hk)|(k & -> & Hk)].
    + apply Forall_app in H1 as [_ H1].
      destruct k as [|x k]; simpl in Hk.
      * destruct (H2 [] r m answer after (eq_sym Hk)) as ((?&?&?&Hin)&_).
        by apply elem_of_nil in Hin.
      * injection Hk as <- _. by apply Forall_cons in H1 as [[] _].
    + destruct (H2 _ _ _ _ _ Hk) as ((s & b & p & Hin) & Hb & Ha).
      split_and!; [|by apply Forall_app|done].
      exists s, b, p. apply elem_of_app. by right.
  - intros evs1 evs2 H1 H2 before r m answer after Heq.
    apply app_eq_inv in Heq as [(k & Hk1 & Hk2)|(k & _ & Hk)].
    + destruct k as [|x k]; simpl in Hk2.
      * subst evs2. by apply Forall_cons in H2 as [[] _].
      * injection Hk2 as <- ->.
        destruct (H1 _ _ _ _ _ Hk1) as (Hs & Hb & Ha).
        split_and!; [done..|]. by apply Forall_app.
    + subst evs2. apply Forall_app in H2 as [_ H2].
      by apply Forall_cons in H2 as [[] _].
Qed.

Ltac only_block :=
  first [ apply getClient_only | apply scanReceived_only | apply convertBody_only
        | apply senderFor_only
        | apply receiverFor_only | apply relocateFromPeek_only | apply relocateLocked_only ];
  intros; simpl; try tauto.

Ltac only_solve := repeat first [only_step | only_block].

(** Walk through a sequence whose blocks are neutral for the property. *)
Ltac neutral_step HN :=
  lazymatch goal with
  | |- emits (bind _ _) _ =>
      eapply (neutral_bind _ _ _ _ HN); [solve [only_solve] | intros ?]
  | |- emits (try_finally _ _) _ =>
      eapply (neutral_try_finally _ _ _ _ HN); [|solve [only_solve]]
  | |- emits (if ?b then _ else _) _ => destruct b
  | |- emits (match ?x with _ => _ end) _ => destruct x
  | |- emits (let _ := _ in _) _ => cbv zeta
  end.

Section SendBeforeComplete.
Context {W : Type} `{!Broker W}.

Lemma relocateLocked_sbc sender receiver targetMessage :
  emits (relocateLocked (W:=W) sender receiver targetMessage)
        (λ _, send_before_complete).
Proof.
  unfold relocateLocked.
  eapply (emits_bind_only (λ e, ¬ is_completion e)); [solve [only_solve]| |intros ?..];
    [|apply sbc_neutral..].
  intros messageBody evs1 H1.
  apply emits_bind_lift; [intros convertedAppProps _|intros e _|intros _];
    [|rewrite app_nil_r; by apply sbc_neutral..].
  apply emits_bind_log. cbv zeta.
  apply emits_bind_call; [intros []|intros e]; cycle 1.
  { apply sbc_neutral. apply Forall_app. split; [done|]. repeat constructor; simpl; tauto. }
  apply emits_bind_log, emits_bind_call; [intros []|intros e].
  - apply emits_log.
    eapply (sbc_intro _ (evs1 ++ [_; _; _]) [_]);
      [by rewrite <- app_assoc| | |].
    + apply Forall_app. split; [done|]. repeat constructor; simpl; tauto.
    + apply elem_of_app. right. apply elem_of_cons. right. apply elem_of_cons. by left.
    + repeat constructor; simpl; tauto.
  - eapply (sbc_intro _ (evs1 ++ [_; _; _]) []);
      [by rewrite <- app_assoc| | |].
    + apply Forall_app. split; [done|]. repeat constructor; simpl; tauto.
    + apply elem_of_app. right. apply elem_of_cons. right. apply elem_of_cons. by left.
    + constructor.
Qed.

Lemma resubmitMessage_sbc namespace message queueName topicName subscriptionName :
  emits (resubmitMessage (W:=W) namespace message queueName topicName subscriptionName)
        (λ _, send_before_complete).
Proof.
  unfold resubmitMessage.
  repeat neutral_step sbc_neutral.
  all: try (apply (neutral_block _ _ _ sbc_neutral); solve [only_solve]).
  apply relocateLocked_sbc.
Qed.

End SendBeforeComplete.

(** ** The confirmation peek *)

Lemma silent_nil {A} (l : list A) : Forall (λ _, False) l → l = [].
Proof. by destruct 1. Qed.

Section ConfirmationPeek.
Context {W : Type} `{!Broker W}.

(** The [finally] block: only closings, and an error only from one of
    them. *)
Lemma cleanup_closes (sender : Sender) (receiver : Receiver) :
  emits (W:=W)
        (call (closeSender sender) (SenderClosed sender);;
         call (closeReceiver receiver) (ReceiverClosed receiver))%js
        (λ rc evs, Forall is_close evs ∧ rc ≠ Unmodelled
                   ∧ ∀ e, rc = Exn e → Exists (close_threw e) evs).
Proof.
  apply emits_bind_call; [intros []|intros e].
  - apply emits_call. intros [[]|e]; simpl; split_and!; try done.
    + by repeat constructor.
    + by repeat constructor.
    + intros ? [= <-]. apply Exists_cons. right. by apply Exists_cons; left.
  - split_and!; [by repeat constructor|done|].
    intros ? [= <-]. by apply Exists_cons; left.
Qed.

Lemma resubmitMessage_not_found namespace message queueName topicName subscriptionName :
  emits (resubmitMessage (W:=W) namespace message queueName topicName subscriptionName)
        (not_found_outcome (sequenceString message)).
Proof.
  set (target := sequenceString message).
  assert (∀ r evs, Forall (λ _ : Event, False) evs → not_found_outcome target r evs) as Hsilent.
  { intros r evs ->%silent_nil. by left. }
  unfold resubmitMessage.
  eapply (emits_bind_only is_log); [by apply getClient_only| |intros; left..].
  2,3: eapply Forall_impl; [eassumption|]; intros []; simpl; tauto.
  intros client evs0 H0.
  eapply (emits_conseq _ (not_found_outcome target)); cycle 1.
  { intros r evs [Hnone|(Hquiet & e & Hr & He)]; [left|right].
    - apply Forall_app. split; [|done].
      eapply Forall_impl; [exact H0|]. intros []; simpl; tauto.
    - split.
      { apply Forall_app. split; [|done].
        eapply Forall_impl; [exact H0|]. intros []; simpl; tauto. }
      exists e. split; [done|]. destruct He as [?|[?|?]]; auto.
      right. right. apply Exists_app. by right. }
  eapply (emits_bind_only (λ _, False)); [solve [only_solve]| |by auto..].
  intros sender ? ->%silent_nil.
  eapply (emits_bind_only (λ _, False)); [solve [only_solve]| |by auto..].
  intros receiver ? ->%silent_nil. cbn [app].
  eapply emits_try_finally.
  - cbv zeta. fold target.
    apply emits_bind_log, emits_bind_call; [intros peekedMessages|intros e].
    + apply emits_bind_log.
      instantiate (1 := λ r evs,
        Forall (λ e, ¬ peek_without target e) evs
        ∨ (Forall is_quiet evs ∧ (r = Exn noMessagesFound ∨ r = Exn targetNotFound))).
      destruct (length peekedMessages =? 0)%nat.
      { apply emits_throw. right. split; [by repeat constructor|by left]. }
      destruct (find (matchesTarget target) peekedMessages) as [peekedTarget|] eqn:Hfind.
      * eapply (emits_of_only (λ e, ¬ is_peek e)); [solve [only_solve]|].
        intros r evs Hevs. left. repeat constructor; simpl; try tauto.
        { by rewrite Hfind. }
        eapply Forall_impl; [exact Hevs|]. intros []; simpl; tauto.
      * apply emits_bind_log, emits_throw. right.
        split; [by repeat constructor|by right].
    + left. repeat constructor; simpl; tauto.
  - intros r evs1 _ H1. eapply emits_conseq; [apply cleanup_closes|].
    intros rc evs2 (Hclose & Hrc & Hthrew). destruct H1 as [H1|[H1 Hr]].
    + left. apply Forall_app. split; [done|].
      eapply Forall_impl; [exact Hclose|]. intros []; simpl; tauto.
    + right. split.
      { apply Forall_app. split; [done|].
        eapply Forall_impl; [exact Hclose|]. intros []; simpl; tauto. }
      destruct rc as [[]|e|]; [| |done].
      * destruct Hr as [->| ->]; eexists; (split; [done|]); auto.
      * exists e. split; [by destruct Hr as [->| ->]|].
        right. right. apply Exists_app. right. by apply Hthrew.
  - intros evs [H1|[_ [?|?]]]; [by left|done..].
Qed.

End ConfirmationPeek.

Lemma find_none_forall target (peeked : list ServiceBusReceivedMessage) :
  Forall (λ m, sequenceString m ≠ target) peeked →
  find (matchesTarget target) peeked = None.
Proof.
  induction 1 as [|m l Hm _ IH]; [done|].
  cbn [find]. unfold matchesTarget at 1. by rewrite bool_decide_false.
Qed.

Lemma resubmitMessage_peeks_from_start {W : Type} `{!Broker W}
    namespace message queueName topicName subscriptionName :
  emits_only (W:=W)
    (λ e, match e with
          | Peeked _ maxCount from _ => maxCount = 100%nat ∧ from = 1
          | _ => True
          end)
    (resubmitMessage namespace message queueName topicName subscriptionName).
Proof. unfold resubmitMessage. only_solve. Qed.

(** When the confirmation peek (up to 100 entries, from sequence number 1)
    comes back without the target's sequence number, the run consists of
    log lines, that peek and the closing of the sender and the receiver
    only: no receive, abandon, send or complete is issued; and the
    operation fails, with one of the two not-found errors, or with the
    error of a [close] when closing itself throws. *)
Lemma resubmitMessage_target_not_peeked {W : Type} `{!Broker W}
    (namespace : string) (message : ServiceBusReceivedMessage)
    (queueName topicName subscriptionName : option string)
    (svc : ServiceBusService) (w : W) :
  let run := resubmitMessage namespace message queueName topicName subscriptionName
                             (mkRun svc w []) in
  ∀ receiver maxCount from peeked,
    Peeked receiver maxCount from (Returned peeked) ∈ run_trace run.2 →
    Forall (λ m, sequenceString m ≠ sequenceString message) peeked →
    maxCount = 100%nat ∧ from = 1
    ∧ Forall is_quiet (run_trace run.2)
    ∧ ∃ e, run.1 = Exn e
           ∧ (e = noMessagesFound ∨ e = targetNotFound
              ∨ Exists (close_threw e) (run_trace run.2)).
Proof.
  intros run receiver maxCount from peeked Hin Hpeeked.
  pose proof (emits_run _ _ svc w
    (resubmitMessage_peeks_from_start namespace message queueName topicName subscriptionName))
    as Hstart.
  pose proof (emits_run _ _ svc w
    (resubmitMessage_not_found namespace message queueName topicName subscriptionName))
    as Hrun.
  fold run in Hstart, Hrun. cbv beta in Hstart.
  rewrite Forall_forall in Hstart. specialize (Hstart _ Hin) as [-> ->].
  split_and!; [done..| |].
  - destruct Hrun as [Hnone|[Hquiet _]]; [|done].
    rewrite Forall_forall in Hnone. destruct (Hnone _ Hin).
    simpl. by apply find_none_forall.
  - destruct Hrun as [Hnone|[_ Hfail]]; [|done].
    rewrite Forall_forall in Hnone. destruct (Hnone _ Hin).
    simpl. by apply find_none_forall.
Qed.

(** C4.  The design document is right and the code misses it when closing
    fails.  The dead-letter queue holds 41 and 43, the target is 42, and
    the broker makes [sender.close()] throw.  The confirmation peek comes
    back without the target and no receive is issued, as the document says; but
    the [finally] block awaits [sender.close()] unguarded, so its error
    replaces the not-found error, and [receiver.close()] is not reached.
    The peek methods of the same class guard the same cleanup with
    [.catch]. *)
Theorem resubmitMessage_close_masks_not_found :
  let w := mkSim [(dl41, false); (dl43, false)] [] [Normal; Fail injected] in
  let run := simulate w dl42 in
  Peeked sim_receiver 100 1 (Returned [dl41; dl43]) ∈ run_trace run.2
  ∧ Forall is_quiet (run_trace run.2)
  ∧ SenderClosed sim_sender (Threw injected) ∈ run_trace run.2
  ∧ Forall (λ e, match e with ReceiverClosed _ _ => False | _ => True end) (run_trace run.2)
  ∧ run.1 = Exn injected
  ∧ injected ≠ targetNotFound ∧ injected ≠ noMessagesFound.
Proof.
  intros w run. split_and!.
  - apply (list_elem_of_lookup_2 _ 2). by vm_compute.
  - vm_compute. repeat constructor.
  - apply (list_elem_of_lookup_2 _ 5). by vm_compute.
  - vm_compute. repeat constructor.
  - by vm_compute.
  - done.
  - done.
Qed.

(** C1.  In every run of [resubmitMessage], against any broker, a
    [completeMessage] call on a message comes after a [sendMessages] call
    that succeeded and carried the copy of that same message, and no other
    [completeMessage] call is made before or after it.  So the source is
    never removed before its copy has been accepted: if the send throws
    nothing is completed, and if anything fails after the send both copies
    exist. *)
Theorem resubmitMessage_send_before_complete {W : Type} `{!Broker W}
    (namespace : string) (message : ServiceBusReceivedMessage)
    (queueName topicName subscriptionName : option string)
    (svc : ServiceBusService) (w : W) :
  let run := resubmitMessage namespace message queueName topicName subscriptionName
                             (mkRun svc w []) in
  ∀ before receiver m answer after,
    run_trace run.2 = before ++ Completed receiver m answer :: after →
    (∃ sender messageBody convertedAppProps,
        Sent sender (lockedCopy m messageBody convertedAppProps) (Returned tt) ∈ before)
    ∧ Forall (λ e, ¬ is_completion e) before
    ∧ Forall (λ e, ¬ is_completion e) after.
Proof.
  intros run.
  apply (emits_run _ _ svc w
           (resubmitMessage_sbc namespace message queueName topicName subscriptionName)).
Qed.

Lemma resubmitMessage_send_before_complete_witness :
  let run := simulate faulty_world dl42 in
  run.1 = Exn injected
  ∧ run_trace run.2 !! 14%nat = Some (Completed sim_receiver dl42 (Threw injected))
  ∧ (∃ sender messageBody convertedAppProps,
        Sent sender (lockedCopy dl42 messageBody convertedAppProps) (Returned tt)
        ∈ take 14 (run_trace run.2))
  ∧ dl42 ∈ (sim_deadLetter (run_world run.2)).*1
  ∧ sim_origin (run_world run.2)
    = [lockedCopy dl42 (VStr "{a:1}") (VObject {[ "tenant" := VStr "acme" ]})].
Proof.
  intros run.
  destruct (resubmitMessage_send_before_complete "ns.servicebus.windows.net" dl42
              (Some "orders") None None new_service faulty_world
              (take 14 (run_trace run.2)) sim_receiver dl42 (Threw injected)
              (drop 15 (run_trace run.2))) as (Hsent & _ & _); [by vm_compute|].
  split_and!; [by vm_compute|by vm_compute|exact Hsent| |by vm_compute].
  apply (list_elem_of_lookup_2 _ 1). by vm_compute.
Defined.

(** ** Runs around one marked event *)

Lemma around_elim {A} P (Φ : Outcome A → list Event → Event → list Event → Prop) r evs :
  around P Φ r evs →
  ∀ before x after, evs = before ++ x :: after → P x → Φ r before x after.
Proof.
  intros [Hnone|(pre & y & post & -> & Hy & Hpre & Hpost & HΦ)] before x after Heq Hx.
  - subst evs. apply Forall_app in Hnone as [_ Hnone].
    by apply Forall_cons in Hnone as [? _].
  - by destruct (split_unique P pre post before after y x Hpre Hpost Hx Heq) as (-> & -> & ->).
Qed.

Lemma around_prefix {A} P (Φ Φ' : Outcome A → list Event → Event → list Event → Prop)
    r evs1 evs2 evs :
  evs = evs1 ++ evs2 →
  Forall (λ e, ¬ P e) evs1 →
  (∀ pre x post, Φ r pre x post → Φ' r (evs1 ++ pre) x post) →
  around P Φ r evs2 → around P Φ' r evs.
Proof.
  intros -> H1 Hmono [Hnone|(pre & x & post & -> & Hx & Hpre & Hpost & HΦ)].
  - left. by apply Forall_app.
  - right. exists (evs1 ++ pre), x, post.
    split_and!; [by rewrite app_assoc|done|by apply Forall_app|done|by apply Hmono].
Qed.

Lemma around_suffix {A B} P (Φ : Outcome A → list Event → Event → list Event → Prop)
    (Φ' : Outcome B → list Event → Event → list Event → Prop) r r' evs1 evs2 :
  Forall (λ e, ¬ P e) evs2 →
  (∀ pre x post, Φ r pre x post → Φ' r' pre x (post ++ evs2)) →
  around P Φ r evs1 → around P Φ' r' (evs1 ++ evs2).
Proof.
  intros H2 Hmono [Hnone|(pre & x & post & -> & Hx & Hpre & Hpost & HΦ)].
  - left. by apply Forall_app.
  - right. exists pre, x, (post ++ evs2).
    split_and!; [by rewrite <- app_assoc|done|done|by apply Forall_app|by apply Hmono].
Qed.

Lemma around_intro {A} P (Φ : Outcome A → list Event → Event → list Event → Prop)
    r evs pre x post :
  evs = pre ++ x :: post → P x →
  Forall (λ e, ¬ P e) pre → Forall (λ e, ¬ P e) post → Φ r pre x post →
  around P Φ r evs.
Proof. intros. right. by exists pre, x, post. Qed.

(** ** The second pass of the peek path *)

Section PeekPath.
Context {W : Type} `{!Broker W}.

Lemma deleteReceiverFor_mode client queueName topicName subscriptionName :
  receiver_mode (deleteReceiverFor client queueName topicName subscriptionName)
  = receiveAndDelete.
Proof. unfold deleteReceiverFor. by destruct (nonempty queueName). Qed.

Lemma relocateFromPeek_delete_pass client sender receiver queueName topicName
    subscriptionName target peekedTarget :
  emits (relocateFromPeek (W:=W) client sender receiver queueName topicName subscriptionName
                          target peekedTarget)
        (around (received_batch receiveAndDelete) (delete_pass_outcome target peekedTarget)).
Proof.
  set (P := received_batch receiveAndDelete).
  unfold relocateFromPeek.
  apply emits_bind_log.
  eapply (emits_bind_only (λ e, ¬ P e)); [solve [only_solve]| |intros ?..].
  2,3: intros; left; constructor; [simpl; tauto|done].
  intros messageBody evs1 H1.
  apply emits_bind_lift; [intros convertedAppProps _|intros e _|intros _].
  2,3: left; constructor; [simpl; tauto|by rewrite app_nil_r].
  apply emits_bind_log. cbv zeta.
  apply emits_bind_call; [intros []|intros e]; cycle 1.
  { left. constructor; [simpl; tauto|]. apply Forall_app. split; [done|].
    repeat constructor; simpl; tauto. }
  apply emits_bind_log, emits_bind_call; [intros []|intros e]; cycle 1.
  { left. constructor; [simpl; tauto|]. apply Forall_app. split; [done|].
    repeat constructor; simpl; tauto. }
  set (deleteReceiver := deleteReceiverFor client queueName topicName subscriptionName).
  assert (receiver_mode deleteReceiver = receiveAndDelete) as Hmode
    by apply deleteReceiverFor_mode.
  set (outgoing := peekedCopy peekedTarget messageBody convertedAppProps).
  eapply emits_conseq.
  - eapply (emits_try_finally _ _
      (around P (λ r pre x post,
         r = Val tt ∧ ∀ r' n w deletedMessages,
           x = Received r' n w (Returned deletedMessages) →
           if existsb (matchesDeleted target (messageId peekedTarget)) deletedMessages
           then Logged "[ServiceBus] Target message was deleted from DLQ" ∈ post
                ∧ Forall (λ e, ¬ is_warning e) post
           else Exists is_warning post))
      (around P (λ r pre x post,
         (r = Val tt ∨ ∃ e, r = Exn e ∧ Exists (close_threw e) post)
         ∧ ∀ r' n w deletedMessages,
           x = Received r' n w (Returned deletedMessages) →
           if existsb (matchesDeleted target (messageId peekedTarget)) deletedMessages
           then Logged "[ServiceBus] Target message was deleted from DLQ" ∈ post
                ∧ Forall (λ e, ¬ is_warning e) post
           else Exists is_warning post))).
    + apply emits_bind_log, emits_bind_call; [intros deletedMessages|intros e]; cycle 1.
      { left. repeat constructor; simpl; tauto. }
      apply emits_bind_log. cbv zeta.
      destruct (existsb _ deletedMessages) eqn:Hmatch;
        [|destruct (0 <? length deletedMessages)%nat].
      * apply emits_log.
        eapply (around_intro _ _ _ _ [_] _ [_; _]); [done|done|..].
        { repeat constructor; simpl; tauto. }
        { repeat constructor; simpl; tauto. }
        split; [done|]. intros r' n w' d [= _ _ _ <-]. rewrite Hmatch.
        split; [apply elem_of_cons; right; apply elem_of_cons; by left|].
        repeat constructor; by vm_compute.
      * apply emits_bind_log, emits_bind_log, emits_log.
        eapply (around_intro _ _ _ _ [_] _ [_; _; _; _]); [done|done|..].
        { repeat constructor; simpl; tauto. }
        { repeat constructor; simpl; tauto. }
        split; [done|]. intros r' n w' d [= _ _ _ <-]. rewrite Hmatch.
        do 3 (apply Exists_cons; right). apply Exists_cons; left. by vm_compute.
      * apply emits_bind_log, emits_log.
        eapply (around_intro _ _ _ _ [_] _ [_; _; _]); [done|done|..].
        { repeat constructor; simpl; tauto. }
        { repeat constructor; simpl; tauto. }
        split; [done|]. intros r' n w' d [= _ _ _ <-]. rewrite Hmatch.
        apply Exists_cons; right. apply Exists_cons; left. by vm_compute.
    + intros r evs2 _ H2. apply emits_call. intros answer.
      eapply around_suffix; [|
        |exact H2].
      { repeat constructor. simpl. tauto. }
      intros pre x post [-> Hlog]. split.
      * destruct answer as [[]|e]; simpl; [by left|right].
        exists e. split; [done|]. apply Exists_app. right. by apply Exists_cons; left.
      * intros r' n w' d Hx. specialize (Hlog r' n w' d Hx).
        destruct (existsb _ d).
        -- destruct Hlog as [Hin Hno]. split; [apply elem_of_app; by left|].
           apply Forall_app. split; [done|]. repeat constructor. simpl. tauto.
        -- apply Exists_app. by left.
    + intros evs [Hnone|(pre & x & post & _ & _ & _ & _ & [? _])]; [by left|done].
  - intros r evs2 H2. cbv beta.
    eapply (around_prefix _ _ _ _ (Logged _ :: evs1 ++ [_; Sent _ _ _; _; _]));
      [|
       |
       |exact H2].
    + cbn [app]. by rewrite <- app_assoc.
    + constructor; [simpl; tauto|]. apply Forall_app. split; [done|].
      repeat constructor; simpl; tauto.
    + intros pre x post [Hr Hlog]. split_and!; [|done..].
      exists sender, outgoing. apply elem_of_app. left.
      apply elem_of_cons. right. apply elem_of_app. right.
      apply elem_of_cons. right. apply elem_of_cons. by left.
Qed.

End PeekPath.

Section PeekPathRun.
Context {W : Type} `{!Broker W}.

Lemma receiverFor_peekLock client queueName topicName subscriptionName :
  emits (receiverFor (W:=W) client queueName topicName subscriptionName)
        (λ r evs, evs = [] ∧ ∀ receiver, r = Val receiver → receiver_mode receiver = peekLock).
Proof.
  unfold receiverFor.
  repeat case_match; (apply emits_ret || apply emits_throw); split; try done;
    by intros ? [= <-].
Qed.

Lemma resubmitMessage_delete_pass namespace message queueName topicName subscriptionName :
  emits (resubmitMessage (W:=W) namespace message queueName topicName subscriptionName)
        (around (received_batch receiveAndDelete)
                (peek_path_outcome (sequenceString message))).
Proof.
  set (target := sequenceString message).
  set (P := received_batch receiveAndDelete).
  assert (∀ (r : Outcome unit) evs,
            Forall (λ _ : Event, False) evs → around P (peek_path_outcome target) r evs)
    as Hsilent.
  { intros r evs ->%silent_nil. by left. }
  unfold resubmitMessage.
  eapply (emits_bind_only is_log); [by apply getClient_only| |intros; left..].
  2,3: eapply Forall_impl; [eassumption|]; intros []; simpl; tauto.
  intros client evs0 H0.
  eapply (emits_conseq _ (around P (peek_path_outcome target))); cycle 1.
  { intros r evs H. eapply around_prefix; [done| | |exact H].
    - eapply Forall_impl; [exact H0|]. intros []; simpl; tauto.
    - intros pre x post
        (pt & (rp & np & fp & peeked & Hin & Hfind) & (s & out & Hsent) & Hr & Hlog).
      exists pt. split.
      + exists rp, np, fp, peeked. split; [|done]. apply elem_of_app. by right.
      + split_and!; [|done..]. exists s, out. apply elem_of_app. by right. }
  eapply (emits_bind_only (λ _, False)); [solve [only_solve]| |by auto..].
  intros sender ? ->%silent_nil.
  eapply emits_bind;
    [apply receiverFor_peekLock| |intros ? ? [-> _]; by left|intros ? [-> _]; by left].
  intros receiver ? [-> Hmode]. specialize (Hmode receiver eq_refl). cbn [app].
  assert (∀ n w' answer, ¬ P (Received receiver n w' answer)) as Hreceived.
  { intros n w' [?|?]; simpl; [congruence|tauto]. }
  eapply (emits_try_finally _ _ (around P (peek_path_outcome target))).
  - cbv zeta. fold target.
    apply emits_bind_log, emits_bind_call; [intros peekedMessages|intros e]; cycle 1.
    { left. repeat constructor; simpl; tauto. }
    apply emits_bind_log.
    destruct (length peekedMessages =? 0)%nat.
    { apply emits_throw. left. repeat constructor; simpl; tauto. }
    destruct (find (matchesTarget target) peekedMessages) as [peekedTarget|] eqn:Hfind;
      cycle 1.
    { apply emits_bind_log, emits_throw. left. repeat constructor; simpl; tauto. }
    apply emits_bind_log, emits_bind_log, emits_bind_call; [intros messages|intros e];
      cycle 1.
    { left. repeat constructor; simpl; tauto. }
    apply emits_bind_log.
    eapply (emits_bind_only (λ e, ¬ P e)); [solve [only_solve]| |intros ?..].
    2,3: intros; left; repeat (constructor; [by auto || (simpl; tauto)|]); done.
    intros [targetMessage|] evs1 H1.
    + eapply (emits_of_only (λ e, ¬ P e)); [solve [only_solve]|].
      intros r evs2 H2. left. repeat (constructor; [by auto || (simpl; tauto)|]).
      by apply Forall_app.
    + eapply emits_conseq; [apply relocateFromPeek_delete_pass|].
      intros r evs2 H2. cbv beta.
      eapply (around_prefix _ _ _ _ ([_; Peeked _ _ _ _; _; _; _; _; _] ++ evs1));
        [|
         |
         |exact H2].
      * by rewrite <- app_assoc.
      * apply Forall_app. split; [|done].
        repeat (constructor; [by auto || (simpl; tauto)|]). constructor.
      * intros pre x post ((s & out & Hsent) & Hr & Hlog).
        exists peekedTarget. split; [|split_and!; [|done..]].
        -- exists receiver, 100%nat, 1, peekedMessages. split; [|done].
           apply elem_of_app. left. apply elem_of_app. left.
           apply elem_of_cons. right. apply elem_of_cons. by left.
        -- exists s, out. apply elem_of_app. by right.
  - intros r evs1 _ H1. eapply emits_conseq; [apply cleanup_closes|].
    intros rc evs2 (Hclose & Hrc & Hthrew).
    eapply around_suffix; [| |exact H1].
    { eapply Forall_impl; [exact Hclose|]. intros []; simpl; tauto. }
    intros pre x post (peekedTarget & Hpeek & Hsent & Hr & Hlog).
    exists peekedTarget. split; [done|]. split; [done|]. split.
    + destruct rc as [[]|e|]; [| |done].
      * destruct Hr as [->|(e & -> & He)]; [by left|right].
        exists e. split; [done|]. apply Exists_app. by left.
      * right. exists e. split; [by destruct Hr as [->|(e' & -> & _)]|].
        apply Exists_app. right. by apply Hthrew.
    + intros r' n w' d Hx. specialize (Hlog r' n w' d Hx).
      destruct (existsb _ d).
      * destruct Hlog as [Hin Hno]. split; [apply elem_of_app; by left|].
        apply Forall_app. split; [done|].
        eapply Forall_impl; [exact Hclose|]. intros []; simpl; tauto.
      * apply Exists_app. by left.
  - intros evs [Hnone|(pre & x & post & _ & _ & _ & _ & (pt & _ & _ & [?|(e&?&_)] & _))];
      [by left|done..].
Qed.

End PeekPathRun.

(** C6, as the design document states it, fails: when the second pass
    removes nothing, so that the source copy is still in the dead-letter
    queue, the operation settles exactly as it does when the pass removed
    the target, and the command layer reports the same success. *)
Lemma partial_success_not_signalled :
  let confirmed := simulate confirmed_world dl42 in
  let unconfirmed := simulate unconfirmed_world dl42 in
  Sent sim_sender
       (peekedCopy dl42 (VStr "{a:1}") (VObject {[ "tenant" := VStr "acme" ]}))
       (Returned tt) ∈ run_trace unconfirmed.2
  ∧ Received sim_deleteReceiver 100 10000 (Returned []) ∈ run_trace unconfirmed.2
  ∧ dl42 ∈ (sim_deadLetter (run_world unconfirmed.2)).*1
  ∧ (dl42 ∉ (sim_deadLetter (run_world confirmed.2)).*1)
  ∧ unconfirmed.1 = Val tt
  ∧ confirmed.1 = Val tt
  ∧ resubmitNotification unconfirmed.1
    = Some (InformationMessage "Message resubmitted successfully")
  ∧ resubmitNotification unconfirmed.1 = resubmitNotification confirmed.1.
Proof.
  split_and!; try by vm_compute.
  - apply (list_elem_of_lookup_2 _ 10). by vm_compute.
  - apply (list_elem_of_lookup_2 _ 14). by vm_compute.
  - apply (list_elem_of_lookup_2 _ 1). by vm_compute.
  - vm_compute. by intros ?%elem_of_nil.
Qed.

(** C6, amended.  On the peek path, once the message has been resent, the
    receive-and-delete pass does not change how the operation settles:
    whatever batch the pass hands back, [resubmitMessage] returns normally,
    as after a clean success, unless closing the sender or a receiver
    throws.  Whether the batch holds a message with the target's message
    id or sequence number only decides what is logged: the confirmation
    line and no warning, or a WARNING line. *)
Theorem resubmitMessage_peek_path_settles {W : Type} `{!Broker W}
    (namespace : string) (message : ServiceBusReceivedMessage)
    (queueName topicName subscriptionName : option string)
    (svc : ServiceBusService) (w : W) :
  let run := resubmitMessage namespace message queueName topicName subscriptionName
                             (mkRun svc w []) in
  ∀ before r n wait deletedMessages after,
    run_trace run.2 = before ++ Received r n wait (Returned deletedMessages) :: after →
    receiver_mode r = receiveAndDelete →
    ∃ peekedTarget,
      (∃ rp np fp peeked,
          Peeked rp np fp (Returned peeked) ∈ before
          ∧ find (matchesTarget (sequenceString message)) peeked = Some peekedTarget)
      ∧ (∃ s out, Sent s out (Returned tt) ∈ before)
      ∧ (run.1 = Val tt ∨ ∃ e, run.1 = Exn e ∧ Exists (close_threw e) after)
      ∧ (if existsb (matchesDeleted (sequenceString message) (messageId peekedTarget))
                    deletedMessages
         then Logged "[ServiceBus] Target message was deleted from DLQ" ∈ after
              ∧ Forall (λ e, ¬ is_warning e) after
         else Exists is_warning after)
      ∧ (run.1 = Val tt →
         resubmitNotification run.1
         = Some (InformationMessage "Message resubmitted successfully")).
Proof.
  intros run before r n wait deletedMessages after Htrace Hmode.
  pose proof (emits_run _ _ svc w
    (resubmitMessage_delete_pass namespace message queueName topicName subscriptionName))
    as Hrun.
  fold run in Hrun.
  destruct (around_elim _ _ _ _ Hrun _ _ _ Htrace Hmode)
    as (peekedTarget & Hpeek & Hsent & Hr & Hlog).
  exists peekedTarget. split_and!; [done..| |].
  - by apply (Hlog r n wait deletedMessages).
  - by intros ->.
Qed.

Lemma resubmitMessage_peek_path_settles_witness :
  let run := simulate unconfirmed_world dl42 in
  run.1 = Val tt
  ∧ Exists is_warning (drop 15 (run_trace run.2))
  ∧ ∃ s out, Sent s out (Returned tt) ∈ take 14 (run_trace run.2).
Proof.
  intros run.
  destruct (resubmitMessage_peek_path_settles "ns.servicebus.windows.net" dl42
              (Some "orders") None None new_service unconfirmed_world
              (take 14 (run_trace run.2)) sim_deleteReceiver 100 10000 []
              (drop 15 (run_trace run.2)))
    as (peekedTarget & _ & Hsent & _ & Hlog & _); [by vm_compute|done|].
  split_and!; [by vm_compute|exact Hlog|exact Hsent].
Defined.

(** ** The received batch *)

Lemma lastMatch_Some target messages bound m :
  lastMatch target messages bound = Some m →
  bound = Some m ∨ (m ∈ messages ∧ matchesTarget target m = true).
Proof.
  revert bound. induction messages as [|x l IH]; intros bound; cbn [lastMatch foldl].
  - by left.
  - intros H. apply IH in H as [H|[Hin Hm]].
    + destruct (matchesTarget target x) eqn:Hx; [|by left].
      injection H as <-. right. split; [by left|done].
    + right. split; [by right|done].
Qed.

Section ReceivedBatch.
Context {W : Type} `{!Broker W}.

Lemma scanReceived_spec receiver target messages targetMessage :
  emits (scanReceived (W:=W) receiver target messages targetMessage)
    (λ r evs,
       Forall (λ e, match e with
                    | Logged _ => True
                    | Abandoned r' m _ =>
                        r' = receiver ∧ m ∈ messages ∧ matchesTarget target m = false
                    | _ => False
                    end) evs
       ∧ match r with
         | Val bound =>
             bound = lastMatch target messages targetMessage
             ∧ ∀ m, m ∈ messages → matchesTarget target m = false →
                    Abandoned receiver m (Returned tt) ∈ evs
         | Exn e => ∃ m, Abandoned receiver m (Threw e) ∈ evs
         | Unmodelled => False
         end).
Proof.
  revert targetMessage.
  induction messages as [|msg rest IH]; intros targetMessage; cbn [scanReceived].
  - apply emits_ret. split; [constructor|]. split; [done|]. by intros m ?%elem_of_nil.
  - fold (matchesTarget target msg). destruct (matchesTarget target msg) eqn:Hmsg.
    + apply emits_bind_log. eapply emits_conseq; [apply IH|].
      intros r evs [Hevs Hr]. split.
      * constructor; [done|]. eapply Forall_impl; [exact Hevs|].
        intros []; try done. intros (? & ? & ?). split_and!; [done| |done]. by right.
      * destruct r as [bound|e|]; [|destruct Hr as [m Hm]; exists m; by right|done].
        destruct Hr as [-> Hab]. split; [by cbn [lastMatch foldl]; rewrite Hmsg|].
        intros m [->|Hin]%elem_of_cons Hm; [congruence|]. right. by apply Hab.
    + apply emits_bind_call; [intros []|intros e].
      * eapply emits_conseq; [apply IH|].
        intros r evs [Hevs Hr]. split.
        -- constructor; [split_and!; [done|by left|done]|].
           eapply Forall_impl; [exact Hevs|].
           intros []; try done. intros (? & ? & ?). split_and!; [done| |done]. by right.
        -- destruct r as [bound|e|]; [|destruct Hr as [m Hm]; exists m; by right|done].
           destruct Hr as [-> Hab]. split; [by cbn [lastMatch foldl]; rewrite Hmsg|].
           intros m [->|Hin]%elem_of_cons Hm; [by left|]. right. by apply Hab.
      * split.
        -- repeat constructor; done.
        -- exists msg. by left.
Qed.

Lemma scanReceived_order receiver target messages targetMessage :
  emits (scanReceived (W:=W) receiver target messages targetMessage)
    (λ r evs,
       let others := filter (λ m, matchesTarget target m = false) messages in
       match r with
       | Val _ => abandons evs = map (λ m, (m, Returned tt)) others
       | Exn e =>
           ∃ done m rest,
             others = done ++ m :: rest
             ∧ abandons evs = map (λ m, (m, Returned tt)) done ++ [(m, Threw e)]
       | Unmodelled => False
       end).
Proof.
  revert targetMessage.
  induction messages as [|msg rest IH]; intros targetMessage; cbn [scanReceived].
  - by apply emits_ret.
  - fold (matchesTarget target msg). destruct (matchesTarget target msg) eqn:Hmsg.
    + apply emits_bind_log. eapply emits_conseq; [apply IH|].
      intros r evs Hr. cbv zeta in *. rewrite filter_cons_False by congruence.
      exact Hr.
    + apply emits_bind_call; [intros []|intros e].
      * eapply emits_conseq; [apply IH|].
        intros r evs Hr. cbv zeta in *. rewrite filter_cons_True by done.
        destruct r as [bound|e|]; [|destruct Hr as (done & m & rest' & Heq & Hab)|done].
        -- cbn [abandons map]. by rewrite Hr.
        -- exists (msg :: done), m, rest'. cbn [abandons map app]. by rewrite Heq, Hab.
      * cbv zeta. rewrite filter_cons_True by done.
        by exists [], msg, (filter (λ m, matchesTarget target m = false) rest).
Qed.

End ReceivedBatch.

Section ReceivedBatchRun.
Context {W : Type} `{!Broker W}.

Lemma resubmitMessage_batch namespace message queueName topicName subscriptionName :
  emits (resubmitMessage (W:=W) namespace message queueName topicName subscriptionName)
        (around (received_batch peekLock) (batch_outcome (sequenceString message))).
Proof.
  set (target := sequenceString message).
  set (P := received_batch peekLock).
  assert (∀ (r : Outcome unit) evs,
            Forall (λ _ : Event, False) evs → around P (batch_outcome target) r evs)
    as Hsilent.
  { intros r evs ->%silent_nil. by left. }
  unfold resubmitMessage.
  eapply (emits_bind_only is_log); [by apply getClient_only| |intros; left..].
  2,3: eapply Forall_impl; [eassumption|]; intros []; simpl; tauto.
  intros client evs0 H0.
  eapply (emits_conseq _ (around P (batch_outcome target))); cycle 1.
  { intros r evs H. eapply around_prefix; [done| | |exact H].
    - eapply Forall_impl; [exact H0|]. intros []; simpl; tauto.
    - intros pre x post Hb receiver n wait messages Hx.
      destruct (Hb _ _ _ _ Hx) as (Hpre & Hpost & Hab).
      split_and!; [|done..]. apply Forall_app. split; [|done].
      eapply Forall_impl; [exact H0|]. by intros []. }
  eapply (emits_bind_only (λ _, False)); [solve [only_solve]| |by auto..].
  intros sender ? ->%silent_nil.
  eapply emits_bind;
    [apply receiverFor_peekLock| |intros ? ? [-> _]; by left|intros ? [-> _]; by left].
  intros receiver ? [-> Hmode]. specialize (Hmode receiver eq_refl). cbn [app].
  eapply (emits_try_finally _ _ (around P (batch_outcome target))).
  - cbv zeta. fold target.
    apply emits_bind_log, emits_bind_call; [intros peekedMessages|intros e]; cycle 1.
    { left. repeat constructor; simpl; tauto. }
    apply emits_bind_log.
    destruct (length peekedMessages =? 0)%nat.
    { apply emits_throw. left. repeat constructor; simpl; tauto. }
    destruct (find (matchesTarget target) peekedMessages) as [peekedTarget|] eqn:Hfind;
      cycle 1.
    { apply emits_bind_log, emits_throw. left. repeat constructor; simpl; tauto. }
    apply emits_bind_log, emits_bind_log, emits_bind_call; [intros messages|intros e];
      cycle 1.
    { left. repeat constructor; simpl; tauto. }
    apply emits_bind_log.
    eapply emits_bind.
    + instantiate (1 := λ r evs,
        Forall (after_batch receiver target messages) evs
        ∧ Forall (λ e, ¬ is_send e ∧ ¬ is_completion e ∧ ¬ P e) evs
        ∧ match r with
          | Val bound =>
              bound = lastMatch target messages None
              ∧ ∀ m, m ∈ messages → matchesTarget target m = false →
                     Abandoned receiver m (Returned tt) ∈ evs
          | Exn e => ∃ m, Abandoned receiver m (Threw e) ∈ evs
          | Unmodelled => False
          end).
      destruct (0 <? length messages)%nat eqn:Hlen.
      * eapply emits_conseq; [apply scanReceived_spec|].
        intros r evs [Hevs Hr]. split_and!; [| |done].
        -- eapply Forall_impl; [exact Hevs|]. by intros [].
        -- eapply Forall_impl; [exact Hevs|]. intros []; simpl; tauto.
      * apply emits_ret. destruct messages; [|done].
        split_and!; [constructor..|done|]. by intros m ?%elem_of_nil.
    + intros bound evs1 (Hafter1 & Hquiet1 & -> & Habandoned).
      eapply (emits_of_only (λ e, after_batch receiver target messages e ∧ ¬ P e)).
      * destruct (lastMatch target messages None) as [targetMessage|] eqn:Hbound.
        -- apply relocateLocked_only; intros; (split; [|simpl; tauto]); done.
        -- apply relocateFromPeek_only; intros; (split; [|simpl; try tauto]); try done.
           destruct answer; simpl; [congruence|tauto].
      * intros r evs2 H2.
        eapply (around_intro _ _ _ _ [_; _; _; _; _] _ (_ :: evs1 ++ evs2)); [done|done|..].
        { repeat constructor; simpl; tauto. }
        { constructor; [simpl; tauto|]. apply Forall_app. split.
          - eapply Forall_impl; [exact Hquiet1|]. simpl. tauto.
          - eapply Forall_impl; [exact H2|]. simpl. tauto. }
        intros receiver' n wait messages' [= <- _ _ <-]. split_and!.
        -- repeat constructor; simpl; tauto.
        -- constructor; [done|]. apply Forall_app. split; [done|].
           eapply Forall_impl; [exact H2|]. simpl. tauto.
        -- left. intros m Hin Hm. right. apply elem_of_app. left. by apply Habandoned.
    + intros e evs1 (Hafter1 & Hquiet1 & m & Hm).
      eapply (around_intro _ _ _ _ [_; _; _; _; _] _ (_ :: evs1)); [done|done|..].
      { repeat constructor; simpl; tauto. }
      { constructor; [simpl; tauto|]. eapply Forall_impl; [exact Hquiet1|]. simpl. tauto. }
      intros receiver' n wait messages' [= <- _ _ <-]. split_and!.
      * repeat constructor; simpl; tauto.
      * by constructor.
      * right. split_and!; [exists m, e; by right|by exists e|].
        constructor; [simpl; tauto|]. eapply Forall_impl; [exact Hquiet1|]. simpl. tauto.
    + by intros evs (_ & _ & ?).
  - intros r evs1 _ H1. eapply emits_conseq; [apply cleanup_closes|].
    intros rc evs2 (Hclose & Hrc & Hthrew).
    eapply around_suffix; [| |exact H1].
    { eapply Forall_impl; [exact Hclose|]. intros []; simpl; tauto. }
    intros pre x post Hbatch receiver' n wait messages Hx.
    destruct (Hbatch receiver' n wait messages Hx) as (Hpre & Hpost & Hab).
    split_and!; [done| |].
    + apply Forall_app. split; [done|].
      eapply Forall_impl; [exact Hclose|]. by intros [].
    + destruct Hab as [Hall|(Hthrown & [e ->] & Hnone)].
      * left. intros m Hin Hm. apply elem_of_app. left. by apply Hall.
      * right. split_and!.
        -- destruct Hthrown as (m & e' & Hin). exists m, e'. apply elem_of_app. by left.
        -- destruct rc as [[]|e'|]; [by exists e|by exists e'|done].
        -- apply Forall_app. split; [done|].
           eapply Forall_impl; [exact Hclose|]. intros []; simpl; tauto.
  - done.
Qed.

End ReceivedBatchRun.

Lemma lastMatch_bound target messages m :
  is_Some (lastMatch target messages (Some m)).
Proof.
  revert m. induction messages as [|x l IH]; intros m; cbn [lastMatch foldl]; [done|].
  destruct (matchesTarget target x); apply IH.
Qed.

Lemma lastMatch_is_Some target messages bound :
  (∃ m, m ∈ messages ∧ matchesTarget target m = true) →
  is_Some (lastMatch target messages bound).
Proof.
  revert bound. induction messages as [|x l IH]; intros bound (m & Hin & Hm).
  - by apply elem_of_nil in Hin.
  - cbn [lastMatch foldl]. apply elem_of_cons in Hin as [->|Hin].
    + rewrite Hm. apply lastMatch_bound.
    + apply IH. by exists m.
Qed.

(** C5, as the design document states it, fails when the broker refuses an
    abandon: the receive hands out 41, 42 and 43, the target is 42, and
    the abandon of 41 throws.  The operation fails with that error, 43 is
    never abandoned, and at the end it is still locked. *)
Lemma abandon_failure_leaves_locked :
  let run := simulate abandon_fails_world dl42 in
  Received sim_receiver 100 10000 (Returned [dl41; dl42; dl43]) ∈ run_trace run.2
  ∧ matchesTarget (sequenceString dl42) dl43 = false
  ∧ Forall (λ e, match e with Abandoned _ m _ => m ≠ dl43 | _ => True end)
           (run_trace run.2)
  ∧ holds_lock dl43 (sim_deadLetter (run_world run.2)) = true
  ∧ run.1 = Exn injected.
Proof.
  intros run. split_and!.
  - apply (list_elem_of_lookup_2 _ 6). by vm_compute.
  - by vm_compute.
  - vm_compute. repeat constructor. by intros [=].
  - by vm_compute.
  - by vm_compute.
Qed.

(** C5, amended.  The loop over a received batch abandons, in the order
    of the batch, each message whose sequence number differs from the
    target's, and binds the message that matches (the last one, were
    there several): when the loop returns, every message that does not
    match has been abandoned, once, and the bound message is in the batch,
    matches, and has been neither abandoned nor completed; when an
    abandon throws, the loop ends with that error and the messages after
    the refused one are not abandoned.  In a run,
    nothing is abandoned, sent or completed before the lock-based receive;
    after it an abandon is only ever issued for a message of the batch
    that does not match, and a complete only for the bound message, which
    is never abandoned.  A message that does not match is left locked only
    when an abandon throws: the operation then fails and neither sends nor
    completes anything. *)
Theorem resubmitMessage_abandons_non_matching {W : Type} `{!Broker W}
    (namespace : string) (message : ServiceBusReceivedMessage)
    (queueName topicName subscriptionName : option string)
    (svc : ServiceBusService) (w : W) :
  let run := resubmitMessage namespace message queueName topicName subscriptionName
                             (mkRun svc w []) in
  let target := sequenceString message in
  (∀ receiver messages,
     emits (scanReceived (W:=W) receiver target messages None)
           (batch_scan receiver target messages))
  ∧ ∀ before receiver n wait messages after,
      run_trace run.2 = before ++ Received receiver n wait (Returned messages) :: after →
      receiver_mode receiver = peekLock →
      Forall nothing_settled before
      ∧ (∀ r m answer, Abandoned r m answer ∈ after →
           r = receiver ∧ m ∈ messages ∧ matchesTarget target m = false)
      ∧ (∀ r m answer, Completed r m answer ∈ after →
           r = receiver ∧ m ∈ messages ∧ matchesTarget target m = true
           ∧ lastMatch target messages None = Some m
           ∧ ∀ r' answer', Abandoned r' m answer' ∉ run_trace run.2)
      ∧ ((∀ m, m ∈ messages → matchesTarget target m = false →
               Abandoned receiver m (Returned tt) ∈ after)
         ∨ ((∃ m e, Abandoned receiver m (Threw e) ∈ after)
            ∧ (∃ e, run.1 = Exn e)
            ∧ Forall (λ e, ¬ is_send e ∧ ¬ is_completion e) after)).
Proof.
  intros run target. split.
  { intros receiver messages.
    eapply emits_conseq; [apply emits_and; [apply scanReceived_spec|apply scanReceived_order]|].
    intros r evs [[Hevs Hr] Horder]. split; [done|].
    destruct r as [bound|e|]; [|done..].
    destruct Hr as [-> Hall]. split_and!; [done..| |].
    - intros m Hm. by destruct (lastMatch_Some _ _ _ _ Hm).
    - apply lastMatch_is_Some. }
  intros before receiver n wait messages after Htrace Hmode.
  pose proof (emits_run _ _ svc w
    (resubmitMessage_batch namespace message queueName topicName subscriptionName))
    as Hrun.
  fold run target in Hrun.
  destruct (around_elim _ _ _ _ Hrun _ _ _ Htrace Hmode receiver n wait messages eq_refl)
    as (Hbefore & Hafter & Hall).
  rewrite Forall_forall in Hafter.
  assert (∀ r m answer, Abandoned r m answer ∈ after →
            r = receiver ∧ m ∈ messages ∧ matchesTarget target m = false) as Habandon.
  { intros r m answer Hin. apply (Hafter _ Hin). }
  split_and!; [done|done| |done].
  intros r m answer Hin. destruct (Hafter _ Hin) as [-> Hbound].
  destruct (lastMatch_Some _ _ _ _ Hbound) as [?|[Hm Hmatch]]; [done|].
  split_and!; [done..|].
  intros r' answer' Hin'. rewrite Htrace in Hin'.
  apply elem_of_app in Hin' as [Hin'|Hin'].
  - rewrite Forall_forall in Hbefore. apply (Hbefore _ Hin').
  - apply elem_of_cons in Hin' as [?|Hin']; [done|].
    destruct (Habandon _ _ _ Hin') as (_ & _ & ?). congruence.
Qed.

Lemma resubmitMessage_abandons_non_matching_witness :
  let run := simulate healthy_world dl42 in
  run.1 = Val tt
  ∧ Abandoned sim_receiver dl41 (Returned tt) ∈ drop 7 (run_trace run.2)
  ∧ Abandoned sim_receiver dl43 (Returned tt) ∈ drop 7 (run_trace run.2)
  ∧ ∀ r answer, Abandoned r dl42 answer ∉ drop 7 (run_trace run.2).
Proof.
  intros run.
  destruct (resubmitMessage_abandons_non_matching "ns.servicebus.windows.net" dl42
              (Some "orders") None None new_service healthy_world) as [_ Hrun].
  destruct (Hrun (take 6 (run_trace run.2)) sim_receiver 100%nat 10000 [dl41; dl42; dl43]
              (drop 7 (run_trace run.2)))
    as (_ & Habandon & _ & [Hall|(_ & [e He] & _)]);
    [by vm_compute|done| |by vm_compute in He].
  split_and!; [by vm_compute| | |].
  - apply Hall; [|by vm_compute]. apply elem_of_cons. by left.
  - apply Hall; [|by vm_compute]. do 2 (apply elem_of_cons; right). apply elem_of_cons. by left.
  - intros r answer Hin. by destruct (Habandon _ _ _ Hin) as (_ & _ & ?).
Defined.

(** ** The message that is sent *)

Section SentCopy.
Context {W : Type} `{!Broker W}.

Lemma relocateLocked_copy sender receiver targetMessage :
  emits (relocateLocked (W:=W) sender receiver targetMessage)
    (around is_send (λ _ _ x _,
       ∀ s out answer, x = Sent s out answer →
         ∃ messageBody convertedAppProps,
           convertToPlainObject (applicationProperties targetMessage) = Val convertedAppProps
           ∧ out = lockedCopy targetMessage messageBody convertedAppProps)).
Proof.
  unfold relocateLocked.
  eapply (emits_bind_only (λ e, ¬ is_send e)); [solve [only_solve]| |by left..].
  intros messageBody evs1 H1.
  apply emits_bind_lift; [intros convertedAppProps Hprops|intros e _|intros _].
  2,3: left; by rewrite app_nil_r.
  apply emits_bind_log. cbv zeta.
  assert (Forall (λ e, ¬ is_send e) (evs1 ++ [Logged "[ServiceBus] Sending message to main queue/topic"]))
    as Hpre.
  { apply Forall_app. split; [done|]. repeat constructor. simpl. tauto. }
  apply emits_bind_call; [intros []|intros e].
  - eapply (emits_of_only (λ e, ¬ is_send e)); [solve [only_solve]|].
    intros r evs2 H2.
    eapply (around_intro _ _ _ _ (evs1 ++ [_]) _ evs2);
      [by rewrite <- app_assoc|done|done|done|].
    intros s out answer [= _ <- _]. eauto.
  - eapply (around_intro _ _ _ _ (evs1 ++ [_]) _ []);
      [by rewrite <- app_assoc|done|done|done|].
    intros s out answer [= _ <- _]. eauto.
Qed.

Lemma relocateFromPeek_copy client sender receiver queueName topicName subscriptionName
    target peekedTarget :
  emits (relocateFromPeek (W:=W) client sender receiver queueName topicName subscriptionName
                          target peekedTarget)
    (around is_send (λ _ pre x _,
       Forall is_log pre
       ∧ ∀ s out answer, x = Sent s out answer →
           ∃ messageBody convertedAppProps,
             convertToPlainObject (applicationProperties peekedTarget) = Val convertedAppProps
             ∧ out = peekedCopy peekedTarget messageBody convertedAppProps)).
Proof.
  assert (∀ evs, Forall is_log evs → Forall (λ e, ¬ is_send e) evs) as Hlogs.
  { intros evs Hevs. eapply Forall_impl; [exact Hevs|]. intros []; simpl; tauto. }
  unfold relocateFromPeek.
  apply emits_bind_log.
  eapply (emits_bind_only is_log); [solve [only_solve]| |intros ?..].
  2,3: intros; left; constructor; [simpl; tauto|by apply Hlogs].
  intros messageBody evs1 H1.
  apply emits_bind_lift; [intros convertedAppProps Hprops|intros e _|intros _].
  2,3: left; constructor; [simpl; tauto|rewrite app_nil_r; by apply Hlogs].
  apply emits_bind_log. cbv zeta.
  assert (Forall is_log
            (Logged "[ServiceBus] peekLock receive returned 0 messages, using peeked message data directly"
             :: evs1 ++ [Logged "[ServiceBus] Sending message to main queue/topic"]))
    as Hpre.
  { constructor; [done|]. apply Forall_app. split; [done|]. by repeat constructor. }
  apply emits_bind_call; [intros []|intros e].
  - eapply (emits_of_only (λ e, ¬ is_send e)); [solve [only_solve]|].
    intros r evs2 H2.
    eapply (around_intro _ _ _ _ (_ :: evs1 ++ [_]) _ evs2);
      [cbn [app]; by rewrite <- app_assoc|done|by apply Hlogs|done|].
    split; [done|]. intros s out answer [= _ <- _]. eauto.
  - eapply (around_intro _ _ _ _ (_ :: evs1 ++ [_]) _ []);
      [cbn [app]; by rewrite <- app_assoc|done|by apply Hlogs|done|].
    split; [done|]. intros s out answer [= _ <- _]. eauto.
Qed.

Lemma resubmitMessage_copy namespace message queueName topicName subscriptionName :
  emits (resubmitMessage (W:=W) namespace message queueName topicName subscriptionName)
        (around is_send (copy_outcome (sequenceString message))).
Proof.
  set (target := sequenceString message).
  assert (∀ (r : Outcome unit) evs,
            Forall (λ _ : Event, False) evs → around is_send (copy_outcome target) r evs)
    as Hsilent.
  { intros r evs ->%silent_nil. by left. }
  unfold resubmitMessage.
  eapply (emits_bind_only is_log); [by apply getClient_only| |intros; left..].
  2,3: eapply Forall_impl; [eassumption|]; intros []; simpl; tauto.
  intros client evs0 H0.
  eapply (emits_conseq _ (around is_send (copy_outcome target))); cycle 1.
  { intros r evs H. eapply around_prefix; [done| | |exact H].
    - eapply Forall_impl; [exact H0|]. intros []; simpl; tauto.
    - intros pre x post Hc sender out answer Hx.
      destruct (Hc _ _ _ Hx) as (source & mb & props & Hp & [[Hpath ->]|[Hpath ->]]);
        exists source, mb, props; (split; [done|]); [left|right]; (split; [|done]).
      + destruct Hpath as (r' & n & w' & batch & Hin & Hm & Hb).
        exists r', n, w', batch. split_and!; [|done..]. apply elem_of_app. by right.
      + destruct Hpath as (Hnone & r' & n & f & peeked & Hin & Hfind). split.
        * intros r'' n' w' batch Hin'.
          apply elem_of_app in Hin' as [Hin'|Hin']; [|by eapply Hnone].
          rewrite Forall_forall in H0. destruct (H0 _ Hin').
        * exists r', n, f, peeked. split; [|done]. apply elem_of_app. by right. }
  eapply (emits_bind_only (λ _, False)); [solve [only_solve]| |by auto..].
  intros sender ? ->%silent_nil.
  eapply emits_bind;
    [apply receiverFor_peekLock| |intros ? ? [-> _]; by left|intros ? [-> _]; by left].
  intros receiver ? [-> Hmode]. specialize (Hmode receiver eq_refl). cbn [app].
  eapply (emits_try_finally _ _ (around is_send (copy_outcome target))).
  - cbv zeta. fold target.
    apply emits_bind_log, emits_bind_call; [intros peekedMessages|intros e]; cycle 1.
    { left. repeat constructor; simpl; tauto. }
    apply emits_bind_log.
    destruct (length peekedMessages =? 0)%nat.
    { apply emits_throw. left. repeat constructor; simpl; tauto. }
    destruct (find (matchesTarget target) peekedMessages) as [peekedTarget|] eqn:Hfind;
      cycle 1.
    { apply emits_bind_log, emits_throw. left. repeat constructor; simpl; tauto. }
    apply emits_bind_log, emits_bind_log, emits_bind_call; [intros messages|intros e];
      cycle 1.
    { left. repeat constructor; simpl; tauto. }
    apply emits_bind_log.
    eapply emits_bind.
    + instantiate (1 := λ r evs,
        Forall (λ e, match e with Logged _ | Abandoned _ _ _ => True | _ => False end) evs
        ∧ ∀ bound, r = Val bound → bound = lastMatch target messages None).
      destruct (0 <? length messages)%nat eqn:Hlen.
      * eapply emits_conseq; [apply scanReceived_spec|].
        intros r evs [Hevs Hr]. split.
        -- eapply Forall_impl; [exact Hevs|]. by intros [].
        -- intros bound ->. by destruct Hr.
      * apply emits_ret. destruct messages; [|done]. split; [constructor|].
        by intros ? [= <-].
    + intros bound evs1 [Hscan Hbound]. specialize (Hbound bound eq_refl).
      assert (Forall (λ e, ¬ is_send e)
                ([Logged ("[ServiceBus] Looking for message with sequenceNumber: "
                            +:+ show target);
                  Peeked receiver 100 1 (Returned peekedMessages);
                  Logged ("[ServiceBus] Peeked " +:+ pretty (length peekedMessages)
                            +:+ " messages in DLQ");
                  Logged "[ServiceBus] Target message found in peeked messages";
                  Logged "[ServiceBus] Attempting to receive messages with peekLock mode...";
                  Received receiver 100 10000 (Returned messages);
                  Logged ("[ServiceBus] Received " +:+ pretty (length messages)
                            +:+ " messages with peekLock")] ++ evs1)) as Hpre.
      { apply Forall_app. split; [repeat constructor; simpl; tauto|].
        eapply Forall_impl; [exact Hscan|]. intros []; simpl; tauto. }
      destruct bound as [targetMessage|].
      * eapply emits_conseq; [apply relocateLocked_copy|].
        intros r evs2 H2. cbv beta.
        eapply around_prefix; [| exact Hpre| |exact H2].
        { by rewrite <- app_assoc. }
        intros pre x post Hx s out answer ->.
        destruct (Hx s out answer eq_refl) as (messageBody & convertedAppProps & Hp & ->).
        exists targetMessage, messageBody, convertedAppProps. split; [done|]. left.
        split; [|done]. exists receiver, 100%nat, 10000, messages.
        split_and!; [|done..].
        apply elem_of_app. left. apply elem_of_app. left.
        do 5 (apply elem_of_cons; right). apply elem_of_cons. by left.
      * eapply emits_conseq; [apply relocateFromPeek_copy|].
        intros r evs2 H2. cbv beta.
        eapply around_prefix; [| exact Hpre| |exact H2].
        { by rewrite <- app_assoc. }
        intros pre x post [Hlogs Hx] s out answer ->.
        destruct (Hx s out answer eq_refl) as (messageBody & convertedAppProps & Hp & ->).
        exists peekedTarget, messageBody, convertedAppProps. split; [done|]. right.
        split; [|done]. split.
        -- intros rcv n wait batch Hin.
           apply elem_of_app in Hin as [Hin|Hin].
           2: { rewrite Forall_forall in Hlogs. destruct (Hlogs _ Hin). }
           apply elem_of_app in Hin as [Hin|Hin].
           2: { rewrite Forall_forall in Hscan. destruct (Hscan _ Hin). }
           repeat (apply elem_of_cons in Hin as [Hin|Hin]; [try discriminate|]).
           ++ by injection Hin as _ _ _ ->.
           ++ by apply elem_of_nil in Hin.
        -- exists receiver, 100%nat, 1, peekedMessages. split; [|done].
           apply elem_of_app. left. apply elem_of_app. left.
           apply elem_of_cons; right. apply elem_of_cons. by left.
    + intros e evs1 [Hscan _]. left.
      repeat (constructor; [simpl; tauto|]).
      eapply Forall_impl; [exact Hscan|]. intros []; simpl; tauto.
    + intros evs1 [Hscan _]. left.
      repeat (constructor; [simpl; tauto|]).
      eapply Forall_impl; [exact Hscan|]. intros []; simpl; tauto.
  - intros r evs1 _ H1. eapply emits_conseq; [apply cleanup_closes|].
    intros rc evs2 (Hclose & Hrc & Hthrew).
    eapply around_suffix; [| |exact H1].
    { eapply Forall_impl; [exact Hclose|]. intros []; simpl; tauto. }
    done.
  - done.
Qed.

End SentCopy.


(** C2, as the design document states it, fails on the lock path: the
    message sent there carries [x-resubmitted] and
    [x-original-dead-letter-reason] but no [x-original-message-id]; it
    keeps the message id of the source instead. *)
Lemma lock_path_omits_original_message_id :
  let run := simulate healthy_world dl42 in
  let out := lockedCopy dl42 (VStr "{a:1}") (VObject {[ "tenant" := VStr "acme" ]}) in
  run.1 = Val tt
  ∧ Sent sim_sender out (Returned tt) ∈ run_trace run.2
  ∧ Completed sim_receiver dl42 (Returned tt) ∈ run_trace run.2
  ∧ msg_applicationProperties out !! "x-resubmitted" = Some (VBool true)
  ∧ msg_applicationProperties out !! "x-original-dead-letter-reason"
    = Some (VStr "MaxDeliveryCountExceeded")
  ∧ msg_applicationProperties out !! "x-original-message-id" = None
  ∧ msg_messageId out = Some "m1".
Proof.
  split_and!; try by vm_compute.
  - apply (list_elem_of_lookup_2 _ 12). by vm_compute.
  - apply (list_elem_of_lookup_2 _ 14). by vm_compute.
Qed.

(** C2, amended.  A run sends at most one message.  It is the copy of a
    source with the target's sequence number, and its application
    properties are the normalised properties of the source with
    [x-resubmitted] set to true and [x-original-dead-letter-reason] set to
    the source's dead-letter reason.  On the peek path
    [x-original-message-id] is set to the source's message id as well and
    the copy gets the id [resubmit-<id>]; on the lock path the copy keeps
    the source's message id and no [x-original-message-id] is added. *)
Theorem resubmitMessage_sends_amended_copy {W : Type} `{!Broker W}
    (namespace : string) (message : ServiceBusReceivedMessage)
    (queueName topicName subscriptionName : option string)
    (svc : ServiceBusService) (w : W) :
  let run := resubmitMessage namespace message queueName topicName subscriptionName
                             (mkRun svc w []) in
  let target := sequenceString message in
  ∀ before sender out answer after,
    run_trace run.2 = before ++ Sent sender out answer :: after →
    Forall (λ e, ¬ is_send e) before ∧ Forall (λ e, ¬ is_send e) after
    ∧ ∃ source convertedAppProps,
        matchesTarget target source = true
        ∧ convertToPlainObject (applicationProperties source) = Val convertedAppProps
        ∧ msg_applicationProperties out !! "x-resubmitted" = Some (VBool true)
        ∧ msg_applicationProperties out !! "x-original-dead-letter-reason"
          = Some (optional (deadLetterReason source))
        ∧ (∀ k, k ≠ "x-resubmitted" → k ≠ "x-original-dead-letter-reason" →
                k ≠ "x-original-message-id" →
                msg_applicationProperties out !! k = spread convertedAppProps !! k)
        ∧ ((bound_from_batch target source before
            ∧ msg_messageId out = messageId source
            ∧ msg_applicationProperties out !! "x-original-message-id"
              = spread convertedAppProps !! "x-original-message-id")
           ∨ (taken_from_peek target source before
              ∧ msg_messageId out = Some ("resubmit-" +:+ show (messageId source))
              ∧ msg_applicationProperties out !! "x-original-message-id"
                = Some (optional (messageId source)))).
Proof.
  intros run target before sender out answer after Htrace.
  pose proof (emits_run _ _ svc w
    (resubmitMessage_copy namespace message queueName topicName subscriptionName))
    as Hrun.
  fold run target in Hrun.
  assert (Forall (λ e, ¬ is_send e) before ∧ Forall (λ e, ¬ is_send e) after) as [Hb Ha].
  { destruct Hrun as [Hnone|(pre & x & post & Heq & Hx & Hpre & Hpost & _)].
    - rewrite Htrace in Hnone. apply Forall_app in Hnone as [_ Hnone].
      by apply Forall_cons in Hnone as [[] _].
    - rewrite Htrace in Heq.
      by destruct (split_unique is_send pre post before after x (Sent sender out answer)
                     Hpre Hpost I (eq_sym Heq)) as (-> & _ & ->). }
  split_and!; [done..|].
  destruct (around_elim _ _ _ _ Hrun _ _ _ Htrace I sender out answer eq_refl)
    as (source & messageBody & props & Hprops & [[Hpath ->]|[Hpath ->]]);
    exists source, props.
  - assert (matchesTarget target source = true) as Hmatch.
    { destruct Hpath as (r & n & wait & batch & _ & _ & Hbound).
      by destruct (lastMatch_Some _ _ _ _ Hbound) as [?|[_ ?]]. }
    split_and!; [done|done|..]; cbn [lockedCopy msg_applicationProperties msg_messageId].
    + rewrite lookup_insert_ne by done. by rewrite lookup_insert_eq.
    + by rewrite lookup_insert_eq.
    + intros k ? ? ?. by rewrite 2!lookup_insert_ne by done.
    + left. split_and!; [done..|]. by rewrite 2!lookup_insert_ne by done.
  - assert (matchesTarget target source = true) as Hmatch.
    { destruct Hpath as (_ & r & n & from & peeked & _ & Hfind).
      by apply find_some in Hfind as [_ ?]. }
    split_and!; [done|done|..]; cbn [peekedCopy msg_applicationProperties msg_messageId].
    + rewrite 2!lookup_insert_ne by done. by rewrite lookup_insert_eq.
    + rewrite lookup_insert_ne by done. by rewrite lookup_insert_eq.
    + intros k ? ? ?. by rewrite 3!lookup_insert_ne by done.
    + right. split_and!; [done..|]. by rewrite lookup_insert_eq.
Qed.

Lemma resubmitMessage_sends_amended_copy_witness :
  let run := simulate unconfirmed_world dl42 in
  ∃ out, run_trace run.2 !! 10%nat = Some (Sent sim_sender out (Returned tt))
         ∧ msg_applicationProperties out !! "x-resubmitted" = Some (VBool true)
         ∧ Forall (λ e, ¬ is_send e) (drop 11 (run_trace run.2)).
Proof.
  intros run.
  set (out := peekedCopy dl42 (VStr "{a:1}") (VObject {[ "tenant" := VStr "acme" ]})).
  destruct (resubmitMessage_sends_amended_copy "ns.servicebus.windows.net" dl42
              (Some "orders") None None new_service unconfirmed_world
              (take 10 (run_trace run.2)) sim_sender out (Returned tt)
              (drop 11 (run_trace run.2)))
    as (_ & Hafter & source & props & _ & _ & Hresubmitted & _); [by vm_compute|].
  exists out. split_and!; [by vm_compute|exact Hresubmitted|exact Hafter].
Defined.

(** * Further properties *)

(** ** Counting events *)

Lemma count_app f evs1 evs2 : count f (evs1 ++ evs2) = (count f evs1 + count f evs2)%nat.
Proof. induction evs1 as [|e evs1 IH]; [done|]. cbn [app count]. rewrite IH. lia. Qed.

Lemma count_none f evs : Forall (λ e, f e = false) evs → count f evs = 0%nat.
Proof. induction 1 as [|e evs He _ IH]; [done|]. cbn [count]. by rewrite He, IH. Qed.

(** Membership in a trace written out event by event. *)
Ltac elem_inv H :=
  repeat (apply elem_of_cons in H as [H|H]; [try discriminate|]);
  try (by apply elem_of_nil in H).

Ltac elem_solve :=
  solve [repeat first [assumption | apply list_elem_of_here | apply list_elem_of_further]].

(** ** The search loop of [deleteMessage] *)

Section DeleteScan.
Context {W : Type} `{!Broker W}.

Lemma deleteScan_spec receiver target remaining processedCount :
  emits (deleteScan (W:=W) receiver target remaining processedCount)
        (delete_scan_outcome receiver target remaining).
Proof.
  revert processedCount.
  induction remaining as [|remaining IH]; intros processedCount; cbn [deleteScan].
  { apply emits_ret. unfold delete_scan_outcome.
    split_and!; [constructor|done|by intros ????? ?%elem_of_nil|by intros ??? ?%elem_of_nil
                |by intros ??? ?%elem_of_nil|]. right. split; [done|constructor]. }
  apply emits_bind_log, emits_bind_call; [intros messages|intros e]; cycle 1.
  { unfold delete_scan_outcome.
    split_and!; [repeat constructor|cbn; lia|..].
    - intros ????? Hin. elem_inv Hin.
    - intros ??? Hin. elem_inv Hin.
    - intros ??? Hin. elem_inv Hin.
    - apply Exists_cons. right. by apply Exists_cons; left. }
  apply emits_bind_log. destruct messages as [|msg rest].
  { apply emits_ret. unfold delete_scan_outcome.
    split_and!; [repeat constructor|cbn; lia|..].
    - intros ????? Hin. elem_inv Hin.
    - intros ??? Hin. elem_inv Hin.
    - done.
    - left. elem_solve. }
  apply emits_bind_log. fold (matchesTarget target msg).
  destruct (matchesTarget target msg) eqn:Hmsg.
  { apply emits_bind_log, emits_ret. unfold delete_scan_outcome.
    split_and!; [repeat constructor|cbn; lia|..].
    - intros ????? Hin Hm. elem_inv Hin. injection Hin as _ _ _ -> _. congruence.
    - intros ??? Hin. elem_inv Hin.
    - intros ??? Hin. elem_inv Hin.
    - done.
    - exists rest. elem_solve. }
  apply emits_bind_log, emits_bind_call; [intros []|intros e]; cycle 1.
  { unfold delete_scan_outcome.
    split_and!; [repeat constructor; done|cbn; lia|..].
    - intros ????? Hin Hm. elem_inv Hin. injection Hin as _ _ _ -> _.
      exists (Threw e). elem_solve.
    - intros ??? Hin. elem_inv Hin. injection Hin as _ -> _. exists rest. elem_solve.
    - intros ??? Hin. elem_inv Hin.
    - do 5 (apply Exists_cons; right). by apply Exists_cons; left. }
  eapply emits_conseq; [apply IH|].
  intros r evs (Hevs & Hcount & Hab & Hrec & Hempty & Hr). unfold delete_scan_outcome.
  split_and!.
  - repeat (constructor; [done|]). done.
  - cbn. lia.
  - intros r' n wait m rest' Hin Hm.
    repeat (apply elem_of_cons in Hin as [Hin|Hin]; [try discriminate|]).
    + injection Hin as _ _ _ -> _. exists (Returned tt). elem_solve.
    + destruct (Hab _ _ _ _ _ Hin Hm) as [answer ?]. exists answer. elem_solve.
  - intros r' m answer Hin.
    repeat (apply elem_of_cons in Hin as [Hin|Hin]; [try discriminate|]).
    + injection Hin as _ -> _. exists rest. elem_solve.
    + destruct (Hrec _ _ _ Hin) as [rest' ?]. exists rest'. elem_solve.
  - intros r' n wait Hin.
    repeat (apply elem_of_cons in Hin as [Hin|Hin]; [try discriminate|]).
    by eapply Hempty.
  - destruct r as [[m|]|e|]; [| | |done].
    + destruct Hr as [Hm [rest' ?]]. split; [done|]. exists rest'. elem_solve.
    + destruct Hr as [?|[Hc Hq]]; [left; elem_solve|right].
      split; [cbn; lia|]. repeat (constructor; [by intros ? ?|]). done.
    + do 6 (apply Exists_cons; right). done.
Qed.

End DeleteScan.

Section DeleteRun.
Context {W : Type} `{!Broker W}.

Lemma getClient_returns namespace :
  emits (getClient (W:=W) namespace)
        (λ r evs, Forall is_log evs ∧ r ≠ Unmodelled).
Proof.
  eapply emits_conseq.
  - eapply emits_and; [apply (getClient_only is_log); by intros|].
    unfold getClient, newClient.
    eapply (emits_bind _ _ (λ r _, r ≠ Unmodelled) (λ r _, r ≠ Unmodelled));
      [by apply emits_withService| |done..].
    intros this _ _. destruct (clients this !! namespace); [by apply emits_ret|].
    eapply (emits_bind _ _ (λ r _, r ≠ Unmodelled)); [| |done..].
    + destruct (nonempty _);
        (eapply (emits_bind _ _ (λ r _, r ≠ Unmodelled)); [by apply emits_log| |done..];
         intros _ _ _;
         eapply (emits_bind _ _ (λ r _, r ≠ Unmodelled));
           [apply emits_invoke; by intros []| |done..];
         intros _ _ _; by apply emits_withService).
    + intros client _ _.
      eapply (emits_bind _ _ (λ r _, r ≠ Unmodelled)); [by apply emits_withService| |done..].
      intros _ _ _. by apply emits_ret.
  - by intros r evs [? ?].
Qed.

Lemma receiverFor_returns client queueName topicName subscriptionName :
  emits (receiverFor (W:=W) client queueName topicName subscriptionName)
        (λ r evs, evs = []
                  ∧ ((∃ e, r = Exn e)
                     ∨ ∃ receiver, r = Val receiver ∧ receiver_mode receiver = peekLock)).
Proof.
  unfold receiverFor.
  repeat case_match; (apply emits_ret || apply emits_throw); split; eauto.
Qed.

Lemma deleteMessage_spec namespace message queueName topicName subscriptionName :
  emits (deleteMessage (W:=W) namespace message queueName topicName subscriptionName)
        (delete_outcome (sequenceString message)).
Proof.
  set (target := sequenceString message).
  unfold deleteMessage.
  eapply emits_bind;
    [apply getClient_returns| |intros e ? [? _]; left; split; [done|by eexists]
    |by intros ? [_ ?]].
  intros client evs0 [H0 _].
  eapply emits_bind; [apply receiverFor_returns| | |].
  2: { intros e ? [-> _]. left. rewrite app_nil_r. split; [done|by eexists]. }
  2: { by intros ? [_ [[? ?]|(? & ? & _)]]. }
  intros receiver ? [-> [[? ?]|(? & [= <-] & Hmode)]]; [done|]. cbn [app].
  eapply (emits_try_finally _ _
    (λ body evs, ∃ line scan found tail,
       evs = Logged line :: scan ++ tail
       ∧ delete_scan_outcome receiver target 1000 found scan
       ∧ delete_tail receiver found tail body)).
  - cbv zeta. fold target. apply emits_bind_log.
    eapply emits_bind; [apply deleteScan_spec| | |].
    + intros [m|] scan Hscan.
      * apply emits_bind_log, emits_bind_call; [intros []|intros e].
        -- apply emits_log. eexists _, scan, (Val (Some m)), _.
           split; [reflexivity|]. split; [done|]. by exists (Returned tt).
        -- eexists _, scan, (Val (Some m)), _.
           split; [reflexivity|]. split; [done|]. by exists (Threw e).
      * apply emits_throw. eexists _, scan, (Val None), [].
        rewrite !app_nil_r. done.
    + intros e scan Hscan. eexists _, scan, (Exn e), []. rewrite !app_nil_r. done.
    + intros scan Hscan. by destruct Hscan as (_ & _ & _ & _ & _ & ?).
  - intros body evs1 Hbody (line & scan & found & tail & -> & Hscan & Htail).
    apply emits_call. intros closed. right.
    exists receiver, (evs0 ++ [Logged line]), scan, found, tail, body, closed.
    split_and!; [|apply Forall_app; split; [done|by repeat constructor]|done..].
    rewrite <- !app_assoc. cbn [app]. by rewrite <- !app_assoc.
  - intros evs (line & scan & found & tail & -> & Hscan & Htail).
    destruct found as [[m|]|e|]; cbn in Htail.
    + by destruct Htail as ([[]|?] & _ & ?).
    + by destruct Htail.
    + by destruct Htail.
    + done.
Qed.

End DeleteRun.

(** ** [deleteMessage] *)

Lemma logs_no_completion evs : Forall is_log evs → Forall (λ e, ¬ is_completion e) evs.
Proof. intros H. eapply Forall_impl; [exact H|]. intros []; simpl; tauto. Qed.

Lemma scan_no_completion receiver target evs :
  Forall (delete_scan_event receiver target) evs → Forall (λ e, ¬ is_completion e) evs.
Proof. intros H. eapply Forall_impl; [exact H|]. intros []; simpl; tauto. Qed.

Lemma no_completion_split evs before receiver m answer after :
  Forall (λ e, ¬ is_completion e) evs →
  evs ≠ before ++ Completed receiver m answer :: after.
Proof.
  intros Hevs ->. apply Forall_app in Hevs as [_ Hevs].
  by apply Forall_cons in Hevs as [[] _].
Qed.

(** Where the completion stands in a run of [deleteMessage]. *)
Lemma delete_outcome_completion target r evs before receiver m answer after :
  delete_outcome target r evs →
  evs = before ++ Completed receiver m answer :: after →
  ∃ logs scan closed,
    before = logs ++ scan ++ [Logged "[ServiceBus] Completing (deleting) message from DLQ"]
    ∧ after = match answer with
              | Returned _ => [Logged "[ServiceBus] Delete completed successfully"]
              | Threw _ => []
              end ++ [ReceiverClosed receiver closed]
    ∧ Forall is_log logs
    ∧ delete_scan_outcome receiver target 1000 (Val (Some m)) scan
    ∧ r = after_cleanup (settle answer) (settle closed).
Proof.
  intros [[Hlogs _]|(rcv & logs & scan & found & tail & body & closed
                     & -> & Hlogs & Hmode & Hscan & Htail & ->)] Heq.
  { exfalso. revert Heq. by apply no_completion_split, logs_no_completion. }
  pose proof (logs_no_completion _ Hlogs) as Hl.
  pose proof Hscan as (Hs%scan_no_completion & _).
  destruct found as [[m'|]|e|]; cbn in Htail; [| | |done].
  - destruct Htail as (answer' & -> & ->).
    assert (Forall (λ e, ¬ is_completion e)
              (logs ++ scan ++ [Logged "[ServiceBus] Completing (deleting) message from DLQ"]))
      as Hpre.
    { rewrite !Forall_app. split_and!; [done..|]. repeat constructor. simpl. tauto. }
    assert (Forall (λ e, ¬ is_completion e)
              (match answer' with
               | Returned _ => [Logged "[ServiceBus] Delete completed successfully"]
               | Threw _ => []
               end ++ [ReceiverClosed rcv closed])) as Hpost.
    { destruct answer'; repeat constructor; simpl; tauto. }
    destruct (split_unique is_completion _ _ before after (Completed rcv m' answer')
                (Completed receiver m answer) Hpre Hpost I) as (-> & [= -> -> ->] & ->).
    { rewrite <- Heq. rewrite <- !app_assoc. done. }
    by exists logs, scan, closed.
  - destruct Htail as [-> _]. exfalso. revert Heq. apply no_completion_split.
    rewrite !Forall_app. split_and!; [done..|constructor|]. repeat constructor. simpl. tauto.
  - destruct Htail as [-> _]. exfalso. revert Heq. apply no_completion_split.
    rewrite !Forall_app. split_and!; [done..|constructor|]. repeat constructor. simpl. tauto.
Qed.

(** X1.  [deleteMessage] never removes another message than the one it
    was asked to: a [completeMessage] call is only made on a message that
    carries the target's sequence number and that an earlier receive on the
    same receiver handed out; it is the only such call of the run, that
    message is never abandoned, and after it the run only logs and closes
    the receiver. *)
Theorem deleteMessage_completes_only_target {W : Type} `{!Broker W}
    (namespace : string) (message : ServiceBusReceivedMessage)
    (queueName topicName subscriptionName : option string)
    (svc : ServiceBusService) (w : W) :
  let run := deleteMessage namespace message queueName topicName subscriptionName
                           (mkRun svc w []) in
  let target := sequenceString message in
  ∀ before receiver m answer after,
    run_trace run.2 = before ++ Completed receiver m answer :: after →
    matchesTarget target m = true
    ∧ (∃ rest, Received receiver 1 5000 (Returned (m :: rest)) ∈ before)
    ∧ Forall (λ e, ¬ is_completion e) before
    ∧ Forall (λ e, is_log e ∨ is_close e) after
    ∧ (∀ r' answer', Abandoned r' m answer' ∉ run_trace run.2).
Proof.
  intros run target before receiver m answer after Htrace.
  pose proof (emits_run _ _ svc w
    (deleteMessage_spec namespace message queueName topicName subscriptionName)) as Hrun.
  fold run target in Hrun.
  destruct (delete_outcome_completion _ _ _ _ _ _ _ _ Hrun Htrace)
    as (logs & scan & closed & -> & -> & Hlogs & Hscan & Hr).
  destruct Hscan as (Hev & _ & _ & _ & _ & Hm & rest & Hin).
  split_and!.
  - done.
  - exists rest. rewrite !elem_of_app. auto.
  - rewrite !Forall_app. split_and!.
    + by apply logs_no_completion.
    + by eapply scan_no_completion.
    + repeat constructor. simpl. tauto.
  - destruct answer; repeat constructor; simpl; tauto.
  - intros r' answer' Hin'. rewrite Htrace in Hin'.
    apply elem_of_app in Hin' as [Hin'|Hin'].
    + apply elem_of_app in Hin' as [Hin'|Hin'].
      { rewrite Forall_forall in Hlogs. exact (Hlogs _ Hin'). }
      apply elem_of_app in Hin' as [Hin'|Hin']; [|elem_inv Hin'].
      rewrite Forall_forall in Hev. pose proof (Hev _ Hin') as Hx. cbn in Hx.
      destruct Hx as [_ ?]. congruence.
    + destruct answer; cbn in Hin'; elem_inv Hin'.
Qed.

Lemma delete_tail_quiet receiver found tail body :
  delete_tail receiver found tail body →
  Forall (λ e, ¬ is_search e ∧ ¬ is_close e) tail ∧ count is_received tail = 0%nat.
Proof.
  destruct found as [[m|]|e|]; cbn; [| | |done].
  - intros ([[]|e] & -> & _); split; try done; repeat constructor; simpl; tauto.
  - intros [-> _]. split; [constructor|done].
  - intros [-> _]. split; [constructor|done].
Qed.

(** The receives and abandons of a run of [deleteMessage] are those of
    its search. *)
Lemma delete_trace_search logs scan tail receiver closed found body e :
  Forall is_log logs → delete_tail receiver found tail body →
  e ∈ logs ++ scan ++ tail ++ [ReceiverClosed receiver closed] → is_search e → e ∈ scan.
Proof.
  intros Hlogs [Htail _]%delete_tail_quiet Hin He.
  apply elem_of_app in Hin as [Hin|Hin].
  { rewrite Forall_forall in Hlogs. specialize (Hlogs _ Hin). by destruct e. }
  apply elem_of_app in Hin as [Hin|Hin]; [done|].
  apply elem_of_app in Hin as [Hin|Hin].
  { rewrite Forall_forall in Htail. by destruct (Htail _ Hin). }
  elem_inv Hin. by subst e.
Qed.

(** X2.  [deleteMessage] returns normally exactly when it has completed
    a message and closed its receiver, both calls answered without error;
    a run never leaves the embedding. *)
Theorem deleteMessage_returns_iff_deleted {W : Type} `{!Broker W}
    (namespace : string) (message : ServiceBusReceivedMessage)
    (queueName topicName subscriptionName : option string)
    (svc : ServiceBusService) (w : W) :
  let run := deleteMessage namespace message queueName topicName subscriptionName
                           (mkRun svc w []) in
  run.1 ≠ Unmodelled
  ∧ (run.1 = Val tt ↔
     ∃ receiver m, Completed receiver m (Returned tt) ∈ run_trace run.2
                   ∧ ReceiverClosed receiver (Returned tt) ∈ run_trace run.2).
Proof.
  intros run.
  pose proof (emits_run _ _ svc w
    (deleteMessage_spec namespace message queueName topicName subscriptionName)) as Hrun.
  fold run in Hrun. split; [|split].
  - destruct Hrun as [[_ [e ->]]|(rcv & logs & scan & found & tail & body & closed
                                  & _ & _ & _ & _ & Htail & ->)]; [done|].
    destruct found as [[m|]|e|]; cbn in Htail; [| | |done].
    + destruct Htail as ([[]|e] & _ & ->), closed as [[]|e']; done.
    + destruct Htail as [_ ->], closed as [[]|e']; done.
    + destruct Htail as [_ ->], closed as [[]|e']; done.
  - intros Hval.
    destruct Hrun as [[_ [e He]]|(rcv & logs & scan & found & tail & body & closed
                                  & Htrace & _ & _ & _ & Htail & Hr)]; [congruence|].
    rewrite Hval in Hr.
    destruct found as [[m|]|e|]; cbn in Htail; [| | |done].
    + destruct Htail as ([[]|e] & -> & ->), closed as [[]|e']; try done.
      exists rcv, m. rewrite Htrace, !elem_of_app. split.
      * right. right. left. elem_solve.
      * right. right. right. elem_solve.
    + destruct Htail as [_ ->], closed as [[]|e']; done.
    + destruct Htail as [_ ->], closed as [[]|e']; done.
  - intros (receiver & m & Hdone & Hclosed).
    apply list_elem_of_split in Hdone as (before & after & Htrace).
    destruct (delete_outcome_completion _ _ _ _ _ _ _ _ Hrun Htrace)
      as (logs & scan & closed & -> & -> & Hlogs & Hscan & ->).
    rewrite Htrace in Hclosed. cbn [app] in Hclosed.
    apply elem_of_app in Hclosed as [Hclosed|Hclosed].
    + exfalso. apply elem_of_app in Hclosed as [Hclosed|Hclosed].
      { rewrite Forall_forall in Hlogs. exact (Hlogs _ Hclosed). }
      apply elem_of_app in Hclosed as [Hclosed|Hclosed]; [|elem_inv Hclosed].
      destruct Hscan as [Hev _]. rewrite Forall_forall in Hev. exact (Hev _ Hclosed).
    + elem_inv Hclosed. by injection Hclosed as <-.
Qed.

(** X3.  When a receive of the search comes back empty, [deleteMessage]
    completes nothing and fails: with the not-found error, or with the
    error of [close] when closing the receiver throws. *)
Theorem deleteMessage_not_found {W : Type} `{!Broker W}
    (namespace : string) (message : ServiceBusReceivedMessage)
    (queueName topicName subscriptionName : option string)
    (svc : ServiceBusService) (w : W) :
  let run := deleteMessage namespace message queueName topicName subscriptionName
                           (mkRun svc w []) in
  ∀ receiver n wait,
    Received receiver n wait (Returned []) ∈ run_trace run.2 →
    Forall (λ e, ¬ is_completion e) (run_trace run.2)
    ∧ ∃ e, run.1 = Exn e
           ∧ (e = deleteNotFound ∨ Exists (close_threw e) (run_trace run.2)).
Proof.
  intros run receiver n wait Hin.
  pose proof (emits_run _ _ svc w
    (deleteMessage_spec namespace message queueName topicName subscriptionName)) as Hrun.
  fold run in Hrun.
  destruct Hrun as [[Hlogs _]|(rcv & logs & scan & found & tail & body & closed
                               & Htrace & Hlogs & _ & Hscan & Htail & Hr)].
  { rewrite Forall_forall in Hlogs. destruct (Hlogs _ Hin). }
  rewrite Htrace in Hin.
  apply (delete_trace_search _ _ _ _ _ _ _ _ Hlogs Htail) in Hin; [|done].
  pose proof Hscan as (Hev & _ & _ & _ & Hempty & _).
  rewrite (Hempty _ _ _ Hin) in Htail. destruct Htail as [-> ->].
  rewrite Htrace, Hr. split.
  - rewrite !Forall_app. split_and!; [by apply logs_no_completion|
      by eapply scan_no_completion|constructor|repeat constructor; simpl; tauto].
  - destruct closed as [[]|e]; cbn.
    + exists deleteNotFound. split; [done|by left].
    + exists e. split; [done|right].
      rewrite !Exists_app. right. right. by apply Exists_cons; left.
Qed.

Lemma deleteMessage_not_found_witness :
  let run := deleteMessage "ns.servicebus.windows.net" dl42 (Some "orders") None None
                           (mkRun new_service (mkSim [] [] []) []) in
  run.1 = Exn deleteNotFound ∧ Forall (λ e, ¬ is_completion e) (run_trace run.2).
Proof.
  intros run.
  destruct (deleteMessage_not_found "ns.servicebus.windows.net" dl42 (Some "orders") None None
              new_service (mkSim [] [] []) sim_receiver 1 5000) as (Hnone & _).
  - apply (list_elem_of_lookup_2 _ 3). by vm_compute.
  - split; [by vm_compute|exact Hnone].
Defined.

(** X4.  The search of [deleteMessage] is bounded and leaves no message
    it looked at locked: it receives at most 1000 times, each time one
    message with a wait of five seconds from the dead-letter sub-queue in
    peek-lock mode; it calls abandon for every received message that does
    not carry the target's sequence number, and only for such messages;
    and it neither peeks nor sends. *)
Theorem deleteMessage_bounded_search {W : Type} `{!Broker W}
    (namespace : string) (message : ServiceBusReceivedMessage)
    (queueName topicName subscriptionName : option string)
    (svc : ServiceBusService) (w : W) :
  let run := deleteMessage namespace message queueName topicName subscriptionName
                           (mkRun svc w []) in
  let target := sequenceString message in
  (count is_received (run_trace run.2) ≤ 1000)%nat
  ∧ (∀ r n wait answer, Received r n wait answer ∈ run_trace run.2 →
       n = 1%nat ∧ wait = 5000 ∧ receiver_mode r = peekLock)
  ∧ (∀ r n wait m rest, Received r n wait (Returned (m :: rest)) ∈ run_trace run.2 →
       matchesTarget target m = false → ∃ answer, Abandoned r m answer ∈ run_trace run.2)
  ∧ (∀ r m answer, Abandoned r m answer ∈ run_trace run.2 →
       matchesTarget target m = false
       ∧ ∃ rest, Received r 1 5000 (Returned (m :: rest)) ∈ run_trace run.2)
  ∧ Forall (λ e, ¬ is_send e ∧ ¬ is_peek e) (run_trace run.2).
Proof.
  intros run target.
  pose proof (emits_run _ _ svc w
    (deleteMessage_spec namespace message queueName topicName subscriptionName)) as Hrun.
  fold run target in Hrun.
  destruct Hrun as [[Hlogs _]|(rcv & logs & scan & found & tail & body & closed
                               & Htrace & Hlogs & Hmode & Hscan & Htail & Hr)].
  { rewrite Forall_forall in Hlogs. split_and!.
    - rewrite count_none; [lia|]. apply Forall_forall. intros e He.
      specialize (Hlogs _ He). by destruct e.
    - intros r n wait answer Hin. destruct (Hlogs _ Hin).
    - intros r n wait m rest Hin. destruct (Hlogs _ Hin).
    - intros r m answer Hin. destruct (Hlogs _ Hin).
    - apply Forall_forall. intros e He. specialize (Hlogs _ He).
      destruct e; simpl in *; tauto. }
  pose proof Hscan as (Hev & Hcount & Hab & Hrec & _ & _).
  pose proof (delete_tail_quiet _ _ _ _ Htail) as [Hquiet Htc].
  assert (∀ e, e ∈ scan → e ∈ run_trace run.2) as Hsub.
  { intros e He. rewrite Htrace, !elem_of_app. auto. }
  rewrite Forall_forall in Hev.
  split_and!.
  - rewrite Htrace, !count_app, Htc. rewrite (count_none _ logs); [cbn; lia|].
    eapply Forall_impl; [exact Hlogs|]. by intros [].
  - intros r n wait answer Hin. rewrite Htrace in Hin.
    apply (delete_trace_search _ _ _ _ _ _ _ _ Hlogs Htail) in Hin; [|done].
    by destruct (Hev _ Hin) as (-> & -> & ->).
  - intros r n wait m rest Hin Hm. rewrite Htrace in Hin.
    apply (delete_trace_search _ _ _ _ _ _ _ _ Hlogs Htail) in Hin; [|done].
    destruct (Hev _ Hin) as (-> & _).
    destruct (Hab _ _ _ _ _ Hin Hm) as [answer ?]. exists answer. by apply Hsub.
  - intros r m answer Hin. rewrite Htrace in Hin.
    apply (delete_trace_search _ _ _ _ _ _ _ _ Hlogs Htail) in Hin; [|done].
    destruct (Hev _ Hin) as (-> & ?). split; [done|].
    destruct (Hrec _ _ _ Hin) as [rest ?]. exists rest. by apply Hsub.
  - rewrite Htrace, !Forall_app. split_and!.
    + eapply Forall_impl; [exact Hlogs|]. intros []; simpl; tauto.
    + apply Forall_forall. intros e He. specialize (Hev _ He).
      destruct e; simpl in *; tauto.
    + destruct found as [[m|]|e|]; cbn in Htail; [| | |done].
      * destruct Htail as ([[]|e] & -> & _); repeat constructor; simpl; tauto.
      * destruct Htail as [-> _]. constructor.
      * destruct Htail as [-> _]. constructor.
    + repeat constructor; simpl; tauto.
Qed.

Lemma deleteMessage_completes_only_target_witness :
  let run := deleteMessage "ns.servicebus.windows.net" dl41 (Some "orders") None None
                           (mkRun new_service healthy_world []) in
  run.1 = Val tt
  ∧ run_trace run.2 !! 8%nat = Some (Completed sim_receiver dl41 (Returned tt))
  ∧ (∃ rest, Received sim_receiver 1 5000 (Returned (dl41 :: rest))
             ∈ take 8 (run_trace run.2))
  ∧ (sim_deadLetter (run_world run.2)).*1 = [dl42; dl43].
Proof.
  intros run.
  destruct (deleteMessage_completes_only_target "ns.servicebus.windows.net" dl41
              (Some "orders") None None new_service healthy_world
              (take 8 (run_trace run.2)) sim_receiver dl41 (Returned tt)
              (drop 9 (run_trace run.2))) as (_ & Hreceived & _); [by vm_compute|].
  split_and!; [by vm_compute|by vm_compute|exact Hreceived|by vm_compute].
Defined.

(** ** [purgeDeadLetterQueue] *)

Lemma batches_app evs1 evs2 : batches (evs1 ++ evs2) = batches evs1 ++ batches evs2.
Proof.
  induction evs1 as [|e evs1 IH]; [done|].
  destruct e as [| ? ? ? [?|?] | | | | | |]; cbn [app batches]; by rewrite IH.
Qed.

Lemma completions_app evs1 evs2 :
  completions (evs1 ++ evs2) = completions evs1 ++ completions evs2.
Proof.
  induction evs1 as [|e evs1 IH]; [done|].
  destruct e as [| | | ? ? [?|?] | | | |]; cbn [app completions]; by rewrite IH.
Qed.

Lemma logs_silent evs :
  Forall is_log evs →
  batches evs = [] ∧ completions evs = [] ∧ count is_fruitful evs = 0%nat
  ∧ count is_received evs = 0%nat.
Proof.
  induction 1 as [|e evs He _ (IH1 & IH2 & IH3 & IH4)]; [done|].
  destruct e; try done.
Qed.

Section PurgeLoop.
Context {W : Type} `{!Broker W}.

Lemma completeAll_spec receiver messages total :
  emits (completeAll (W:=W) receiver messages total)
        (complete_all_outcome receiver messages total).
Proof.
  revert total. induction messages as [|message rest IH]; intros total; cbn [completeAll].
  { apply emits_ret. unfold complete_all_outcome.
    split_and!; [constructor|done|done|done|done|cbn; lia|constructor]. }
  apply emits_bind_call; [intros []|intros e].
  - eapply emits_conseq; [apply IH|].
    intros r evs (Hevs & Hb & Hc & Hp & Hr). unfold complete_all_outcome.
    cbn [batches completions count is_fruitful].
    split_and!; [by constructor|done|done|by apply (prefix_cons message)|].
    destruct r as [n|e|]; [| |done].
    + destruct Hr as (-> & -> & Hq). split_and!; [done|cbn; lia|].
      constructor; [by intros [? ?]|done].
    + by apply Exists_cons; right.
  - unfold complete_all_outcome.
    split_and!; [by repeat constructor|done|done|apply prefix_nil|].
    by apply Exists_cons; left.
Qed.

Lemma purgeLoop_spec receiver fuel total :
  emits (purgeLoop (W:=W) fuel receiver total) (purge_loop_outcome receiver fuel total).
Proof.
  revert total. induction fuel as [|fuel IH]; intros total; cbn [purgeLoop].
  { apply emits_lift. unfold purge_loop_outcome. by split_and!. }
  apply emits_bind_call; [intros messages|intros e]; cycle 1.
  { unfold purge_loop_outcome.
    split_and!; [by repeat constructor|cbn; lia|done|]. by apply Exists_cons; left. }
  eapply emits_bind; [apply completeAll_spec| | |].
  - intros n evs1 (Hevs1 & Hb1 & Hc1 & Hp1 & Hm1 & -> & Hq1).
    destruct messages as [|m rest]; cbn [length Nat.ltb Nat.leb].
    + apply emits_ret. rewrite app_nil_r. unfold purge_loop_outcome.
      cbn [batches completions count is_fruitful]. rewrite Hb1, Hm1, Hc1.
      split_and!; [by constructor|lia|done|cbn; lia|done|done|].
      constructor; [by intros [? ?]|done].
    + eapply emits_conseq; [apply IH|].
      intros r evs2 (Hevs2 & Hc2 & Hp2 & Hr). unfold purge_loop_outcome.
      cbn [app batches completions count is_fruitful].
      rewrite batches_app, completions_app, count_app, Hb1, Hm1, Hc1.
      cbn [app concat]. split_and!.
      * constructor; [done|]. by apply Forall_app.
      * lia.
      * exact (prefix_app (m :: rest) _ _ Hp2).
      * destruct r as [n'|e|].
        -- destruct Hr as (-> & Heq & Hlast & Hq2). split_and!.
           ++ cbn [length]. rewrite length_app. lia.
           ++ by rewrite Heq.
           ++ destruct (batches evs2); [done|]. done.
           ++ constructor; [by intros [? ?]|]. by apply Forall_app.
        -- apply Exists_cons. right. apply Exists_app. by right.
        -- destruct Hr as [<- Heq]. split; [lia|by rewrite Heq].
  - intros e evs1 (Hevs1 & Hb1 & Hc1 & Hp1 & Hx). unfold purge_loop_outcome.
    cbn [batches completions count is_fruitful]. rewrite Hb1, Hc1. cbn [concat].
    rewrite app_nil_r.
    split_and!; [by constructor|destruct messages; lia|done|by apply Exists_cons; right].
  - by intros evs1 (_ & _ & _ & _ & ?).
Qed.

Lemma purgeDeadLetterQueue_spec fuel namespace queueName topicName subscriptionName :
  emits (purgeDeadLetterQueue (W:=W) fuel namespace queueName topicName subscriptionName)
        (purge_outcome fuel).
Proof.
  unfold purgeDeadLetterQueue.
  eapply emits_bind;
    [apply getClient_returns| |intros e ? [? _]; left; split; [done|by eexists]
    |by intros ? [_ ?]].
  intros client evs0 [H0 _].
  eapply emits_bind; [apply receiverFor_returns| | |].
  2: { intros e ? [-> _]. left. rewrite app_nil_r. split; [done|by eexists]. }
  2: { by intros ? [_ [[? ?]|(? & ? & _)]]. }
  intros receiver ? [-> [[? ?]|(? & [= <-] & Hmode)]]; [done|]. cbn [app].
  eapply emits_try_finally; [apply purgeLoop_spec| |].
  - intros body loop Hbody Hloop. apply emits_call. intros closed. right.
    exists receiver, evs0, loop, body. split_and!; [done..|]. right.
    split; [done|]. by exists closed.
  - intros loop Hloop. right. exists receiver, evs0, loop, Unmodelled.
    split_and!; [done..|]. by left.
Qed.

End PurgeLoop.

Lemma purge_trace_projections logs loop receiver closed :
  Forall is_log logs →
  batches (logs ++ loop ++ [ReceiverClosed receiver closed]) = batches loop
  ∧ completions (logs ++ loop ++ [ReceiverClosed receiver closed]) = completions loop
  ∧ count is_fruitful (logs ++ loop ++ [ReceiverClosed receiver closed])
    = count is_fruitful loop.
Proof.
  intros (Hb & Hc & Hf & _)%logs_silent.
  rewrite !batches_app, !completions_app, !count_app, Hb, Hc, Hf. cbn.
  rewrite !app_nil_r. split_and!; [done..|lia].
Qed.

(** X5.  When [purgeDeadLetterQueue] returns a number, that number is
    the number of messages whose completion the broker accepted; these are
    exactly the messages of the batches received, in the order received;
    the last batch received was empty and no broker call threw. *)
Theorem purgeDeadLetterQueue_counts_completions {W : Type} `{!Broker W}
    (fuel : nat) (namespace : string) (queueName topicName subscriptionName : option string)
    (svc : ServiceBusService) (w : W) :
  let run := purgeDeadLetterQueue fuel namespace queueName topicName subscriptionName
                                  (mkRun svc w []) in
  ∀ n, run.1 = Val n →
    n = length (completions (run_trace run.2))
    ∧ completions (run_trace run.2) = concat (batches (run_trace run.2))
    ∧ last (batches (run_trace run.2)) = Some []
    ∧ Forall (λ e, ¬ threw e) (run_trace run.2).
Proof.
  intros run n Hn.
  pose proof (emits_run _ _ svc w
    (purgeDeadLetterQueue_spec fuel namespace queueName topicName subscriptionName)) as Hrun.
  fold run in Hrun.
  destruct Hrun as [[_ [e He]]|(receiver & logs & loop & body & Hmode & Hlogs & Hloop
                                & [(_ & Hr & _)|(_ & closed & Htrace & Hr)])];
    [congruence..|].
  rewrite Hn in Hr.
  destruct body as [n'|e|], closed as [[]|e']; try done. injection Hr as ->.
  destruct Hloop as (_ & _ & _ & -> & Heq & Hlast & Hq).
  destruct (purge_trace_projections logs loop receiver (Returned ()) Hlogs) as (Hb & Hc & _).
  rewrite Htrace, Hb, Hc. split_and!; [done..|].
  rewrite !Forall_app. split_and!; [|done|].
  - eapply Forall_impl; [exact Hlogs|]. intros [] ? [? ?]; done.
  - repeat constructor. by intros [? ?].
Qed.

Lemma purgeDeadLetterQueue_counts_completions_witness :
  let run := purgeDeadLetterQueue 5 "ns.servicebus.windows.net" (Some "orders") None None
                                  (mkRun new_service healthy_world []) in
  run.1 = Val 3%nat
  ∧ completions (run_trace run.2) = concat (batches (run_trace run.2))
  ∧ concat (batches (run_trace run.2)) = [dl41; dl42; dl43]
  ∧ sim_deadLetter (run_world run.2) = [].
Proof.
  intros run.
  destruct (purgeDeadLetterQueue_counts_completions 5 "ns.servicebus.windows.net"
              (Some "orders") None None new_service healthy_world 3%nat) as (_ & Heq & _);
    [by vm_compute|].
  split_and!; [by vm_compute|exact Heq|by vm_compute|by vm_compute].
Defined.

(** X6.  In every run, [purgeDeadLetterQueue] completes only messages
    that it received, in the order it received them; it receives in
    batches of up to 100 with a wait of five seconds from a peek-lock
    receiver; it never abandons, sends or peeks; and when it throws, a
    broker call threw that error, or no receiver could be made. *)
Theorem purgeDeadLetterQueue_completes_received {W : Type} `{!Broker W}
    (fuel : nat) (namespace : string) (queueName topicName subscriptionName : option string)
    (svc : ServiceBusService) (w : W) :
  let run := purgeDeadLetterQueue fuel namespace queueName topicName subscriptionName
                                  (mkRun svc w []) in
  completions (run_trace run.2) `prefix_of` concat (batches (run_trace run.2))
  ∧ Forall (λ e, match e with
                 | Received r n wait _ => n = 100%nat ∧ wait = 5000 ∧ receiver_mode r = peekLock
                 | Abandoned _ _ _ | Sent _ _ _ | Peeked _ _ _ _ => False
                 | _ => True
                 end) (run_trace run.2)
  ∧ (∀ e, run.1 = Exn e →
          Exists (call_threw e) (run_trace run.2) ∨ Forall is_log (run_trace run.2)).
Proof.
  intros run.
  pose proof (emits_run _ _ svc w
    (purgeDeadLetterQueue_spec fuel namespace queueName topicName subscriptionName)) as Hrun.
  fold run in Hrun.
  destruct Hrun as [[Hlogs _]|(receiver & logs & loop & body & Hmode & Hlogs & Hloop & Hend)].
  { destruct (logs_silent _ Hlogs) as (-> & -> & _). split_and!; [done| |by right].
    eapply Forall_impl; [exact Hlogs|]. by intros []. }
  destruct Hloop as (Hevs & _ & Hprefix & Hbody).
  assert (Forall (λ e, match e with
                       | Received r n wait _ =>
                           n = 100%nat ∧ wait = 5000 ∧ receiver_mode r = peekLock
                       | Abandoned _ _ _ | Sent _ _ _ | Peeked _ _ _ _ => False
                       | _ => True
                       end) (logs ++ loop)) as Hshape.
  { apply Forall_app. split.
    - eapply Forall_impl; [exact Hlogs|]. by intros [].
    - eapply Forall_impl; [exact Hevs|]. intros []; try done. by intros (-> & -> & ->). }
  destruct Hend as [(-> & Hr & Htrace)|(Hne & closed & Htrace & Hr)].
  - destruct (logs_silent _ Hlogs) as (Hb & Hc & _).
    rewrite Htrace, batches_app, completions_app, Hb, Hc. cbn [app].
    split_and!; [done|done|]. intros e He. congruence.
  - destruct (purge_trace_projections logs loop receiver closed Hlogs) as (Hb & Hc & _).
    rewrite Htrace, Hb, Hc. split_and!; [done| |].
    + rewrite app_assoc. apply Forall_app. split; [done|]. by repeat constructor.
    + intros e He. left. rewrite Hr in He. rewrite !Exists_app.
      destruct body as [n|e'|], closed as [[]|e'']; try done; injection He as ->.
      * right. right. by apply Exists_cons; left.
      * right. by left.
      * right. right. by apply Exists_cons; left.
Qed.

Section PurgeFuel.
Context {W : Type} `{!Broker W}.

Lemma bind_mono {A B} (m : M W A) (f g : A → M W B) (s : Run W) :
  (bind m g s).1 ≠ Unmodelled →
  (∀ a s', (g a s').1 ≠ Unmodelled → f a s' = g a s') →
  bind m f s = bind m g s.
Proof. unfold bind. destruct (m s) as [[a|e|] s']; auto. Qed.

Lemma try_finally_mono {A} (body body' : M W A) (cleanup : M W unit) (s : Run W) :
  (try_finally body' cleanup s).1 ≠ Unmodelled →
  ((body' s).1 ≠ Unmodelled → body s = body' s) →
  try_finally body cleanup s = try_finally body' cleanup s.
Proof.
  unfold try_finally. intros Hne Heq.
  destruct (body' s) as [[a|e|] s'] eqn:Hb; cbn in *; [by rewrite Heq..|done].
Qed.

Lemma purgeLoop_mono fuel fuel' receiver total (s : Run W) :
  (fuel ≤ fuel')%nat → (purgeLoop fuel receiver total s).1 ≠ Unmodelled →
  purgeLoop fuel' receiver total s = purgeLoop fuel receiver total s.
Proof.
  revert fuel' total s. induction fuel as [|fuel IH]; intros fuel' total s Hle Hne; [done|].
  destruct fuel' as [|fuel']; [lia|]. cbn [purgeLoop] in *.
  apply bind_mono; [done|]. intros messages s1 H1.
  apply bind_mono; [done|]. intros total' s2 H2.
  destruct (0 <? length messages)%nat; [|done]. apply IH; [lia|done].
Qed.

End PurgeFuel.

(** The cut-off of the embedding of [purgeDeadLetterQueue] is harmless: a
    run is cut off only after [fuel] receives that each handed back
    messages, and a run that is not cut off is the same for every larger
    [fuel]. *)
Lemma purgeDeadLetterQueue_fuel {W : Type} `{!Broker W}
    (fuel : nat) (namespace : string) (queueName topicName subscriptionName : option string)
    (svc : ServiceBusService) (w : W) :
  let run := purgeDeadLetterQueue fuel namespace queueName topicName subscriptionName
                                  (mkRun svc w []) in
  (count is_fruitful (run_trace run.2) ≤ fuel)%nat
  ∧ (run.1 = Unmodelled → count is_fruitful (run_trace run.2) = fuel)
  ∧ (run.1 ≠ Unmodelled →
     ∀ fuel', (fuel ≤ fuel')%nat →
       purgeDeadLetterQueue fuel' namespace queueName topicName subscriptionName
                            (mkRun svc w []) = run).
Proof.
  intros run.
  pose proof (emits_run _ _ svc w
    (purgeDeadLetterQueue_spec fuel namespace queueName topicName subscriptionName)) as Hrun.
  fold run in Hrun. split_and!.
  - destruct Hrun as [[Hlogs _]|(receiver & logs & loop & body & Hmode & Hlogs & Hloop & Hend)].
    { destruct (logs_silent _ Hlogs) as (_ & _ & -> & _). lia. }
    destruct Hloop as (_ & Hcount & _).
    destruct (logs_silent _ Hlogs) as (_ & _ & Hf & _).
    destruct Hend as [(_ & _ & ->)|(_ & closed & -> & _)];
      rewrite !count_app, Hf; cbn; lia.
  - intros Hcut.
    destruct Hrun as [[_ [e He]]|(receiver & logs & loop & body & Hmode & Hlogs & Hloop & Hend)];
      [congruence|].
    destruct (logs_silent _ Hlogs) as (_ & _ & Hf & _).
    destruct Hend as [(-> & _ & ->)|(Hne & closed & _ & Hr)].
    + destruct Hloop as (_ & _ & _ & <- & _). rewrite count_app, Hf. lia.
    + rewrite Hcut in Hr. destruct body, closed as [[]|?]; done.
  - intros Hne fuel' Hle. unfold run, purgeDeadLetterQueue.
    apply bind_mono; [done|]. intros client s1 H1.
    apply bind_mono; [done|]. intros receiver s2 H2.
    apply try_finally_mono; [done|]. by apply purgeLoop_mono.
Qed.

(** ** Closing *)

Section Closing.
Context {W : Type} `{!Broker W}.



End Closing.




Section ResubmitClosing.
Context {W : Type} `{!Broker W}.


End ResubmitClosing.


(** ** The body and the header fields of the copy *)

Lemma convert_passes_primitive v :
  negb (is_nullish v) && typeof_object v && negb (isBuffer v) = false →
  convertToPlainObject v = Val v.
Proof. by destruct v. Qed.

Section CopyBody.
Context {W : Type} `{!Broker W}.

Lemma convertBody_spec (source : ServiceBusReceivedMessage) :
  emits (convertBody (W:=W) (body source))
    (λ r evs, Forall is_log evs
              ∧ match r with
                | Val messageBody => body_outcome source messageBody evs
                | Exn _ => False
                | Unmodelled => True
                end).
Proof.
  unfold convertBody.
  destruct (negb (is_nullish (body source)) && typeof_object (body source)
            && negb (isBuffer (body source))) eqn:Hguard.
  - destruct (convertToPlainObject (body source)) as [converted|e|] eqn:Hc.
    + apply emits_bind_log, emits_ret. split; [by repeat constructor|].
      split; [intros b Hb; congruence|intros e He; congruence].
    + apply emits_bind_log, emits_ret. split; [by repeat constructor|].
      split; [intros b Hb; congruence|].
      intros e' He. split; [done|]. replace e' with e by congruence. apply list_elem_of_here.
    + by apply emits_lift.
  - apply emits_ret. split; [constructor|].
    pose proof (convert_passes_primitive _ Hguard) as Hc.
    split; [intros b Hb; congruence|intros e He; congruence].
Qed.

Lemma body_outcome_mono source messageBody (pre pre' : list Event) :
  (∀ e, e ∈ pre → e ∈ pre') →
  body_outcome source messageBody pre → body_outcome source messageBody pre'.
Proof.
  intros Hsub [Hval Hexn]. split; [done|]. intros e He.
  destruct (Hexn e He) as [-> Hin]. auto.
Qed.

Lemma body_outcome_prefix source messageBody evs1 evs2 evs3 :
  body_outcome source messageBody evs2 →
  body_outcome source messageBody (evs1 ++ evs2 ++ evs3).
Proof.
  intros [Hval Hexn]. split; [done|]. intros e He.
  destruct (Hexn e He) as [-> Hin]. split; [done|]. rewrite !elem_of_app. auto.
Qed.

Lemma relocateLocked_body sender receiver targetMessage :
  emits (relocateLocked (W:=W) sender receiver targetMessage)
    (around is_send (λ _ pre x _,
       ∀ s out answer, x = Sent s out answer →
         ∃ messageBody convertedAppProps,
           body_outcome targetMessage messageBody pre
           ∧ out = lockedCopy targetMessage messageBody convertedAppProps)).
Proof.
  assert (∀ evs, Forall is_log evs → Forall (λ e, ¬ is_send e) evs) as Hlogs.
  { intros evs Hevs. eapply Forall_impl; [exact Hevs|]. intros []; simpl; tauto. }
  unfold relocateLocked.
  eapply emits_bind; [apply convertBody_spec| |by intros ? ? [_ []]|].
  2: { intros evs [Hevs _]. left. by apply Hlogs. }
  intros messageBody evs1 [H1 Hbody].
  apply emits_bind_lift; [intros convertedAppProps Hprops|intros e _|intros _].
  2,3: left; rewrite app_nil_r; by apply Hlogs.
  apply emits_bind_log. cbv zeta.
  assert (Forall (λ e, ¬ is_send e)
            (evs1 ++ [Logged "[ServiceBus] Sending message to main queue/topic"])) as Hpre.
  { apply Hlogs, Forall_app. split; [done|]. by repeat constructor. }
  assert (body_outcome targetMessage messageBody
            (evs1 ++ [Logged "[ServiceBus] Sending message to main queue/topic"])) as Hb.
  { apply (body_outcome_prefix _ _ [] evs1 [_] Hbody). }
  apply emits_bind_call; [intros []|intros e].
  - eapply (emits_of_only (λ e, ¬ is_send e)); [solve [only_solve]|].
    intros r evs2 H2.
    eapply (around_intro _ _ _ _ (evs1 ++ [_]) _ evs2);
      [by rewrite <- app_assoc|done|done|done|].
    intros s out answer [= _ <- _]. eauto.
  - eapply (around_intro _ _ _ _ (evs1 ++ [_]) _ []);
      [by rewrite <- app_assoc|done|done|done|].
    intros s out answer [= _ <- _]. eauto.
Qed.

Lemma relocateFromPeek_body client sender receiver queueName topicName subscriptionName
    target peekedTarget :
  emits (relocateFromPeek (W:=W) client sender receiver queueName topicName subscriptionName
                          target peekedTarget)
    (around is_send (λ _ pre x _,
       Forall is_log pre
       ∧ ∀ s out answer, x = Sent s out answer →
           ∃ messageBody convertedAppProps,
             body_outcome peekedTarget messageBody pre
             ∧ out = peekedCopy peekedTarget messageBody convertedAppProps)).
Proof.
  assert (∀ evs, Forall is_log evs → Forall (λ e, ¬ is_send e) evs) as Hlogs.
  { intros evs Hevs. eapply Forall_impl; [exact Hevs|]. intros []; simpl; tauto. }
  unfold relocateFromPeek.
  apply emits_bind_log.
  eapply emits_bind; [apply convertBody_spec| |by intros ? ? [_ []]|].
  2: { intros evs [Hevs _]. left. constructor; [simpl; tauto|by apply Hlogs]. }
  intros messageBody evs1 [H1 Hbody].
  apply emits_bind_lift; [intros convertedAppProps Hprops|intros e _|intros _].
  2,3: left; constructor; [simpl; tauto|rewrite app_nil_r; by apply Hlogs].
  apply emits_bind_log. cbv zeta.
  assert (Forall is_log
            (Logged "[ServiceBus] peekLock receive returned 0 messages, using peeked message data directly"
             :: evs1 ++ [Logged "[ServiceBus] Sending message to main queue/topic"]))
    as Hpre.
  { constructor; [done|]. apply Forall_app. split; [done|]. by repeat constructor. }
  assert (body_outcome peekedTarget messageBody
            (Logged "[ServiceBus] peekLock receive returned 0 messages, using peeked message data directly"
             :: evs1 ++ [Logged "[ServiceBus] Sending message to main queue/topic"]))
    as Hb.
  { apply (body_outcome_prefix _ _ [_] evs1 [_] Hbody). }
  apply emits_bind_call; [intros []|intros e].
  - eapply (emits_of_only (λ e, ¬ is_send e)); [solve [only_solve]|].
    intros r evs2 H2.
    eapply (around_intro _ _ _ _ (_ :: evs1 ++ [_]) _ evs2);
      [cbn [app]; by rewrite <- app_assoc|done|by apply Hlogs|done|].
    split; [done|]. intros s out answer [= _ <- _]. eauto.
  - eapply (around_intro _ _ _ _ (_ :: evs1 ++ [_]) _ []);
      [cbn [app]; by rewrite <- app_assoc|done|by apply Hlogs|done|].
    split; [done|]. intros s out answer [= _ <- _]. eauto.
Qed.

End CopyBody.

Section CopyBodyRun.
Context {W : Type} `{!Broker W}.

Lemma resubmitMessage_copy_body namespace message queueName topicName subscriptionName :
  emits (resubmitMessage (W:=W) namespace message queueName topicName subscriptionName)
        (around is_send (copy_body_outcome (sequenceString message))).
Proof.
  set (target := sequenceString message).
  assert (∀ (r : Outcome unit) evs,
            Forall (λ _ : Event, False) evs → around is_send (copy_body_outcome target) r evs)
    as Hsilent.
  { intros r evs ->%silent_nil. by left. }
  unfold resubmitMessage.
  eapply (emits_bind_only is_log); [by apply getClient_only| |intros; left..].
  2,3: eapply Forall_impl; [eassumption|]; intros []; simpl; tauto.
  intros client evs0 H0.
  eapply (emits_conseq _ (around is_send (copy_body_outcome target))); cycle 1.
  { intros r evs H. eapply around_prefix; [done| | |exact H].
    - eapply Forall_impl; [exact H0|]. intros []; simpl; tauto.
    - intros pre x post Hc sender out answer Hx.
      destruct (Hc _ _ _ Hx) as (source & mb & props & Hp & [[Hpath ->]|[Hpath ->]]);
        exists source, mb, props;
        (split; [eapply body_outcome_mono; [|exact Hp]; intros ? ?; apply elem_of_app; by right|]);
        [left|right]; (split; [|done]).
      + destruct Hpath as (r' & n & w' & batch & Hin & Hm & Hb).
        exists r', n, w', batch. split_and!; [|done..]. apply elem_of_app. by right.
      + destruct Hpath as (Hnone & r' & n & f & peeked & Hin & Hfind). split.
        * intros r'' n' w' batch Hin'.
          apply elem_of_app in Hin' as [Hin'|Hin']; [|by eapply Hnone].
          rewrite Forall_forall in H0. destruct (H0 _ Hin').
        * exists r', n, f, peeked. split; [|done]. apply elem_of_app. by right. }
  eapply (emits_bind_only (λ _, False)); [solve [only_solve]| |by auto..].
  intros sender ? ->%silent_nil.
  eapply emits_bind;
    [apply receiverFor_peekLock| |intros ? ? [-> _]; by left|intros ? [-> _]; by left].
  intros receiver ? [-> Hmode]. specialize (Hmode receiver eq_refl). cbn [app].
  eapply (emits_try_finally _ _ (around is_send (copy_body_outcome target))).
  - cbv zeta. fold target.
    apply emits_bind_log, emits_bind_call; [intros peekedMessages|intros e]; cycle 1.
    { left. repeat constructor; simpl; tauto. }
    apply emits_bind_log.
    destruct (length peekedMessages =? 0)%nat.
    { apply emits_throw. left. repeat constructor; simpl; tauto. }
    destruct (find (matchesTarget target) peekedMessages) as [peekedTarget|] eqn:Hfind;
      cycle 1.
    { apply emits_bind_log, emits_throw. left. repeat constructor; simpl; tauto. }
    apply emits_bind_log, emits_bind_log, emits_bind_call; [intros messages|intros e];
      cycle 1.
    { left. repeat constructor; simpl; tauto. }
    apply emits_bind_log.
    eapply emits_bind.
    + instantiate (1 := λ r evs,
        Forall (λ e, match e with Logged _ | Abandoned _ _ _ => True | _ => False end) evs
        ∧ ∀ bound, r = Val bound → bound = lastMatch target messages None).
      destruct (0 <? length messages)%nat eqn:Hlen.
      * eapply emits_conseq; [apply scanReceived_spec|].
        intros r evs [Hevs Hr]. split.
        -- eapply Forall_impl; [exact Hevs|]. by intros [].
        -- intros bound ->. by destruct Hr.
      * apply emits_ret. destruct messages; [|done]. split; [constructor|].
        by intros ? [= <-].
    + intros bound evs1 [Hscan Hbound]. specialize (Hbound bound eq_refl).
      assert (Forall (λ e, ¬ is_send e)
                ([Logged ("[ServiceBus] Looking for message with sequenceNumber: "
                            +:+ show target);
                  Peeked receiver 100 1 (Returned peekedMessages);
                  Logged ("[ServiceBus] Peeked " +:+ pretty (length peekedMessages)
                            +:+ " messages in DLQ");
                  Logged "[ServiceBus] Target message found in peeked messages";
                  Logged "[ServiceBus] Attempting to receive messages with peekLock mode...";
                  Received receiver 100 10000 (Returned messages);
                  Logged ("[ServiceBus] Received " +:+ pretty (length messages)
                            +:+ " messages with peekLock")] ++ evs1)) as Hpre.
      { apply Forall_app. split; [repeat constructor; simpl; tauto|].
        eapply Forall_impl; [exact Hscan|]. intros []; simpl; tauto. }
      destruct bound as [targetMessage|].
      * eapply emits_conseq; [apply relocateLocked_body|].
        intros r evs2 H2. cbv beta.
        eapply around_prefix; [| exact Hpre| |exact H2].
        { by rewrite <- app_assoc. }
        intros pre x post Hx s out answer ->.
        destruct (Hx s out answer eq_refl) as (messageBody & convertedAppProps & Hp & ->).
        exists targetMessage, messageBody, convertedAppProps.
        split; [eapply body_outcome_mono; [|exact Hp]; intros ? ?; apply elem_of_app; by right|].
        left.
        split; [|done]. exists receiver, 100%nat, 10000, messages.
        split_and!; [|done..].
        apply elem_of_app. left. apply elem_of_app. left.
        do 5 (apply elem_of_cons; right). apply elem_of_cons. by left.
      * eapply emits_conseq; [apply relocateFromPeek_body|].
        intros r evs2 H2. cbv beta.
        eapply around_prefix; [| exact Hpre| |exact H2].
        { by rewrite <- app_assoc. }
        intros pre x post [Hlogs Hx] s out answer ->.
        destruct (Hx s out answer eq_refl) as (messageBody & convertedAppProps & Hp & ->).
        exists peekedTarget, messageBody, convertedAppProps.
        split; [eapply body_outcome_mono; [|exact Hp]; intros ? ?; apply elem_of_app; by right|].
        right.
        split; [|done]. split.
        -- intros rcv n wait batch Hin.
           apply elem_of_app in Hin as [Hin|Hin].
           2: { rewrite Forall_forall in Hlogs. destruct (Hlogs _ Hin). }
           apply elem_of_app in Hin as [Hin|Hin].
           2: { rewrite Forall_forall in Hscan. destruct (Hscan _ Hin). }
           repeat (apply elem_of_cons in Hin as [Hin|Hin]; [try discriminate|]).
           ++ by injection Hin as _ _ _ ->.
           ++ by apply elem_of_nil in Hin.
        -- exists receiver, 100%nat, 1, peekedMessages. split; [|done].
           apply elem_of_app. left. apply elem_of_app. left.
           apply elem_of_cons; right. apply elem_of_cons. by left.
    + intros e evs1 [Hscan _]. left.
      repeat (constructor; [simpl; tauto|]).
      eapply Forall_impl; [exact Hscan|]. intros []; simpl; tauto.
    + intros evs1 [Hscan _]. left.
      repeat (constructor; [simpl; tauto|]).
      eapply Forall_impl; [exact Hscan|]. intros []; simpl; tauto.
  - intros r evs1 _ H1. eapply emits_conseq; [apply cleanup_closes|].
    intros rc evs2 (Hclose & Hrc & Hthrew).
    eapply around_suffix; [| |exact H1].
    { eapply Forall_impl; [exact Hclose|]. intros []; simpl; tauto. }
    done.
  - done.
Qed.

End CopyBodyRun.

(** X11.  The message that [resubmitMessage] sends is built from one
    source with the target's sequence number, the message bound from the
    received batch or else the peeked one: it carries the source's content
    type, correlation id, subject and session id unchanged, and its body is
    the normalised body of the source whenever normalising returns; when
    normalising the body throws, the body is sent as it was and the failure
    is only logged. *)
Theorem resubmitMessage_copy_carries_source {W : Type} `{!Broker W}
    (namespace : string) (message : ServiceBusReceivedMessage)
    (queueName topicName subscriptionName : option string)
    (svc : ServiceBusService) (w : W) :
  let run := resubmitMessage namespace message queueName topicName subscriptionName
                             (mkRun svc w []) in
  let target := sequenceString message in
  ∀ before sender out answer after,
    run_trace run.2 = before ++ Sent sender out answer :: after →
    ∃ source,
      matchesTarget target source = true
      ∧ (bound_from_batch target source before ∨ taken_from_peek target source before)
      ∧ msg_contentType out = contentType source
      ∧ msg_correlationId out = correlationId source
      ∧ msg_subject out = subject source
      ∧ msg_sessionId out = sessionId source
      ∧ (∀ b, convertToPlainObject (body source) = Val b → msg_body out = b)
      ∧ (∀ e, convertToPlainObject (body source) = Exn e →
           msg_body out = body source
           ∧ Logged ("[ServiceBus] Could not convert body to JSON, using as-is: "
                       +:+ error_toString e) ∈ before).
Proof.
  intros run target before sender out answer after Htrace.
  pose proof (emits_run _ _ svc w
    (resubmitMessage_copy_body namespace message queueName topicName subscriptionName))
    as Hrun.
  fold run target in Hrun.
  destruct (around_elim _ _ _ _ Hrun _ _ _ Htrace I sender out answer eq_refl)
    as (source & messageBody & props & [Hval Hexn] & [[Hpath ->]|[Hpath ->]]);
    exists source.
  - split_and!; [|by left|done..].
    destruct Hpath as (r & n & wait & batch & _ & _ & Hbound).
    by destruct (lastMatch_Some _ _ _ _ Hbound) as [?|[_ ?]].
  - split_and!; [|by right|done..].
    destruct Hpath as (_ & r & n & from & peeked & _ & Hfind).
    by apply find_some in Hfind as [_ ?].
Qed.

Lemma resubmitMessage_copy_carries_source_witness :
  let source := deadLettered 7 "m7" (VArray [VStr "when"; VDate None]) in
  let run := simulate (mkSim [(source, false)] [] []) source in
  ∃ out, run_trace run.2 !! 11%nat = Some (Sent sim_sender out (Returned tt))
         ∧ msg_body out = VArray [VStr "when"; VDate None]
         ∧ msg_contentType out = Some "application/json"
         ∧ run.1 = Val tt.
Proof.
  intros source run.
  set (out := lockedCopy source (body source) (VObject {[ "tenant" := VStr "acme" ]})).
  destruct (resubmitMessage_copy_carries_source "ns.servicebus.windows.net" source
              (Some "orders") None None new_service (mkSim [(source, false)] [] [])
              (take 11 (run_trace run.2)) sim_sender out (Returned tt)
              (drop 12 (run_trace run.2)))
    as (source' & _ & _ & Htype & _); [by vm_compute|].
  exists out. split_and!; by vm_compute.
Defined.

(** ** Registered connection strings and the clients made from them *)

Lemma getNamespace_suffixed connectionString :
  let namespace := getNamespaceFromConnectionString connectionString in
  namespace ≠ "" →
  connectionString ≠ "" ∧ fullyQualified namespace = namespace.
Proof.
  intros namespace Hne. unfold namespace, getNamespaceFromConnectionString in *.
  destruct (match_endpoint connectionString) as [name|] eqn:Hm; [|done].
  split; [by intros ->|]. apply fullyQualified_suffixed.
Qed.

Lemma getAdminClient_fresh {W} `{!Broker W} namespace (s : Run W) :
  adminClients (run_service s) !! namespace = None →
  (getAdminClient namespace s).1
  = adminConstruction (connection_of namespace (run_service s)) (run_service s) (run_world s).
Proof.
  destruct s as [this w tr]. cbn [run_service run_world run_trace]. intros Hc.
  unfold getAdminClient, newAdminClient, bind, withService, invoke, console_log, emit,
    connection_of, adminConstruction.
  cbn [run_service run_world run_trace]. rewrite Hc.
  destruct (nonempty (connectionStrings this !! namespace));
    cbn [run_service run_world run_trace];
    by destruct (newServiceBusAdministrationClient _ w) as [[[]|e] w'].
Qed.

(** X12.  A namespace registered through a connection string is always
    connected with that string: right after [registerConnectionString]
    has returned a namespace, [getClient] and [getAdminClient] for it call
    the constructor with the connection string, also when a client for the
    namespace had been cached before, and settle as the constructor does:
    with the new client when it returns, with its error when it throws.
    The namespace returned is already in the spelling under which the tree
    stores it. *)
Theorem registerConnectionString_then_getClient {W : Type} `{!Broker W}
    (connectionString : string) (s : Run W) :
  let namespace := (registerConnectionString connectionString (run_service s)).1 in
  let this' := (registerConnectionString connectionString (run_service s)).2 in
  let s' := mkRun this' (run_world s) (run_trace s) in
  namespace ≠ "" →
  (getClient namespace s').1
  = construction (FromConnectionString connectionString) (run_service s) (run_world s)
  ∧ (getAdminClient namespace s').1
    = adminConstruction (FromConnectionString connectionString) (run_service s) (run_world s)
  ∧ hasConnectionString namespace this' = true
  ∧ addNamespace namespace ∅ = {[ namespace ]}.
Proof.
  intros namespace this' s' Hne.
  assert (namespace = getNamespaceFromConnectionString connectionString) as Hns.
  { unfold namespace, registerConnectionString. by destruct (negb _). }
  assert (this' = mkService (delete namespace (clients (run_service s)))
                            (delete namespace (adminClients (run_service s)))
                            (<[namespace := connectionString]>
                               (connectionStrings (run_service s)))
                            (constructed (run_service s))) as Hthis.
  { unfold this', registerConnectionString. fold (getNamespaceFromConnectionString connectionString).
    rewrite <- Hns. by rewrite (proj2 (String.eqb_neq _ _) Hne). }
  rewrite Hns in Hne. destruct (getNamespace_suffixed _ Hne) as [Hcs Hfq]. rewrite <- Hns in *.
  assert (connection_of namespace this' = FromConnectionString connectionString) as Hconn.
  { unfold connection_of. rewrite Hthis. cbn [connectionStrings].
    rewrite lookup_insert_eq. by destruct connectionString. }
  split_and!.
  - rewrite getClient_fresh_result.
    + cbn [run_service run_world s']. rewrite Hconn. by rewrite Hthis.
    + unfold s'. cbn [run_service]. rewrite Hthis. cbn [clients]. apply lookup_delete_eq.
  - rewrite getAdminClient_fresh.
    + cbn [run_service run_world s']. rewrite Hconn. by rewrite Hthis.
    + unfold s'. cbn [run_service]. rewrite Hthis. cbn [adminClients]. apply lookup_delete_eq.
  - unfold hasConnectionString. rewrite Hthis. cbn [connectionStrings].
    rewrite lookup_insert_eq. by apply bool_decide_eq_true.
  - unfold addNamespace. rewrite Hfq. by rewrite (right_id_L ∅ (∪)).
Qed.

Lemma registerConnectionString_then_getClient_witness :
  let connectionString :=
    "Endpoint=sb://contoso.servicebus.windows.net/;SharedAccessKeyName=root;SharedAccessKey=abc=" in
  let cached := mkClient 0 (FromCredential "contoso.servicebus.windows.net") in
  let before := mkService {[ "contoso.servicebus.windows.net" := cached ]} ∅ ∅ 1 in
  let this' := (registerConnectionString connectionString before).2 in
  (getClient "contoso.servicebus.windows.net" (mkRun this' healthy_world [])).1
  = Val (mkClient 1 (FromConnectionString connectionString)).
Proof.
  intros connectionString cached before this'.
  destruct (registerConnectionString_then_getClient connectionString
              (mkRun before healthy_world [])) as (Hclient & _).
  - by vm_compute.
  - exact Hclient.
Defined.

(** ** The namespaces of the tree *)

Lemma fullyQualified_includes namespace :
  includes namespace_suffix (fullyQualified namespace) = true.
Proof.
  unfold fullyQualified. destruct (includes namespace_suffix namespace) eqn:E; [done|].
  replace (namespace +:+ namespace_suffix) with (namespace +:+ namespace_suffix +:+ "").
  - apply includes_app_r.
  - f_equal.
Qed.

(** X13.  The tree stores every namespace in its suffixed spelling:
    normalising is idempotent, so adding a namespace under either spelling
    any number of times leaves one entry, and that entry contains the
    Service Bus suffix.  Removing does not normalise: removing the stored
    spelling takes the entry out, while removing the bare spelling of a
    namespace that was added bare leaves its entry in the tree. *)
Theorem tree_namespaces_normalised (namespace : string) (namespaces : gset string) :
  fullyQualified (fullyQualified namespace) = fullyQualified namespace
  ∧ includes namespace_suffix (fullyQualified namespace) = true
  ∧ addNamespace (fullyQualified namespace) (addNamespace namespace namespaces)
    = addNamespace namespace namespaces
  ∧ (fullyQualified namespace ∉ removeNamespace (fullyQualified namespace)
                                   (addNamespace namespace namespaces))
  ∧ (includes namespace_suffix namespace = false →
     fullyQualified namespace ∈ removeNamespace namespace (addNamespace namespace namespaces)).
Proof.
  assert (fullyQualified (fullyQualified namespace) = fullyQualified namespace) as Hidem.
  { unfold fullyQualified at 1. by rewrite fullyQualified_includes. }
  split_and!; [done|apply fullyQualified_includes|..].
  - unfold addNamespace. rewrite Hidem. by rewrite (assoc_L (∪)), (idemp_L (∪)).
  - unfold removeNamespace, addNamespace.
    rewrite elem_of_difference, elem_of_singleton. tauto.
  - intros Hbare. unfold removeNamespace, addNamespace.
    assert (fullyQualified namespace ≠ namespace) as Hne.
    { intros Heq. pose proof (fullyQualified_includes namespace) as Hin.
      rewrite Heq in Hin. congruence. }
    rewrite elem_of_difference, elem_of_union, !elem_of_singleton. tauto.
Qed.

(** ** What the normaliser returns *)

Lemma height_item x items :
  x ∈ items → (height x < height (VArray items))%nat.
Proof.
  cbn [height]. induction 1 as [x l|x y l _ IH]; cbn [foldr]; lia.
Qed.

Lemma height_entry k x entries :
  (k, x) ∈ entries → (height x < height (VMap entries))%nat.
Proof.
  cbn [height]. remember (k, x) as kx eqn:Hkx.
  induction 1 as [kx l|kx [k' y] l _ IH]; subst; cbn [foldr]; [lia|].
  specialize (IH eq_refl). lia.
Qed.

Lemma height_prop k x (props : gmap string Value) :
  props !! k = Some x → (height x < height (VObject props))%nat.
Proof.
  cbn [height]. revert k x.
  apply (map_fold_weak_ind (λ r (m : gmap string Value),
    ∀ k x, m !! k = Some x → (height x < S r)%nat)).
  { intros k x. by rewrite lookup_empty. }
  intros i y m r Hi IH k x Hk.
  apply lookup_insert_Some in Hk as [[-> ->]|[_ Hk]]; [lia|].
  specialize (IH _ _ Hk). lia.
Qed.

(** Induction on the nesting of a value. *)
Lemma Value_nested_ind (P : Value → Prop) :
  (∀ v, (∀ x, (height x < height v)%nat → P x) → P v) → ∀ v, P v.
Proof.
  intros Hstep v. remember (height v) as n eqn:Hn. revert v Hn.
  induction n as [n IH] using lt_wf_ind. intros v ->.
  apply Hstep. intros x Hx. by apply (IH (height x)).
Qed.

Lemma decodeDatetimeOffset_string obj v :
  decodeDatetimeOffset obj = Val (Some v) → ∃ s, v = VStr s.
Proof.
  unfold decodeDatetimeOffset. destruct (isDatetimeOffset obj); [|done].
  destruct (read_ticks _) as [ticks| |]; cbn; [|done..].
  destruct (js_number _) as [ms| |]; cbn; [|done..].
  destruct (toISOString _) as [iso| |]; cbn; [|done..].
  intros [= <-]. by exists iso.
Qed.

Lemma decodeLong_scalar obj v :
  decodeLong obj = Val (Some v) → (∃ s, v = VStr s) ∨ (∃ n, v = VNum n).
Proof.
  unfold decodeLong. destruct (isLong obj); [|done].
  destruct (get_prop obj "low") as [| | |low| | | | | | |]; try done.
  destruct (get_prop obj "high") as [| | |high| | | | | | |]; try done.
  destruct (js_mul _ _) as [hi| |]; cbn; [|done..].
  destruct (js_add _ _) as [num| |]; cbn; [|done..].
  destruct (_ && _).
  - destruct (toISOString _) as [iso| |]; cbn; [|done..]. intros [= <-]. left. by exists iso.
  - intros [= <-]. right. by exists num.
Qed.

Lemma collectProp_normal k (r : Outcome Value) acc o :
  collectProp k r acc = Val o →
  ∃ o0 x, acc = Val o0 ∧ r = Val x ∧ o = assignProp k x o0.
Proof.
  unfold collectProp. destruct acc as [o0| |], r as [x| |]; try done.
  intros [= <-]. by exists o0, x.
Qed.

Lemma collect_entries_stuck (entries : list (string * Value)) acc :
  (∀ o0, acc ≠ Val o0) →
  ∀ o, foldl (λ acc kv, match kv with
                        | (k, x) => collectProp k (convertToPlainObject x) acc
                        end) acc entries ≠ Val o.
Proof.
  revert acc. induction entries as [|[k x] entries IH]; intros acc Hacc o; cbn [foldl].
  { apply Hacc. }
  apply IH. intros o0 Hstep.
  apply collectProp_normal in Hstep as (o1 & ? & -> & _). by eapply Hacc.
Qed.

Lemma assignProp_normal k x (o : gmap string Value) :
  normal x → map_Forall (λ _, normal) o → o !! "__proto__" = None →
  map_Forall (λ _, normal) (assignProp k x o) ∧ assignProp k x o !! "__proto__" = None.
Proof.
  intros Hx Ho Hp. unfold assignProp. destruct (decide (k = "__proto__")); [done|].
  split; [by apply map_Forall_insert_2|by rewrite lookup_insert_ne].
Qed.

Lemma convert_record_inv props v' :
  convertToPlainObject (VObject props) = Val v' →
  (∃ s, v' = VStr s) ∨ (∃ n, v' = VNum n)
  ∨ ∃ o, map_fold (λ k x, collectProp k (convertToPlainObject x)) (Val ∅) props = Val o
         ∧ v' = VObject o.
Proof.
  cbn [convertToPlainObject].
  destruct (decodeDatetimeOffset _) as [[w|]| |] eqn:Hdt; [| |done..].
  { intros [= <-]. left. by eapply decodeDatetimeOffset_string. }
  destruct (decodeLong _) as [[w|]| |] eqn:Hlong; [| |done..].
  { intros [= <-]. apply decodeLong_scalar in Hlong as [?|?]; auto. }
  destruct (map_fold _ _ _) as [o| |]; [|done..]. intros [= <-]. right. right. by exists o.
Qed.

Lemma convert_map_inv entries v' :
  convertToPlainObject (VMap entries) = Val v' →
  (∃ s, v' = VStr s) ∨ (∃ n, v' = VNum n)
  ∨ ∃ o, foldl (λ acc kv, match kv with
                          | (k, x) => collectProp k (convertToPlainObject x) acc
                          end) (Val ∅) entries = Val o
         ∧ v' = VObject o.
Proof.
  cbn [convertToPlainObject].
  destruct (decodeDatetimeOffset _) as [[w|]| |] eqn:Hdt; [| |done..].
  { intros [= <-]. left. by eapply decodeDatetimeOffset_string. }
  destruct (decodeLong _) as [[w|]| |] eqn:Hlong; [| |done..].
  { intros [= <-]. apply decodeLong_scalar in Hlong as [?|?]; auto. }
  destruct (foldl _ _ _) as [o| |]; [|done..]. intros [= <-]. right. right. by exists o.
Qed.

Lemma convert_jsonable_inv props json v' :
  convertToPlainObject (VJsonable props json) = Val v' →
  (∃ s, v' = VStr s) ∨ (∃ n, v' = VNum n) ∨ convertToPlainObject json = Val v'.
Proof.
  cbn [convertToPlainObject].
  destruct (decodeDatetimeOffset _) as [[w|]| |] eqn:Hdt; [| |done..].
  { intros [= <-]. left. by eapply decodeDatetimeOffset_string. }
  destruct (decodeLong _) as [[w|]| |] eqn:Hlong; [| |done..].
  { intros [= <-]. apply decodeLong_scalar in Hlong as [?|?]; auto. }
  auto.
Qed.

(** X14.  Whatever [convertToPlainObject] returns is free of the types it
    is there to remove: at no depth does the result hold a [Date], a
    map-like object or an object with a [toJSON] method, and no record in
    it has a [__proto__] key. *)
Theorem convertToPlainObject_normal (v v' : Value) :
  convertToPlainObject v = Val v' → normal v'.
Proof.
  revert v'. induction v as [v IH] using Value_nested_ind. intros v' Hv.
  destruct v as [| |b|n|s|t|bytes|items|props|entries|props json].
  - injection Hv as <-. constructor.
  - injection Hv as <-. constructor.
  - injection Hv as <-. constructor.
  - injection Hv as <-. constructor.
  - injection Hv as <-. constructor.
  - cbn in Hv. destruct (toISOString t); try done. injection Hv as <-. constructor.
  - injection Hv as <-. constructor.
  - cbn [convertToPlainObject] in Hv.
    destruct (foldr _ _ items) as [l| |] eqn:Hl; [|done..]. injection Hv as <-.
    constructor.
    assert (∀ x, x ∈ items → ∀ x', convertToPlainObject x = Val x' → normal x') as IHl.
    { intros x Hx. apply IH. by apply height_item. }
    clear IH. revert l Hl.
    induction items as [|x items IHitems]; intros l Hl; cbn [foldr] in Hl.
    { injection Hl as <-. constructor. }
    destruct (convertToPlainObject x) as [x'| |] eqn:Hx; [|done..].
    destruct (foldr _ _ items) as [l'| |] eqn:Hl'; [|done..].
    injection Hl as <-. constructor.
    + eapply IHl; [apply list_elem_of_here|done].
    + apply IHitems; [|done]. intros y Hy. apply IHl. by apply list_elem_of_further.
  - apply convert_record_inv in Hv as [[s ->]|[[n ->]|(o & Hfold & ->)]]; [constructor..|].
    assert (∀ k x, props !! k = Some x → ∀ x', convertToPlainObject x = Val x' → normal x')
      as IHp.
    { intros k x Hk. apply IH. by eapply height_prop. }
    clear IH. revert o IHp Hfold.
    apply (map_fold_weak_ind (λ r (m : gmap string Value),
      ∀ o, (∀ k x, m !! k = Some x → ∀ x', convertToPlainObject x = Val x' → normal x') →
           r = Val o → normal (VObject o))).
    { intros o _ [= <-]. constructor; [apply map_Forall_empty|done]. }
    intros i x m r Hi IHm o IHp Hr.
    apply collectProp_normal in Hr as (o0 & x' & -> & Hx & ->).
    assert (normal (VObject o0)) as Ho0.
    { apply IHm; [|done]. intros k y Hk. apply (IHp k).
      rewrite lookup_insert_ne; [done|]. intros ->. congruence. }
    inversion Ho0 as [| | | | | | |? Hall Hproto]; subst.
    destruct (assignProp_normal i x' o0) as [? ?]; [|done|done|by constructor].
    eapply (IHp i x); [apply lookup_insert_eq|done].
  - apply convert_map_inv in Hv as [[s ->]|[[n ->]|(o & Hfold & ->)]]; [constructor..|].
    assert (∀ k x, (k, x) ∈ entries → ∀ x', convertToPlainObject x = Val x' → normal x')
      as IHe.
    { intros k x Hk. apply IH. by eapply height_entry. }
    clear IH.
    assert (normal (VObject ∅)) as Hacc.
    { constructor; [apply map_Forall_empty|done]. }
    revert Hacc Hfold. generalize (∅ : gmap string Value) as acc. revert o.
    induction entries as [|[k x] entries IHentries]; intros o acc Hacc Hfold;
      cbn [foldl] in Hfold.
    { by injection Hfold as <-. }
    destruct (collectProp k (convertToPlainObject x) (Val acc)) as [acc'| |] eqn:Hstep.
    + apply (IHentries (λ k' y Hin, IHe k' y (list_elem_of_further _ _ _ Hin)) o acc');
        [|done].
      apply collectProp_normal in Hstep as (o0 & x' & [= <-] & Hx & ->).
      inversion Hacc as [| | | | | | |? Hall Hproto]; subst.
      destruct (assignProp_normal k x' acc) as [? ?]; [|done|done|by constructor].
      eapply (IHe k x); [apply list_elem_of_here|done].
    + by apply collect_entries_stuck in Hfold.
    + by apply collect_entries_stuck in Hfold.
  - apply convert_jsonable_inv in Hv as [[s ->]|[[n ->]|Hjson]]; [constructor..|].
    eapply (IH json); [|done]. cbn [height]. lia.
Qed.

Lemma convertToPlainObject_normal_witness :
  normal (VObject {[ "when" := VStr "1970-01-01T00:00:00.000Z"; "n" := VNum 5 ]}).
Proof.
  apply (convertToPlainObject_normal
           (VMap [("when", VDate (Some 0)); ("n", VJsonable ∅ (VNum 5));
                  ("__proto__", VNull)])).
  by vm_compute.
Defined.

(** ** Datetime offsets *)

Lemma byte_bounded (b : Byte.byte) : 0 ≤ Z.of_N (Byte.to_N b) < 256.
Proof. pose proof (Byte.to_N_bounded b). lia. Qed.

Lemma lor_shift_byte t b : 0 ≤ t → 0 ≤ b < 256 → Z.lor (Z.shiftl t 8) b = t * 256 + b.
Proof.
  intros Ht Hb. pose proof (Z.add_lor_land (Z.shiftl t 8) b) as Hadd.
  rewrite Z.shiftl_mul_pow2 in * by lia. change (2 ^ 8) with 256 in *.
  assert (Z.land (t * 256) b = 0) as Hland; [|lia].
  apply Z.bits_inj'. intros n Hn. rewrite Z.land_spec, Z.bits_0.
  destruct (decide (n < 8)).
  - change 256 with (2 ^ 8). by rewrite Z.mul_pow2_bits_low.
  - destruct (decide (b = 0)) as [->|]; [by rewrite Z.bits_0, andb_false_r|].
    rewrite (Z.bits_above_log2 b n), andb_false_r; [done|lia|].
    assert (Z.log2 b < 8); [|lia]. apply Z.log2_lt_pow2; lia.
Qed.

Lemma js_or_zero n : js_or (VNum n) (VNum 0) = VNum n.
Proof. by destruct n. Qed.

Lemma read_ticks_step (bytes : list Byte.byte) i b acc :
  bytes !! i = Some b → 0 ≤ acc →
  (ticks ← Val acc;
   b ← toBigInt (js_or (get_index (VBuffer bytes) i) (VNum 0));
   Val (Z.lor (Z.shiftl ticks 8) b))
  = Val (acc * 256 + Z.of_N (Byte.to_N b)).
Proof.
  intros Hb Hacc. cbn [get_index]. rewrite Hb. cbn [from_option].
  rewrite js_or_zero. cbn [toBigInt mbind outcome_bind].
  by rewrite lor_shift_byte by (done || apply byte_bounded).
Qed.

Lemma read_ticks_from (pre bytes : list Byte.byte) acc :
  0 ≤ acc →
  foldl (λ acc i,
           ticks ← acc;
           b ← toBigInt (js_or (get_index (VBuffer (pre ++ bytes)) i) (VNum 0));
           Val (Z.lor (Z.shiftl ticks 8) b))
        (Val acc) (seq (length pre) (length bytes))
  = Val (foldl (λ acc b, acc * 256 + Z.of_N (Byte.to_N b)) acc bytes).
Proof.
  revert pre acc. induction bytes as [|b bytes IH]; intros pre acc Hacc; [done|].
  cbn [length seq foldl].
  rewrite (read_ticks_step (pre ++ b :: bytes) (length pre) b acc); [|by apply list_lookup_middle|done].
  replace (pre ++ b :: bytes) with ((pre ++ [b]) ++ bytes) by by rewrite <- app_assoc.
  replace (S (length pre)) with (length (pre ++ [b])) by (rewrite length_app; cbn; lia).
  apply IH. pose proof (byte_bounded b). lia.
Qed.

Lemma big_endian_bounded bytes : 0 ≤ big_endian bytes < 256 ^ Z.of_nat (length bytes).
Proof.
  unfold big_endian.
  assert (∀ acc n, 0 ≤ acc < 256 ^ Z.of_nat n →
            0 ≤ foldl (λ acc b, acc * 256 + Z.of_N (Byte.to_N b)) acc bytes
            < 256 ^ Z.of_nat (n + length bytes)) as H.
  { induction bytes as [|b bytes IH]; intros acc n Hacc; cbn [foldl length].
    - by rewrite Nat.add_0_r.
    - replace (n + S (length bytes))%nat with (S n + length bytes)%nat by lia.
      apply IH. pose proof (byte_bounded b).
      rewrite Nat2Z.inj_succ, Z.pow_succ_r by lia. lia. }
  apply (H 0 0%nat). simpl. lia.
Qed.

(** X15.  An AMQP datetime offset whose value is a buffer of eight bytes
    always normalises to a timestamp: the bytes are read as one number,
    most significant first, in ticks of 100 ns since 0001-01-01, and the
    result is the ISO-8601 string of the milliseconds since 1970 that this
    is, rounded towards zero.  No such value falls through to the other
    cases or makes the normaliser throw. *)
Theorem datetime_offset_decoded (props descriptor : gmap string Value)
    (bytes : list Byte.byte) :
  props !! "descriptor" = Some (VObject descriptor) →
  descriptor !! "value" = Some (VStr "com.microsoft:datetime-offset") →
  props !! "value" = Some (VBuffer bytes) →
  length bytes = 8%nat →
  convertToPlainObject (VObject props)
  = Val (VStr (format_iso
                 (Z.quot (big_endian bytes - ticksToUnixEpoch) ticksPerMillisecond))).
Proof.
  intros Hdesc Htag Hvalue Hlen.
  cbn [convertToPlainObject]. unfold decodeDatetimeOffset, isDatetimeOffset.
  rewrite (get_prop_lookup _ _ _ Hdesc), (get_prop_lookup _ _ _ Hvalue).
  cbn [get_prop_opt]. rewrite (get_prop_lookup _ _ _ Htag).
  cbn [is_string truthy andb]. rewrite bool_decide_true by done.
  assert (read_ticks (VBuffer bytes) = Val (big_endian bytes)) as ->.
  { unfold read_ticks, big_endian.
    change (seq 0 8) with (seq (length (@nil Byte.byte)) 8). rewrite <- Hlen.
    by apply (read_ticks_from [] bytes 0). }
  pose proof (big_endian_bounded bytes) as Hb. rewrite Hlen in Hb.
  change (256 ^ Z.of_nat 8) with 18446744073709551616 in Hb.
  set (ms := Z.quot (big_endian bytes - ticksToUnixEpoch) ticksPerMillisecond).
  assert (-62135596800001 ≤ ms < 2000000000000000) as Hms.
  { unfold ms, ticksToUnixEpoch, ticksPerMillisecond.
    pose proof (Z.quot_rem' (big_endian bytes - 621355968000000000) 10000) as Hq.
    pose proof (Z.rem_bound_abs (big_endian bytes - 621355968000000000) 10000
                  ltac:(done)) as Hr.
    lia. }
  cbn [try_catch mbind outcome_bind].
  rewrite js_number_small by (change (2 ^ 53) with 9007199254740992; lia).
  cbn [mbind outcome_bind].
  unfold new_Date, toISOString, maxTimeValue.
  rewrite (proj2 (Z.leb_le _ _)) by lia.
  by rewrite (proj2 (Z.leb_le _ _)) by lia.
Qed.

Lemma datetime_offset_decoded_witness :
  convertToPlainObject
    (VObject {[ "descriptor" := VObject {[ "value" := VStr "com.microsoft:datetime-offset" ]};
                "value" := VBuffer [Byte.x08; Byte.xdc; Byte.x39; Byte.xe7; Byte.x1e;
                                    Byte.xfe; Byte.xa0; Byte.x00] ]})
  = Val (VStr "2024-03-01T12:00:00.000Z").
Proof.
  rewrite (datetime_offset_decoded _ {[ "value" := VStr "com.microsoft:datetime-offset" ]}
             [Byte.x08; Byte.xdc; Byte.x39; Byte.xe7; Byte.x1e; Byte.xfe; Byte.xa0; Byte.x00]);
    by vm_compute.
Defined.

(** ** [dispose] *)

Section DisposeFacts.
Context {W : Type} `{!ClientCloser W}.

Lemma closeClients_spec (values : list ServiceBusClient) (w : W) :
  let '(r, w', closed) := closeClients values w in
  match r with
  | Val _ => closed = map (λ client, (client, Returned tt)) values
  | Exn e => ∃ done client rest,
               values = done ++ client :: rest
               ∧ closed = map (λ client, (client, Returned tt)) done ++ [(client, Threw e)]
  | Unmodelled => False
  end.
Proof.
  revert w. induction values as [|client rest IH]; intros w; cbn [closeClients]; [done|].
  destruct (closeClient client w) as [[[]|e] w'].
  - specialize (IH w'). destruct (closeClients rest w') as [[r w''] closed].
    destruct r as [[]|e|]; [by subst| |done].
    destruct IH as (done & c & rest' & -> & ->). by exists (client :: done), c, rest'.
  - by exists [], client, rest.
Qed.

End DisposeFacts.

(** X16.  [dispose] closes the cached clients one after the other.  When
    every [close] returns, each cached client has been closed, all of
    them before the caches are emptied, and the registered connection
    strings stay: the next [getClient] for a namespace calls the
    constructor again, with the connection string of the namespace if it
    has one, and settles as the constructor does.  When a [close] throws,
    no further client is closed, the error is the result and the service
    keeps both caches as they were, the clients already closed
    included. *)
Theorem dispose_clears_caches {W : Type} `{!ClientCloser W} `{!Broker W}
    (values : list ServiceBusClient) (this : ServiceBusService) (w : W) :
  values ≡ₚ (map_to_list (clients this)).*2 →
  let '(r, this', w', closed) := dispose values this w in
  (r = Val tt
   ∧ closed.*1 ≡ₚ (map_to_list (clients this)).*2
   ∧ Forall (λ call, call.2 = Returned tt) closed
   ∧ clients this' = ∅ ∧ adminClients this' = ∅
   ∧ connectionStrings this' = connectionStrings this
   ∧ ∀ namespace (s : Run W),
       run_service s = this' →
       (getClient namespace s).1
       = construction (connection_of namespace this) this (run_world s))
  ∨ (∃ e done client rest,
       r = Exn e
       ∧ values = done ++ client :: rest
       ∧ closed = map (λ client, (client, Returned tt)) done ++ [(client, Threw e)]
       ∧ this' = this).
Proof.
  intros Hvalues.
  unfold dispose. pose proof (closeClients_spec values w) as Hspec.
  destruct (closeClients values w) as [[r w'] closed].
  destruct r as [[]|e|]; [|right|done].
  - left. subst closed. split_and!; [done| | |done..|].
    + rewrite <- Hvalues. clear. induction values as [|c values IH]; [done|]. cbn. by rewrite IH.
    + clear. induction values as [|c values IH]; by constructor.
    + intros namespace s Hs.
      rewrite getClient_fresh_result by (by rewrite Hs).
      by rewrite Hs.
  - destruct Hspec as (done & client & rest & -> & ->). by exists e, done, client, rest.
Qed.

Lemma dispose_clears_caches_witness :
  let client := mkClient 0 (FromCredential "contoso.servicebus.windows.net") in
  let this := mkService {[ "contoso.servicebus.windows.net" := client ]} ∅ ∅ 1 in
  (@dispose SimWorld closesAll [client] this healthy_world).1.1.1 = Val tt
  ∧ (getClient "contoso.servicebus.windows.net"
       (mkRun (@dispose SimWorld closesAll [client] this healthy_world).1.1.2
              healthy_world [])).1
    = Val (mkClient 1 (FromCredential "contoso.servicebus.windows.net")).
Proof.
  intros client this.
  pose proof (@dispose_clears_caches SimWorld closesAll sim_broker [client] this healthy_world)
    as H.
  destruct (@dispose SimWorld closesAll [client] this healthy_world)
    as [[[r this'] w'] closed] eqn:Heq.
  destruct H as [(-> & _ & _ & _ & _ & _ & Hnext)|(e & ? & ? & ? & -> & _)].
  - unfold this. cbn [clients]. by rewrite map_to_list_singleton.
  - split; [done|]. cbn [fst snd]. by rewrite (Hnext _ (mkRun this' healthy_world [])).
  - by vm_compute in Heq.
Defined.

(** ** [restoreConnectionStrings] *)

Lemma restore_step {W : Type} `{!SecretStorage W} (stored : gmap string string)
    namespace rest (s : Run W) :
  (∀ key (w : W), secrets_get key w = (Returned (stored !! key), w)) →
  restoreConnectionStrings (namespace :: rest) s
  = match nonempty (stored !! secretKey namespace) with
    | Some connectionString =>
        restoreConnectionStrings rest
          (mkRun (registerConnectionString connectionString (run_service s)).2 (run_world s)
                 (run_trace s ++ [Logged ("[ServiceBus] Restored connection string for "
                                            +:+ namespace)]))
    | None => restoreConnectionStrings rest s
    end.
Proof.
  intros storage_answers.
  destruct s as [this w tr]. cbn [restoreConnectionStrings].
  unfold bind at 1. unfold await at 1. cbn [run_world run_service run_trace].
  rewrite storage_answers. cbn [settle].
  destruct (nonempty (stored !! secretKey namespace)) as [connectionString|]; [|done].
  unfold bind, withService, console_log, emit. cbn [run_world run_service run_trace].
  by destruct (registerConnectionString connectionString this).
Qed.

(** What one registration changes: the entries of its own namespace. *)
Lemma registerConnectionString_own_entries connectionString (this : ServiceBusService) namespace :
  let this' := (registerConnectionString connectionString this).2 in
  constructed this' = constructed this
  ∧ (getNamespaceFromConnectionString connectionString ≠ namespace ∨ namespace = "" →
     connectionStrings this' !! namespace = connectionStrings this !! namespace
     ∧ clients this' !! namespace = clients this !! namespace
     ∧ adminClients this' !! namespace = adminClients this !! namespace)
  ∧ (getNamespaceFromConnectionString connectionString = namespace → namespace ≠ "" →
     connectionStrings this' !! namespace = Some connectionString
     ∧ clients this' !! namespace = None
     ∧ adminClients this' !! namespace = None).
Proof.
  unfold registerConnectionString.
  destruct (String.eqb_spec (getNamespaceFromConnectionString connectionString) "") as [He|He];
    cbn [negb snd].
  - split_and!; [done..|]. intros <-. done.
  - cbn [constructed connectionStrings clients adminClients]. split_and!; [done| |].
    + intros [Hn| ->].
      * by rewrite lookup_insert_ne, !lookup_delete_ne.
      * by rewrite lookup_insert_ne, !lookup_delete_ne.
    + intros <- _. by rewrite lookup_insert_eq, !lookup_delete_eq.
Qed.

(** X17.  Restoring at activation.  Let the secret storage answer every
    read from [stored], and let every secret kept for a saved namespace
    be a connection string of that namespace (as the add command stores
    them).  Then [restoreConnectionStrings] returns, and afterwards every
    saved namespace with a non-empty secret is connected with that secret
    and has no cached client, while every other namespace is as before:
    its connection string and its cached clients are untouched.  No
    client is constructed. *)
Theorem restoreConnectionStrings_restores {W : Type} `{!SecretStorage W}
    (stored : gmap string string) (namespaces : list string) (s : Run W) :
  (∀ key (w : W), secrets_get key w = (Returned (stored !! key), w)) →
  (∀ namespace connectionString,
     namespace ∈ namespaces → stored !! secretKey namespace = Some connectionString →
     connectionString ≠ "" →
     getNamespaceFromConnectionString connectionString = namespace) →
  let run := restoreConnectionStrings namespaces s in
  let this' := run_service run.2 in
  run.1 = Val tt
  ∧ constructed this' = constructed (run_service s)
  ∧ ∀ namespace,
      namespace ≠ "" →
      (∀ connectionString,
         namespace ∈ namespaces →
         stored !! secretKey namespace = Some connectionString → connectionString ≠ "" →
         connection_of namespace this' = FromConnectionString connectionString
         ∧ clients this' !! namespace = None
         ∧ adminClients this' !! namespace = None)
      ∧ (namespace ∉ namespaces ∨ nonempty (stored !! secretKey namespace) = None →
         connectionStrings this' !! namespace = connectionStrings (run_service s) !! namespace
         ∧ clients this' !! namespace = clients (run_service s) !! namespace
         ∧ adminClients this' !! namespace = adminClients (run_service s) !! namespace).
Proof.
  intros storage_answers. revert s.
  induction namespaces as [|saved rest IH]; intros s Hsecrets run this'.
  { split_and!; [done..|]. intros namespace _. split; [|done].
    intros ? Hin. by apply elem_of_nil in Hin. }
  unfold this', run. clear this' run.
  rewrite (restore_step stored) by done.
  assert (∀ namespace connectionString,
            namespace ∈ rest → stored !! secretKey namespace = Some connectionString →
            connectionString ≠ "" →
            getNamespaceFromConnectionString connectionString = namespace) as Hrest.
  { intros namespace connectionString Hin. apply Hsecrets. by right. }
  destruct (nonempty (stored !! secretKey saved)) as [secret|] eqn:Hsaved.
  - assert (stored !! secretKey saved = Some secret ∧ secret ≠ "") as [Hsecret Hne].
    { destruct (stored !! secretKey saved) as [[|]|]; by simplify_eq/=. }
    assert (getNamespaceFromConnectionString secret = saved) as Hparse.
    { apply Hsecrets; [by left|done..]. }
    set (s1 := mkRun _ _ _).
    destruct (IH s1 Hrest) as (Hval & Hcount & Hmaps).
    pose proof (registerConnectionString_own_entries secret (run_service s)) as Hframe.
    split_and!; [done|by rewrite Hcount; apply (Hframe "")|].
    intros namespace Hnamespace. destruct (Hmaps namespace Hnamespace) as [Hin Hout].
    destruct (Hframe namespace) as (_ & Hother & Hsame).
    split.
    + intros connectionString Helem Hstored Hcs.
      destruct (decide (namespace ∈ rest)) as [Hr|Hr]; [by apply Hin|].
      apply elem_of_cons in Helem as [->|?]; [|done].
      destruct Hout as (Hc1 & Hc2 & Hc3); [by left|].
      destruct Hsame as (Hs1 & Hs2 & Hs3); [done..|].
      assert (connectionString = secret) as -> by congruence.
      unfold connection_of. rewrite Hc1, Hc2, Hc3. cbn [s1 run_service].
      rewrite Hs1, Hs2, Hs3. split_and!; [|done..]. by destruct secret.
    + intros Hcase.
      assert (saved ≠ namespace) as Hdiff.
      { destruct Hcase as [Hnotin|Hnone].
        - intros ->. apply Hnotin. by left.
        - intros ->. congruence. }
      destruct Hout as (Hc1 & Hc2 & Hc3).
      { destruct Hcase as [Hnotin|Hnone]; [left|by right].
        intros ?. apply Hnotin. by right. }
      destruct Hother as (Hs1 & Hs2 & Hs3); [left; congruence|].
      rewrite Hc1, Hc2, Hc3. cbn [s1 run_service]. by rewrite Hs1, Hs2, Hs3.
  - destruct (IH s Hrest) as (Hval & Hcount & Hmaps).
    split_and!; [done..|].
    intros namespace Hnamespace. destruct (Hmaps namespace Hnamespace) as [Hin Hout].
    split.
    + intros connectionString Helem Hstored Hcs.
      apply elem_of_cons in Helem as [->|?]; [|by apply Hin].
      rewrite Hstored in Hsaved. by destruct connectionString.
    + intros Hcase. apply Hout.
      destruct Hcase as [Hnotin|Hnone]; [left|by right].
      intros ?. apply Hnotin. by right.
Qed.

Lemma restoreConnectionStrings_restores_witness :
  let secret :=
    "Endpoint=sb://contoso.servicebus.windows.net/;SharedAccessKeyName=root;SharedAccessKey=abc=" in
  let stored : gmap string string :=
    {[ secretKey "contoso.servicebus.windows.net" := secret ]} in
  let namespaces := ["contoso.servicebus.windows.net"; "fabrikam.servicebus.windows.net"] in
  let run := @restoreConnectionStrings unit (storedSecrets stored) namespaces
               (mkRun new_service tt []) in
  connection_of "contoso.servicebus.windows.net" (run_service run.2)
  = FromConnectionString secret
  ∧ connectionStrings (run_service run.2) !! "fabrikam.servicebus.windows.net" = None.
Proof.
  intros secret stored namespaces run.
  destruct (@restoreConnectionStrings_restores unit (storedSecrets stored) stored namespaces
              (mkRun new_service tt [])) as (_ & _ & Hmaps).
  - done.
  - intros namespace connectionString Hin.
    apply elem_of_cons in Hin as [->|Hin]; [|apply elem_of_cons in Hin as [->|Hin]].
    + vm_compute. by intros [= <-] _.
    + vm_compute. by intros [=].
    + by apply elem_of_nil in Hin.
  - split.
    + destruct (Hmaps "contoso.servicebus.windows.net") as [Hin _]; [done|].
      apply (Hin secret); [by left|by vm_compute|done].
    + destruct (Hmaps "fabrikam.servicebus.windows.net") as [_ Hout]; [done|].
      destruct Hout as (Hsame & _); [right; by vm_compute|exact Hsame].
Defined.

(** ** The message panel *)

Section HtmlFacts.
Import Stdlib.Strings.Ascii.

Lemma string_app_assoc (a b c : string) : (a +:+ b) +:+ c = a +:+ (b +:+ c).
Proof. induction a as [|x a IH]; [by rewrite !app_nil_l|]. by rewrite !app_cons, IH. Qed.

Lemma replaceAll_app c replacement (x y : string) :
  replaceAll c replacement (x +:+ y)
  = replaceAll c replacement x +:+ replaceAll c replacement y.
Proof.
  induction x as [|a x IH]; [by rewrite !app_nil_l|].
  rewrite app_cons. cbn [replaceAll]. by rewrite IH, string_app_assoc.
Qed.

Lemma string_app_nil_r (a : string) : a +:+ "" = a.
Proof. induction a as [|x a IH]; [by rewrite app_nil_l|]. by rewrite app_cons, IH. Qed.

Lemma replaceAll_single c replacement a :
  replaceAll c replacement (String a "")
  = if Ascii.eqb a c then replacement else String a "".
Proof. cbn [replaceAll]. apply string_app_nil_r. Qed.

Lemma escapeHtml_cons a (rest : string) :
  escapeHtml (String a rest) = entity a +:+ escapeHtml rest.
Proof.
  unfold escapeHtml.
  change (replaceAll "&"%char "&amp;" (String a rest))
    with ((if Ascii.eqb a "&"%char then "&amp;" else String a "")
            +:+ replaceAll "&"%char "&amp;" rest).
  rewrite !replaceAll_app. f_equal. unfold entity.
  destruct (Ascii.eqb_spec a "&"%char) as [->|?]; [by vm_compute|].
  rewrite replaceAll_single.
  destruct (Ascii.eqb_spec a "<"%char) as [->|?]; [by vm_compute|].
  rewrite replaceAll_single.
  destruct (Ascii.eqb_spec a ">"%char) as [->|?]; [by vm_compute|].
  rewrite replaceAll_single.
  destruct (Ascii.eqb_spec a "034"%char) as [->|?]; [by vm_compute|].
  by rewrite replaceAll_single.
Qed.

Lemma escapeHtml_app (x y : string) : escapeHtml (x +:+ y) = escapeHtml x +:+ escapeHtml y.
Proof. unfold escapeHtml. by rewrite !replaceAll_app. Qed.

Lemma list_ascii_app (x y : string) :
  String.list_ascii_of_string (x +:+ y) = String.list_ascii_of_string x ++ String.list_ascii_of_string y.
Proof. induction x as [|a x IH]; [by rewrite app_nil_l|]. rewrite app_cons. cbn. by rewrite IH. Qed.

Lemma entity_no_markup a c : c ∈ String.list_ascii_of_string (entity a) → c ∉ markup.
Proof.
  unfold entity, markup.
  destruct (Ascii.eqb_spec a "&"%char) as [->|?];
    [|destruct (Ascii.eqb_spec a "<"%char) as [->|?];
      [|destruct (Ascii.eqb_spec a ">"%char) as [->|?];
        [|destruct (Ascii.eqb_spec a "034"%char) as [->|?];
          [|destruct (Ascii.eqb_spec a "'"%char) as [->|?]]]]];
    cbn [String.list_ascii_of_string]; intros Hin Hm;
    repeat (apply elem_of_cons in Hin as [->|Hin]);
    try (by apply elem_of_nil in Hin);
    repeat (apply elem_of_cons in Hm as [Hm|Hm]; [by (discriminate || congruence)|]);
    by apply elem_of_nil in Hm.
Qed.

(** X18.  [_escapeHtml] works character by character although it is written
    as five passes over the text: each character becomes its entity or
    stays, so escaping a text in pieces is escaping it whole, and the
    ampersands of the entities are not escaped again.  The result
    contains no [<], no [>] and no quote: text shown in the panel cannot
    open a tag or close an attribute. *)
Theorem escapeHtml_no_markup (text more : string) :
  escapeHtml (text +:+ more) = escapeHtml text +:+ escapeHtml more
  ∧ (∀ a, escapeHtml (String a text) = entity a +:+ escapeHtml text)
  ∧ ∀ c, c ∈ String.list_ascii_of_string (escapeHtml text) → c ∉ markup.
Proof.
  split_and!; [apply escapeHtml_app|intros; apply escapeHtml_cons|].
  induction text as [|a text IH]; intros c.
  - intros Hin. by apply elem_of_nil in Hin.
  - rewrite escapeHtml_cons, list_ascii_app. intros [Hin|Hin]%elem_of_app; [|by apply IH].
    by eapply entity_no_markup.
Qed.

Ltac entity_cases a :=
  destruct (Ascii.eqb_spec a "&"%char) as [->|?];
    [|destruct (Ascii.eqb_spec a "<"%char) as [->|?];
      [|destruct (Ascii.eqb_spec a ">"%char) as [->|?];
        [|destruct (Ascii.eqb_spec a "034"%char) as [->|?];
          [|destruct (Ascii.eqb_spec a "'"%char) as [->|?]]]]].

(** The entities form a prefix code. *)
Lemma entity_prefix_free x y (u v : string) :
  entity x +:+ u = entity y +:+ v → x = y ∧ u = v.
Proof.
  unfold entity. entity_cases x; entity_cases y;
    vm_compute; intros [=]; subst; done.
Qed.

(** X19.  Escaping loses nothing: two texts with the same escaped form are
    the same text, so what the panel shows determines the text of the
    message. *)
Theorem escapeHtml_injective (a b : string) : escapeHtml a = escapeHtml b → a = b.
Proof.
  revert b. induction a as [|x a IH]; intros [|y b].
  - done.
  - rewrite escapeHtml_cons. unfold entity. entity_cases y; by vm_compute.
  - rewrite escapeHtml_cons. unfold entity. entity_cases x; by vm_compute.
  - rewrite !escapeHtml_cons. intros [-> Heq]%entity_prefix_free. f_equal. by apply IH.
Qed.

Lemma escapeHtml_injective_witness :
  escapeHtml "<a href='x'>" = escapeHtml "<a href='x'>" ∧ "<a href='x'>" = "<a href='x'>".
Proof. split; [reflexivity|]. by apply escapeHtml_injective. Defined.

End HtmlFacts.
